(** * Reverse stress testing: the scenario engine of [reverse_stress_testing.ipynb]

    The notebook computes, for a Gaussian factor model with covariance [c],
    portfolio weights [w] and a loss size [L], the most likely scenario with
    loss [L] and [M] further scenarios on the same hyperplane.

    Arithmetic is the exact arithmetic of the real numbers: a float of the
    notebook is a real number here, [np.sqrt] is [sqrt], [np.log] is [ln].
    The one place where the range of a float64 decides a result is the
    likelihood vector: [np.exp] of a log-density gives 0.0 below its range
    and inf above it, and the division by the first density then gives nan
    or inf; there the model keeps the values that are not real numbers.
    An [ndarray] is modelled by its indexing function; its shape is the
    explicit dimension argument of the operations that read it (the [n] of
    [len(w)], the [M] of the simplex).  Row and column labels of the pandas
    frames carry no numbers and are left out, as is the [printIt] trace.

    The routines of numpy and scipy that the notebook calls but does not
    define ([np.linalg.qr], [np.linalg.eig], [np.linalg.solve], the
    determinant inside [multivariate_normal.pdf]) are arguments of the model,
    bundled in the record [linalg]; what a theorem needs from them it states as
    a hypothesis on the calls the run makes. *)

From Stdlib Require Import Reals Lra Lia List ZArith Bool Arith Permutation
  Sorted.
Import ListNotations.
Local Open Scope R_scope.

(** ** Arrays *)

Definition vec := nat -> R.
Definition mat := nat -> nat -> R.

(** [sumR n f] is f 0 + ... + f (n-1). *)
Fixpoint sumR (n : nat) (f : nat -> R) : R :=
  match n with
  | O => 0
  | S k => sumR k f + f k
  end.

(** [np.dot] of two vectors of length [n]. *)
Definition dot (n : nat) (u v : vec) : R := sumR n (fun i => u i * v i).

(** [np.linalg.norm] of a vector of length [n]. *)
Definition norm (n : nat) (u : vec) : R := sqrt (dot n u u).

(** [a.dot(v)] for a matrix with [m] columns. *)
Definition mulmv (m : nat) (a : mat) (v : vec) : vec :=
  fun i => dot m (a i) v.

(** [a.dot(b)] where [a] has [m] columns and [b] has [m] rows. *)
Definition mulm (m : nat) (a b : mat) : mat :=
  fun i j => sumR m (fun k => a i k * b k j).

(** [a.T] *)
Definition transpose (a : mat) : mat := fun i j => a j i.

(** column [j] of [a], as a vector *)
Definition col (a : mat) (j : nat) : vec := fun i => a i j.

(** [np.eye] and [np.zeros] *)
Definition eye : mat := fun i j => if Nat.eqb i j then 1 else 0.
Definition zeros : mat := fun _ _ => 0.

(** [p[i, j] = x] *)
Definition set_entry (p : mat) (i j : nat) (x : R) : mat :=
  fun i' j' => if (Nat.eqb i' i && Nat.eqb j' j)%bool then x else p i' j'.

(** [p[i, :] = v] *)
Definition set_row (p : mat) (i : nat) (v : vec) : mat :=
  fun i' j' => if Nat.eqb i' i then v j' else p i' j'.

(** [gs[:, j] = -gs[:, j]] *)
Definition negate_col (gs : mat) (j : nat) : mat :=
  fun i' j' => if Nat.eqb j' j then - gs i' j' else gs i' j'.

(** ** Exceptions *)

Inductive exn : Set :=
| IndexError
| ValueError
| ZeroDivisionError
| LinAlgError.

Inductive result (A : Type) : Type :=
| Ok (a : A)
| Raise (e : exn).

Arguments Ok {A} a.
Arguments Raise {A} e.

Definition bind {A B : Type} (r : result A) (k : A -> result B) : result B :=
  match r with
  | Ok a => k a
  | Raise e => Raise e
  end.

Notation "x <- r ;; k" := (bind r (fun x => k))
  (at level 61, r at next level, right associativity).

Definition raises {A : Type} (r : result A) : Prop :=
  exists e, r = Raise e.

(** ** Floats that are not real numbers *)

(** a float64 as far as the likelihoods need it: a real number, an
    infinity or nan (the sign of a zero is not kept) *)
Inductive fnum : Type :=
| Fin (x : R)
| PInf
| NInf
| NaN.

(** the arguments at which [np.exp] leaves the range of a float64:
    exp(x) rounds to 0.0 below ln(2^-1075) and to inf from ln(2^1024) on *)
Definition exp_underflow : R := - 1075 * ln 2.
Definition exp_overflow : R := 1024 * ln 2.

(** [np.exp(x)] *)
Definition np_exp (x : R) : fnum :=
  if Rlt_dec x exp_underflow then Fin 0
  else if Rle_dec exp_overflow x then PInf
  else Fin (exp x).

(** a real result as a float64: an infinity from 2^1024 on *)
Definition float_of (z : R) : fnum :=
  if Rle_dec (exp exp_overflow) z then PInf
  else if Rle_dec z (- exp exp_overflow) then NInf
  else Fin z.

(** [a / b] on floats: x / 0 is an infinity or nan, and so on *)
Definition fdiv (a b : fnum) : fnum :=
  match a, b with
  | NaN, _ => NaN
  | _, NaN => NaN
  | Fin x, Fin y =>
      if Req_EM_T y 0
      then (if Rlt_dec 0 x then PInf else if Rlt_dec x 0 then NInf else NaN)
      else float_of (x / y)
  | Fin _, PInf => Fin 0
  | Fin _, NInf => Fin 0
  | PInf, Fin y => if Rlt_dec y 0 then NInf else PInf
  | NInf, Fin y => if Rlt_dec y 0 then PInf else NInf
  | PInf, PInf => NaN
  | PInf, NInf => NaN
  | NInf, PInf => NaN
  | NInf, NInf => NaN
  end.

(** ** The library routines the notebook calls *)

Record linalg : Type := {
  (** [np.linalg.qr(a)] on an n x n array: the pair (q, r) *)
  qr : nat -> mat -> mat * mat;
  (** [np.linalg.eig(a)] on an n x n array: eigenvalues and the matrix whose
      columns are eigenvectors; LinAlgError when the iteration fails *)
  eig : nat -> mat -> result (vec * mat);
  (** [np.linalg.solve(a, b)]: LinAlgError when [a] is singular *)
  solve : nat -> mat -> vec -> result vec;
  (** the determinant of the covariance, inside the normal density *)
  det : nat -> mat -> R
}.

(** [vals.argsort()]: the indices 0..n-1 ordered by ascending value
    (a stable insertion sort; the order numpy gives to equal values is
    not specified and no result below depends on it). *)
Fixpoint insert_by (vals : vec) (i : nat) (l : list nat) : list nat :=
  match l with
  | [] => [i]
  | j :: l' => if Rle_dec (vals i) (vals j) then i :: l
               else j :: insert_by vals i l'
  end.

Definition argsort (n : nat) (vals : vec) : list nat :=
  fold_right (insert_by vals) [] (seq 0 n).

(** [(np.abs(w) > 0.00001).nonzero()[0]], of which the notebook reads entry 0 *)
Definition above_eps (w : vec) (j : nat) : bool :=
  if Rgt_dec (Rabs (w j)) (1 / 100000) then true else false.

Definition nonzero_indices (n : nat) (w : vec) : list nat :=
  filter (above_eps w) (seq 0 n).

(** values [f 0 .. f (k-1)] computed in this order; the first exception is
    the one raised (a list comprehension) *)
Fixpoint collect (k : nat) (f : nat -> result fnum) : result (nat -> fnum) :=
  match k with
  | O => Ok (fun _ => Fin 0)
  | S k' =>
      g <- collect k' f ;;
      v <- f k' ;;
      Ok (fun j => if Nat.eqb j k' then v else g j)
  end.

Section Notebook.

Variable la : linalg.

(** *** Auxiliary functions (cell 2) *)

Definition gram_schmidt_columns (n : nat) (x : mat) : mat :=
  let '(q, r) := qr la n x in q.

(** row-wise Gram Schmidt procedure *)
Definition gram_schmidt_rows (n : nat) (x : mat) : mat :=
  let '(q, r) := qr la n (transpose x) in transpose q.

(** the matrix [p] of [p_from_w] before it is orthonormalised *)
Definition p_init (n : nat) (w : vec) (j0 : nat) : mat :=
  let p := zeros in
  let p := set_row p 0 (fun j => w j / norm n w) in
  let p := fold_left (fun p j => set_entry p (j + 1) j 1) (seq 0 j0) p in
  fold_left (fun p j => set_entry p j j 1) (seq (j0 + 1) (n - (j0 + 1))) p.

(** the closing loop of [p_from_w] over the columns of [gs] *)
Definition canonicalize (n : nat) (gs : mat) : mat :=
  fold_left (fun gs j => if Rlt_dec (gs 0%nat j) 0 then negate_col gs j else gs)
            (seq 0 n) gs.

(** given weights vector w, calculate transform matrix p.
    [p[0, :] = ...] on an empty array and [...nonzero()[0][0]] on an empty
    index array both raise IndexError. *)
Definition p_from_w (n : nat) (w : vec) : result mat :=
  if Nat.eqb n 0 then Raise IndexError
  else
    match nonzero_indices n w with
    | [] => Raise IndexError
    | j0 :: _ =>
        let p := p_init n w j0 in
        let gs := gram_schmidt_rows n p in
        Ok (canonicalize n gs)
    end.

(** [np.append(range(1, M), 0)] *)
Definition cls (m : nat) (j : nat) : nat :=
  if Nat.ltb j (m - 1) then (j + 1)%nat else 0%nat.

(** the matrix [a] of [standard_simplex_vertices]: the identity with its
    first row set to ones *)
Definition simplex_seed : mat := set_row eye 0 (fun _ => 1).

(** [np.eye(M)] raises ValueError for negative [M], [1 / M] raises
    ZeroDivisionError for [M = 0], and for [M = 1] the array left by
    [np.delete] has no row, so reading it raises IndexError. *)
Definition standard_simplex_vertices (M : Z) : result mat :=
  if (M <? 0)%Z then Raise ValueError
  else if (M =? 0)%Z then Raise ZeroDivisionError
  else
    let m := Z.to_nat M in
    let z : mat := fun i j => eye i j - 1 / IZR M in
    let a := simplex_seed in
    let p := gram_schmidt_rows m a in
    if (M =? 1)%Z then Raise IndexError
    else
      let pz := mulm m p z in
      let gs : mat := fun i j => pz (S i) (cls m j) in
      let gs : mat := if Rlt_dec (gs 0%nat 0%nat) 0 then (fun i j => - gs i j) else gs in
      Ok (fun i j => gs i j * sqrt (IZR M / IZR (M - 1))).

(** x * a^(-1) * x *)
Definition quadratic_form_inv (n : nat) (a : mat) (x : vec) : result R :=
  ax <- solve la n a x ;;
  Ok (dot n x ax).

(** the log-density that scipy computes:
    [-0.5 * (rank * _LOG_2PI + log_det_cov + maha)], where [log_det_cov] is
    the sum of the logarithms of the eigenvalues of [cov], the logarithm of
    its determinant [d] *)
Definition log_density (n : nat) (d maha : R) : R :=
  - (INR n * ln (2 * PI) + ln d + maha) / 2.

(** [multivariate_normal.pdf(x, mean=0, cov=c)], as scipy computes it:
    [np.exp] of the log-density, with maha = x' c^(-1) x. *)
Definition multivariate_normal_pdf (n : nat) (x : vec) (c : mat)
  : result fnum :=
  s <- solve la n c x ;;
  Ok (np_exp (log_density n (det la n c) (dot n x s))).

(** *** Main procedure (cell 3): its intermediate arrays, by their names *)

(** [ah]: the central scenario in the original coordinates *)
Definition central (n : nat) (c : mat) (w : vec) (L : R) : vec :=
  let cw := mulmv n c w in
  fun i => L * cw i / dot n w cw.

(** [dy]: the covariance matrix in the transformed space *)
Definition transformed_cov (n : nat) (c p : mat) : mat :=
  mulm n p (mulm n c (transpose p)).

(** [ahy]: the centre in the transformed space, without its first coordinate *)
Definition cond_mean (n : nat) (c p : mat) (w : vec) (L : R) : vec :=
  let dy := transformed_cov n c p in
  let d11 := dy 0%nat 0%nat in
  let dI1 : vec := fun i => dy (S i) 0%nat in
  let wn := norm n w in
  fun i => L * dI1 i / d11 / wn.

(** [dyh]: the covariance of the conditional distribution *)
Definition cond_cov (n : nat) (c p : mat) : mat :=
  let dy := transformed_cov n c p in
  let d11 := dy 0%nat 0%nat in
  let dI1 : vec := fun i => dy (S i) 0%nat in
  let dII : mat := fun i j => dy (S i) (S j) in
  let i_m : mat := fun i j => dI1 i * dI1 j in
  fun i j => dII i j - i_m i j / d11.

(** [V]: the eigenvectors ordered by descending eigenvalue *)
Definition sorted_vectors (k : nat) (vals : vec) (vect : mat) : mat :=
  let ind := rev (argsort k vals) in
  fun i j => vect i (nth j ind 0%nat).

(** [df] after [first_comp] has been put on top: column 0 is the centre,
    column j+1 is column j of [rz] *)
Definition transformed_scenarios (first_comp : R) (ahy : vec) (rz : mat) : mat :=
  fun i j =>
    match i with
    | O => first_comp
    | S i' => match j with
              | O => ahy i'
              | S j' => rz i' j'
              end
    end.

Definition comp_scenarios (n : nat) (c : mat) (w : vec) (L q : R) (M : Z)
  : result (mat * (nat -> fnum)) :=
  (* central scenario *)
  let ah := central n c w L in
  (* prepare transform matrix *)
  p <- p_from_w n w ;;
  let ahy_full := mulmv n p ah in
  let first_comp := ahy_full 0%nat in
  (* compute center and conditional distribution in transformed space *)
  let ahy := cond_mean n c p w L in
  let dyh := cond_cov n c p in
  (* eigenvalues and eigenvectors *)
  ev <- eig la (n - 1) dyh ;;
  let V := sorted_vectors (n - 1) (fst ev) (snd ev) in
  (* compute vertices of the regular M-simplex *)
  t <- standard_simplex_vertices M ;;
  let m := Z.to_nat M in
  (* rotation to principal components space: V[:, :(M - 1)] has
     min(M - 1, n - 1) columns and t has M - 1 rows *)
  if negb (Nat.eqb (Nat.min (m - 1) (n - 1)) (m - 1)) then Raise ValueError
  else
    let z := mulm (m - 1) V t in
    (* compute the sphere radius *)
    let z_last := col z (m - 1) in
    denom <- quadratic_form_inv (n - 1) dyh z_last ;;
    let r := sqrt (-2 * ln q / denom) in
    let rz : mat := fun i j => r * z i j + ahy i in
    (* unite central scenario with sphere scenarios *)
    let df := transformed_scenarios first_comp ahy rz in
    (* rotating back to initial space *)
    let ar := mulm n (transpose p) df in
    lik <- collect (m + 1) (fun j => multivariate_normal_pdf n (col ar j) c) ;;
    Ok (ar, fun j => fdiv (lik j) (lik 0%nat)).

End Notebook.

(** ** Properties of arrays and contracts of the library routines *)

Definition orthonormal_rows (n : nat) (p : mat) : Prop :=
  forall i j, (i < n)%nat -> (j < n)%nat -> dot n (p i) (p j) = eye i j.

Definition orthonormal_cols (n : nat) (p : mat) : Prop :=
  orthonormal_rows n (transpose p).

Definition upper_triangular (n : nat) (r : mat) : Prop :=
  forall i j, (i < n)%nat -> (j < n)%nat -> (j < i)%nat -> r i j = 0.

(** What numpy documents of [q, r = np.linalg.qr(a)] for a square [a]:
    [a = q r], [q] orthogonal, [r] upper triangular.  The signs of the
    columns of [q] are left open. *)
Definition qr_spec (n : nat) (a : mat) (f : mat * mat) : Prop :=
  orthonormal_cols n (fst f) /\
  orthonormal_rows n (fst f) /\
  upper_triangular n (snd f) /\
  forall i j, (i < n)%nat -> (j < n)%nat -> a i j = mulm n (fst f) (snd f) i j.

Definition symmetric (n : nat) (c : mat) : Prop :=
  forall i j, (i < n)%nat -> (j < n)%nat -> c i j = c j i.

Definition nonzero_vec (n : nat) (x : vec) : Prop :=
  exists i, (i < n)%nat /\ x i <> 0.

Definition posdef (n : nat) (c : mat) : Prop :=
  forall x, nonzero_vec n x -> 0 < dot n x (mulmv n c x).

(** [np.linalg.solve(a, .)] returns a solution for every right-hand side *)
Definition solves (la : linalg) (n : nat) (a : mat) : Prop :=
  forall b, exists x, solve la n a b = Ok x /\
                      forall i, (i < n)%nat -> mulmv n a x i = b i.

(** [np.linalg.eig(a)] returns unit eigenvectors that are orthogonal to each
    other, as it does for a symmetric matrix with distinct eigenvalues *)
Definition eig_spec (la : linalg) (n : nat) (a : mat) : Prop :=
  exists vals vect, eig la n a = Ok (vals, vect) /\
    orthonormal_cols n vect /\
    forall k i, (k < n)%nat -> (i < n)%nat ->
                mulmv n a (col vect k) i = vals k * vect i k.

(** the weight vectors [p_from_w] accepts *)
Definition accepted (n : nat) (w : vec) : Prop :=
  exists j, (j < n)%nat /\ Rabs (w j) > 1 / 100000.

Definition nonnegative (n : nat) (w : vec) : Prop :=
  forall j, (j < n)%nat -> 0 <= w j.

(** squared Euclidean distance of two vectors of length [n] *)
Definition dist2 (n : nat) (u v : vec) : R :=
  dot n (fun i => u i - v i) (fun i => u i - v i).

(** Euclidean distance *)
Definition dist (n : nat) (u v : vec) : R := sqrt (dist2 n u v).

(** portfolio loss of scenario [j] of a scenario matrix *)
Definition loss (n : nat) (w : vec) (scen : mat) (j : nat) : R :=
  dot n w (col scen j).

(** the index [j0] that [p_from_w] reads, and the array it hands to
    [np.linalg.qr] *)
Definition first_index (n : nat) (w : vec) : nat :=
  hd 0%nat (nonzero_indices n w).

Definition p_seed (n : nat) (w : vec) : mat :=
  transpose (p_init n w (first_index n w)).

(** the call [np.linalg.qr(a)] of this run meets the contract *)
Definition qr_at (la : linalg) (n : nat) (a : mat) : Prop :=
  qr_spec n a (qr la n a).

(** the row [|w| / norm(w)] *)
Definition abs_normalized (n : nat) (w : vec) : vec :=
  fun j => Rabs (w j) / norm n w.

Definition normalized (n : nat) (w : vec) : vec :=
  fun j => w j / norm n w.

(** [z]: the simplex rotated into the leading eigen-directions *)
Definition directions (n m : nat) (vals : vec) (vect t : mat) : mat :=
  mulm (m - 1) (sorted_vectors (n - 1) vals vect) t.

(** [ar]: the scenarios of a run whose transform is [p], radius [r] and
    directions [z] *)
Definition scenarios_of (n : nat) (c : mat) (w : vec) (L : R) (p : mat)
           (r : R) (z : mat) : mat :=
  let ahy := cond_mean n c p w L in
  mulm n (transpose p)
       (transformed_scenarios (mulmv n p (central n c w L) 0%nat) ahy
                              (fun i j => r * z i j + ahy i)).

(** [np.linalg.solve(a, .)] returns for every right-hand side *)
Definition solve_returns (la : linalg) (n : nat) (a : mat) : Prop :=
  forall b, exists x, solve la n a b = Ok x.

(** the calls of [np.linalg.eig] and [np.linalg.solve] that a run on
    [c] and [w] makes return *)
Definition library_returns (la : linalg) (n : nat) (c : mat) (w : vec)
  : Prop :=
  (forall p, p_from_w la n w = Ok p ->
             (exists ev, eig la (n - 1) (cond_cov n c p) = Ok ev) /\
             solve_returns la (n - 1) (cond_cov n c p)) /\
  solve_returns la n c.

(** whether [np.linalg.solve(a, b)] raises depends on [a] only *)
Definition solve_raises_by_matrix (la : linalg) : Prop :=
  forall n a b b', raises (solve la n a b) -> raises (solve la n a b').

(** the log-densities at which [np.exp] returns a normal float64, neither
    zero, subnormal nor infinite *)
Definition in_exp_range (x : R) : Prop :=
  - 1022 * ln 2 <= x <= 1023 * ln 2.

(** the Schur complement of entry (0, 0): what [cond_cov] computes from [dy] *)
Definition schur_complement (dy : mat) : mat :=
  fun i j => dy (S i) (S j) - dy (S i) 0%nat * dy (S j) 0%nat / dy 0%nat 0%nat.

(** a vector without its first entry, as in [dy[1:, 0]] *)
Definition tail (y : vec) : vec := fun i => y (S i).

(** the library calls of a run on [c], [w] and [M] keep their contracts *)
Definition library_contracts (la : linalg) (n : nat) (c : mat) (w : vec)
           (M : Z) : Prop :=
  qr_at la n (p_seed n w) /\
  qr_at la (Z.to_nat M) (transpose simplex_seed) /\
  (forall p, p_from_w la n w = Ok p ->
             eig_spec la (n - 1) (cond_cov n c p) /\
             solves la (n - 1) (cond_cov n c p)) /\
  solves la n c /\
  0 < det la n c.

(** the eigenvalues in the order of the columns of [V] *)
Definition sorted_values (k : nat) (vals : vec) : vec :=
  fun l => vals (nth l (rev (argsort k vals)) 0%nat).

(** ** The notebook's check of the distances *)

(** [np.round(x, d)]: [np.rint(x * 10**d) / 10**d], [np.rint] rounding to the
    nearest integer and a half to the even one *)
Definition rint (x : R) : Z :=
  let f := Int_part x in
  let d := x - IZR f in
  if Rlt_dec d (1 / 2) then f
  else if Rlt_dec (1 / 2) d then (f + 1)%Z
  else if Z.even f then f else (f + 1)%Z.

Definition np_round (d : nat) (x : R) : R :=
  IZR (rint (x * 10 ^ d)) / 10 ^ d.

(** the cell "Check distances":
    [np.array([np.linalg.norm(df.ix[:, i] - df.ix[:, j])
               for i in range(M) for j in range(i+1, M+1)]).round(3)] *)
Definition check_distances (n : nat) (M : Z) (df : mat) : list R :=
  map (np_round 3)
      (flat_map (fun i => map (fun j => norm n (fun k => df k i - df k j))
                              (seq (i + 1) (Z.to_nat (M + 1) - (i + 1))))
                (seq 0 (Z.to_nat M))).

(** ** Example inputs and example routines *)

Definition vec2 (a b : R) : vec :=
  fun j => match j with
           | O => a
           | S O => b
           | _ => 0
           end.

Definition mat2 (a b c d : R) : mat :=
  fun i j => match i, j with
             | O, O => a
             | O, S O => b
             | S O, O => c
             | S O, S O => d
             | _, _ => 0
             end.

(** [-w] *)
Definition neg (w : vec) : vec := fun j => - w j.

(** weights with a negative component, and weights without *)
Definition w_mixed : vec := vec2 3 (-4).
Definition w_unit : vec := vec2 1 0.

(** a covariance with correlated factors, and a diagonal one *)
Definition c_corr : mat := mat2 2 1 1 2.
Definition c_diag : mat :=
  fun i j => if Nat.eqb i j then (if Nat.eqb i 1 then 4 else 1) else 0.

(** QR of a 2 x 2 array by one Householder reflection, with LAPACK's choice of
    sign; an array whose first column is already reduced is left as it is *)
Definition qr2 (a : mat) : mat * mat :=
  if Req_EM_T (a 1%nat 0%nat) 0 then (eye, a)
  else
    let beta := (if Rle_dec 0 (a 0%nat 0%nat) then -1 else 1)
                * sqrt (a 0%nat 0%nat * a 0%nat 0%nat
                        + a 1%nat 0%nat * a 1%nat 0%nat) in
    let q := mat2 (a 0%nat 0%nat / beta) (a 1%nat 0%nat / beta)
                  (a 1%nat 0%nat / beta) (- a 0%nat 0%nat / beta) in
    (q, mulm 2 (transpose q) a).

(** the orthonormalised seed of the simplex on three points, by columns *)
Definition simplex_q3 : mat :=
  let u2 := / sqrt 2 in
  let u3 := / sqrt 3 in
  fun i j => match i, j with
             | O, O => u3
             | S O, O => u3
             | S (S O), O => u3
             | O, S O => - (u2 * u3)
             | S O, S O => 2 * (u2 * u3)
             | S (S O), S O => - (u2 * u3)
             | O, S (S O) => - u2
             | S O, S (S O) => 0
             | S (S O), S (S O) => u2
             | _, _ => 0
             end.

(** QR of the 3 x 3 arrays of the examples *)
Definition qr3 (a : mat) : mat * mat :=
  if Req_EM_T (a 1%nat 0%nat) 0 then (eye, a)
  else (simplex_q3, mulm 3 (transpose simplex_q3) a).

Definition zero_on_diagonal (n : nat) (a : mat) : bool :=
  existsb (fun i => if Req_EM_T (a i i) 0 then true else false) (seq 0 n).

Definition det2 (a : mat) : R :=
  a 0%nat 0%nat * a 1%nat 1%nat - a 0%nat 1%nat * a 1%nat 0%nat.

(** the routines on the arrays of the examples: exact for 2 x 2 systems and
    for diagonal arrays *)
Definition la_ex : linalg := {|
  qr := fun n a => match n with
                   | 2%nat => qr2 a
                   | _ => qr3 a
                   end;
  eig := fun n a => Ok (fun i => a i i, eye);
  solve := fun n a b =>
    match n with
    | 2%nat =>
        if Req_EM_T (det2 a) 0 then Raise LinAlgError
        else Ok (vec2 ((b 0%nat * a 1%nat 1%nat - a 0%nat 1%nat * b 1%nat)
                       / det2 a)
                      ((a 0%nat 0%nat * b 1%nat - b 0%nat * a 1%nat 0%nat)
                       / det2 a))
    | _ =>
        if zero_on_diagonal n a then Raise LinAlgError
        else Ok (fun i => b i / a i i)
    end;
  det := fun n a => match n with
                    | 2%nat => det2 a
                    | _ => fold_right (fun i acc => a i i * acc) 1 (seq 0 n)
                    end
|}.

(** case analysis on an index below 2 or 3 *)
Ltac below2 i H := destruct i as [|[|i]]; [ | | exfalso; lia].
Ltac below3 i H := destruct i as [|[|[|i]]]; [ | | | exfalso; lia].

(** ** Sums *)

Lemma sumR_ext n f g :
  (forall i, (i < n)%nat -> f i = g i) -> sumR n f = sumR n g.
Proof.
  induction n as [|n IH]; intros H; simpl; [reflexivity|].
  rewrite IH, H by (intros; try apply H; lia). reflexivity.
Qed.

Lemma sumR_zero n f :
  (forall i, (i < n)%nat -> f i = 0) -> sumR n f = 0.
Proof.
  induction n as [|n IH]; intros H; simpl; [reflexivity|].
  rewrite IH, H by (intros; try apply H; lia). lra.
Qed.

Lemma sumR_plus n f g :
  sumR n (fun i => f i + g i) = sumR n f + sumR n g.
Proof. induction n as [|n IH]; simpl; [lra|rewrite IH; lra]. Qed.

Lemma sumR_minus n f g :
  sumR n (fun i => f i - g i) = sumR n f - sumR n g.
Proof. induction n as [|n IH]; simpl; [lra|rewrite IH; lra]. Qed.

Lemma sumR_scal_l n a f :
  sumR n (fun i => a * f i) = a * sumR n f.
Proof. induction n as [|n IH]; simpl; [lra|rewrite IH; lra]. Qed.

Lemma sumR_scal_r n a f :
  sumR n (fun i => f i * a) = sumR n f * a.
Proof. induction n as [|n IH]; simpl; [lra|rewrite IH; lra]. Qed.

Lemma sumR_const n a : sumR n (fun _ => a) = INR n * a.
Proof.
  induction n as [|n IH]; [simpl; lra|].
  rewrite S_INR. simpl sumR. rewrite IH. lra.
Qed.

Lemma sumR_swap n m (f : nat -> nat -> R) :
  sumR n (fun i => sumR m (fun j => f i j)) =
  sumR m (fun j => sumR n (fun i => f i j)).
Proof.
  induction n as [|n IH]; simpl.
  - symmetry. apply sumR_zero. reflexivity.
  - rewrite IH, <- sumR_plus. reflexivity.
Qed.

Lemma sumR_first n f :
  sumR (S n) f = f 0%nat + sumR n (fun i => f (S i)).
Proof.
  induction n as [|n IH]; [simpl; lra|].
  change (sumR (S (S n)) f) with (sumR (S n) f + f (S n)).
  rewrite IH. simpl. lra.
Qed.

Lemma sumR_only_first n f :
  (0 < n)%nat -> (forall k, (0 < k < n)%nat -> f k = 0) ->
  sumR n f = f 0%nat.
Proof.
  intros Hn H. destruct n as [|n]; [lia|]. rewrite sumR_first.
  rewrite sumR_zero; [lra|]. intros i Hi. apply H. lia.
Qed.

Lemma sumR_eye_l n i f :
  (i < n)%nat -> sumR n (fun k => eye i k * f k) = f i.
Proof.
  unfold eye. induction n as [|n IH]; intros Hi; [lia|]. simpl.
  destruct (Nat.eq_dec i n) as [->|Hne].
  - rewrite Nat.eqb_refl. rewrite sumR_zero; [lra|].
    intros k Hk. replace (n =? k)%nat with false; [lra|].
    symmetry. apply Nat.eqb_neq. lia.
  - rewrite IH by lia. replace (i =? n)%nat with false; [lra|].
    symmetry. apply Nat.eqb_neq. exact Hne.
Qed.

Lemma sumR_eye_r n i f :
  (i < n)%nat -> sumR n (fun k => f k * eye k i) = f i.
Proof.
  intros Hi. rewrite <- (sumR_eye_l n i f Hi). apply sumR_ext.
  intros k _. unfold eye. rewrite (Nat.eqb_sym k i). lra.
Qed.

Lemma sumR_nonneg n f :
  (forall i, (i < n)%nat -> 0 <= f i) -> 0 <= sumR n f.
Proof.
  induction n as [|n IH]; intros H; simpl; [lra|].
  assert (0 <= sumR n f) by (apply IH; intros; apply H; lia).
  assert (0 <= f n) by (apply H; lia). lra.
Qed.

Lemma sumR_nonneg_zero n f :
  (forall i, (i < n)%nat -> 0 <= f i) -> sumR n f = 0 ->
  forall i, (i < n)%nat -> f i = 0.
Proof.
  induction n as [|n IH]; intros H Hs i Hi; [lia|]. simpl in Hs.
  assert (0 <= sumR n f) by (apply sumR_nonneg; intros; apply H; lia).
  assert (0 <= f n) by (apply H; lia).
  destruct (Nat.eq_dec i n) as [->|Hne]; [lra|].
  apply IH; try lia; try lra. intros; apply H; lia.
Qed.

(** ** Vectors and matrices *)

Lemma dot_comm n u v : dot n u v = dot n v u.
Proof. unfold dot. apply sumR_ext. intros; lra. Qed.

Lemma dot_ext n u u' v v' :
  (forall i, (i < n)%nat -> u i = u' i) ->
  (forall i, (i < n)%nat -> v i = v' i) ->
  dot n u v = dot n u' v'.
Proof.
  intros Hu Hv. unfold dot. apply sumR_ext. intros i Hi.
  rewrite Hu, Hv by assumption. reflexivity.
Qed.

Lemma dot_scal_l n a u v : dot n (fun i => a * u i) v = a * dot n u v.
Proof.
  unfold dot. rewrite <- sumR_scal_l. apply sumR_ext. intros; lra.
Qed.

Lemma dot_scal_r n a u v : dot n u (fun i => a * v i) = a * dot n u v.
Proof.
  unfold dot. rewrite <- sumR_scal_l. apply sumR_ext. intros; lra.
Qed.

Lemma dot_self_nonneg n u : 0 <= dot n u u.
Proof.
  unfold dot. apply sumR_nonneg. intros i _. nra.
Qed.

Lemma dot_self_zero n u :
  dot n u u = 0 -> forall i, (i < n)%nat -> u i = 0.
Proof.
  intros H i Hi. unfold dot in H.
  pose proof (sumR_nonneg_zero n (fun i => u i * u i)) as Hz. simpl in Hz.
  assert (u i * u i = 0) as Hsq.
  { apply Hz; try assumption. intros; nra. }
  nra.
Qed.

Lemma dot_self_pos n u : nonzero_vec n u -> 0 < dot n u u.
Proof.
  intros [i [Hi Hne]]. pose proof (dot_self_nonneg n u) as H0.
  destruct (Req_dec (dot n u u) 0) as [Hz|Hz]; [|lra].
  exfalso. apply Hne. eapply dot_self_zero; eassumption.
Qed.

(** the adjoint of [a] is its transpose *)
Lemma dot_mulmv_transpose n m (a : mat) (x y : vec) :
  dot n x (mulmv m a y) = dot m (mulmv n (transpose a) x) y.
Proof.
  unfold dot, mulmv, dot, transpose.
  rewrite (sumR_ext n _ (fun i => sumR m (fun j => x i * (a i j * y j)))).
  2:{ intros i _. rewrite <- sumR_scal_l. reflexivity. }
  rewrite sumR_swap. apply sumR_ext. intros j _.
  rewrite <- sumR_scal_r. apply sumR_ext. intros; lra.
Qed.

Lemma mulmv_mulm n m (a b : mat) (x : vec) i :
  mulmv n (mulm m a b) x i = mulmv m a (mulmv n b x) i.
Proof.
  unfold mulmv, mulm, dot.
  rewrite (sumR_ext n _ (fun j => sumR m (fun k => a i k * b k j * x j))).
  2:{ intros j _. rewrite <- sumR_scal_r. reflexivity. }
  rewrite sumR_swap. apply sumR_ext. intros k _.
  rewrite <- sumR_scal_l. apply sumR_ext. intros; lra.
Qed.

Lemma mulmv_ext n a a' x x' i :
  (forall j, (j < n)%nat -> a i j = a' i j) ->
  (forall j, (j < n)%nat -> x j = x' j) ->
  mulmv n a x i = mulmv n a' x' i.
Proof. intros Ha Hx. unfold mulmv. apply dot_ext; assumption. Qed.

Lemma transpose_mulmv_cancel n p x i :
  orthonormal_cols n p -> (i < n)%nat ->
  mulmv n (transpose p) (mulmv n p x) i = x i.
Proof.
  intros Hp Hi. rewrite <- mulmv_mulm.
  unfold mulmv, dot.
  rewrite (sumR_ext n _ (fun j => eye i j * x j)).
  - apply sumR_eye_l; assumption.
  - intros j Hj. f_equal. unfold mulm. specialize (Hp i j Hi Hj).
    unfold dot, transpose in Hp. exact Hp.
Qed.

Lemma mulmv_transpose_cancel n p y i :
  orthonormal_rows n p -> (i < n)%nat ->
  mulmv n p (mulmv n (transpose p) y) i = y i.
Proof.
  intros Hp Hi.
  apply (transpose_mulmv_cancel n (transpose p) y i); assumption.
Qed.

(** ** [p_from_w] *)

Lemma above_eps_true w j : above_eps w j = true <-> Rabs (w j) > 1 / 100000.
Proof.
  unfold above_eps. destruct (Rgt_dec (Rabs (w j)) (1 / 100000)); split;
    intros; try assumption; try reflexivity; try discriminate; contradiction.
Qed.

Lemma nonzero_indices_nil n w :
  nonzero_indices n w = [] <->
  forall j, (j < n)%nat -> ~ Rabs (w j) > 1 / 100000.
Proof.
  unfold nonzero_indices. split.
  - intros H j Hj Habs.
    assert (In j (filter (above_eps w) (seq 0 n))) as Hin.
    { apply filter_In. split; [apply in_seq; lia|].
      apply above_eps_true. exact Habs. }
    rewrite H in Hin. exact Hin.
  - intros H. destruct (filter (above_eps w) (seq 0 n)) as [|j l] eqn:E;
      [reflexivity|]. exfalso.
    assert (In j (filter (above_eps w) (seq 0 n))) as Hin
      by (rewrite E; left; reflexivity).
    apply filter_In in Hin. destruct Hin as [Hin Hj].
    apply in_seq in Hin. apply (H j); [lia|].
    apply above_eps_true. exact Hj.
Qed.

Lemma nonzero_indices_cons n w j0 l :
  nonzero_indices n w = j0 :: l ->
  (j0 < n)%nat /\ Rabs (w j0) > 1 / 100000.
Proof.
  unfold nonzero_indices. intros E.
  assert (In j0 (filter (above_eps w) (seq 0 n))) as Hin
    by (rewrite E; left; reflexivity).
  apply filter_In in Hin. destruct Hin as [Hin Hj].
  apply in_seq in Hin. split; [lia|]. apply above_eps_true. exact Hj.
Qed.

Lemma accepted_nonzero_indices n w :
  accepted n w ->
  exists j0 l, nonzero_indices n w = j0 :: l /\ (0 < n)%nat.
Proof.
  intros [j [Hj Habs]].
  destruct (nonzero_indices n w) as [|j0 l] eqn:E.
  - exfalso. rewrite nonzero_indices_nil in E. exact (E j Hj Habs).
  - exists j0, l. split; [reflexivity|lia].
Qed.

Lemma accepted_nonzero_vec n w : accepted n w -> nonzero_vec n w.
Proof.
  intros [j [Hj Habs]]. exists j. split; [exact Hj|].
  intros H0. rewrite H0, Rabs_R0 in Habs. lra.
Qed.

Lemma norm_pos n w : nonzero_vec n w -> 0 < norm n w.
Proof.
  intros H. unfold norm. apply sqrt_lt_R0. apply dot_self_pos. exact H.
Qed.

Lemma norm_sqr n w : norm n w * norm n w = dot n w w.
Proof. unfold norm. apply sqrt_sqrt. apply dot_self_nonneg. Qed.

(** the two loops of [p_from_w] write below row 0 only *)
Lemma p_init_row0 n w j0 j :
  p_init n w j0 0%nat j = w j / norm n w.
Proof.
  unfold p_init.
  assert (forall (l : list nat) (p : mat),
             fold_left (fun p j => set_entry p (j + 1) j 1) l p 0%nat j
             = p 0%nat j) as H1.
  { induction l as [|k l IH]; intros p; simpl; [reflexivity|].
    rewrite IH. unfold set_entry.
    replace (0 =? k + 1)%nat with false; [reflexivity|].
    symmetry. apply Nat.eqb_neq. lia. }
  assert (forall (l : list nat) (p : mat),
             (forall k, In k l -> (0 < k)%nat) ->
             fold_left (fun p j => set_entry p j j 1) l p 0%nat j
             = p 0%nat j) as H2.
  { induction l as [|k l IH]; intros p Hl; simpl; [reflexivity|].
    rewrite IH by (intros; apply Hl; right; assumption).
    unfold set_entry.
    assert (0 < k)%nat by (apply Hl; left; reflexivity).
    replace (0 =? k)%nat with false; [reflexivity|].
    symmetry. apply Nat.eqb_neq. lia. }
  rewrite H2, H1.
  - unfold set_row. reflexivity.
  - intros k Hk. apply in_seq in Hk. lia.
Qed.

(** the closing loop, entry by entry *)
Lemma canonicalize_fold (l : list nat) : forall (gs : mat) i j,
  NoDup l ->
  fold_left (fun gs j => if Rlt_dec (gs 0%nat j) 0 then negate_col gs j else gs)
            l gs i j =
  if in_dec Nat.eq_dec j l
  then (if Rlt_dec (gs 0%nat j) 0 then - gs i j else gs i j)
  else gs i j.
Proof.
  induction l as [|k l IH]; intros gs i j Hnd; simpl fold_left.
  - destruct (in_dec Nat.eq_dec j []) as [[]|]; reflexivity.
  - inversion Hnd as [|k' l' Hk Hl]; subst.
    rewrite IH by assumption.
    set (gs' := if Rlt_dec (gs 0%nat k) 0 then negate_col gs k else gs).
    assert (forall a, gs' a j =
                      if Nat.eq_dec j k
                      then (if Rlt_dec (gs 0%nat k) 0 then - gs a k else gs a k)
                      else gs a j) as Hgs'.
    { intros a. unfold gs'. destruct (Nat.eq_dec j k) as [->|Hne].
      - destruct (Rlt_dec (gs 0%nat k) 0); [|reflexivity].
        unfold negate_col. rewrite Nat.eqb_refl. reflexivity.
      - destruct (Rlt_dec (gs 0%nat k) 0); [|reflexivity].
        unfold negate_col. replace (j =? k)%nat with false; [reflexivity|].
        symmetry. apply Nat.eqb_neq. exact Hne. }
    rewrite !Hgs'.
    destruct (Nat.eq_dec j k) as [->|Hne].
    + destruct (in_dec Nat.eq_dec k l) as [Hin|_]; [contradiction|].
      destruct (in_dec Nat.eq_dec k (k :: l)) as [_|Hnin];
        [reflexivity|exfalso; apply Hnin; left; reflexivity].
    + destruct (in_dec Nat.eq_dec j l) as [Hin|Hnin];
        destruct (in_dec Nat.eq_dec j (k :: l)) as [Hin'|Hnin'];
        try reflexivity.
      * exfalso. apply Hnin'. right. exact Hin.
      * exfalso. destruct Hin' as [E|Hin']; [apply Hne; symmetry; exact E|].
        apply Hnin. exact Hin'.
Qed.

Lemma canonicalize_entry n gs i j :
  (j < n)%nat ->
  canonicalize n gs i j = if Rlt_dec (gs 0%nat j) 0 then - gs i j else gs i j.
Proof.
  intros Hj. unfold canonicalize.
  rewrite canonicalize_fold by apply seq_NoDup.
  destruct (in_dec Nat.eq_dec j (seq 0 n)) as [_|Hnin]; [reflexivity|].
  exfalso. apply Hnin. apply in_seq. lia.
Qed.

(** every entry of row 0 is its own absolute value after the loop *)
Lemma canonicalize_row0 n gs j :
  (j < n)%nat -> canonicalize n gs 0%nat j = Rabs (gs 0%nat j).
Proof.
  intros Hj. rewrite canonicalize_entry by assumption.
  destruct (Rlt_dec (gs 0%nat j) 0) as [Hlt|Hge].
  - rewrite Rabs_left by assumption. reflexivity.
  - rewrite Rabs_right by lra. reflexivity.
Qed.

(** the loop multiplies column j by a sign that depends on j only *)
Lemma canonicalize_sign n gs :
  exists sg : nat -> R,
    (forall j, sg j * sg j = 1) /\
    forall i j, (j < n)%nat -> canonicalize n gs i j = sg j * gs i j.
Proof.
  exists (fun j => if Rlt_dec (gs 0%nat j) 0 then -1 else 1). split.
  - intros j. destruct (Rlt_dec (gs 0%nat j) 0); lra.
  - intros i j Hj. rewrite canonicalize_entry by assumption.
    destruct (Rlt_dec (gs 0%nat j) 0); lra.
Qed.

Lemma canonicalize_orthonormal_rows n gs :
  orthonormal_rows n gs -> orthonormal_rows n (canonicalize n gs).
Proof.
  intros H i j Hi Hj. rewrite <- (H i j Hi Hj).
  destruct (canonicalize_sign n gs) as [sg [Hsg Hc]].
  unfold dot. apply sumR_ext. intros k Hk.
  rewrite !Hc by assumption.
  replace (sg k * gs i k * (sg k * gs j k))
    with ((sg k * sg k) * (gs i k * gs j k)) by lra.
  rewrite Hsg. lra.
Qed.

Lemma canonicalize_orthonormal_cols n gs :
  orthonormal_cols n gs -> orthonormal_cols n (canonicalize n gs).
Proof.
  intros H i j Hi Hj.
  destruct (canonicalize_sign n gs) as [sg [Hsg Hc]].
  unfold dot, transpose.
  rewrite (sumR_ext n _ (fun k => (sg i * sg j) * (gs k i * gs k j))).
  2:{ intros k Hk. rewrite !Hc by assumption. lra. }
  rewrite sumR_scal_l.
  specialize (H i j Hi Hj). unfold dot, transpose in H. rewrite H.
  unfold eye. destruct (Nat.eqb_spec i j) as [->|Hne]; [|lra].
  rewrite Hsg. lra.
Qed.

(** ** What the contract of [np.linalg.qr] gives [gram_schmidt_rows] *)

Lemma qr_r_entry n a f :
  qr_spec n a f -> forall i j, (i < n)%nat -> (j < n)%nat ->
  sumR n (fun k => fst f k i * a k j) = snd f i j.
Proof.
  intros [Hc [_ [_ Ha]]] i j Hi Hj.
  rewrite (sumR_ext n _
            (fun k => sumR n (fun l => fst f k i * fst f k l * snd f l j))).
  2:{ intros k Hk. rewrite Ha by assumption. unfold mulm.
      rewrite <- sumR_scal_l. apply sumR_ext. intros; lra. }
  rewrite sumR_swap.
  rewrite (sumR_ext n _ (fun l => eye i l * snd f l j)).
  - apply (sumR_eye_l n i (fun l => snd f l j)). exact Hi.
  - intros l Hl. rewrite sumR_scal_r. f_equal.
    specialize (Hc i l Hi Hl). unfold dot, transpose in Hc. exact Hc.
Qed.

Lemma gram_schmidt_rows_spec la n x :
  qr_at la n (transpose x) -> (0 < n)%nat ->
  let gs := gram_schmidt_rows la n x in
  orthonormal_rows n gs /\ orthonormal_cols n gs /\
  (forall i, (0 < i < n)%nat -> dot n (gs i) (x 0%nat) = 0) /\
  (forall j, (j < n)%nat -> x 0%nat j = dot n (gs 0%nat) (x 0%nat) * gs 0%nat j).
Proof.
  unfold qr_at, gram_schmidt_rows. intros Hqr Hn.
  destruct (qr la n (transpose x)) as [q r] eqn:E.
  pose proof (qr_r_entry n _ _ Hqr) as Hr.
  destruct Hqr as [Hc [Hr' [Hu Ha]]]. simpl in *.
  split; [exact Hc|]. split; [exact Hr'|]. split.
  - intros i Hi. unfold dot.
    rewrite <- (Hu i 0%nat) by lia.
    rewrite <- (Hr i 0%nat) by lia. reflexivity.
  - intros j Hj. specialize (Ha j 0%nat Hj Hn).
    unfold transpose in Ha at 1. rewrite Ha. unfold mulm.
    rewrite (sumR_only_first n) by (try lia; intros k Hk; rewrite Hu by lia; lra).
    unfold dot. rewrite <- (Hr 0%nat 0%nat) by lia.
    unfold transpose. lra.
Qed.

(** ** The transform matrix returned by [p_from_w] *)

Lemma p_from_w_accepted la n w :
  accepted n w ->
  p_from_w la n w =
  Ok (canonicalize n (gram_schmidt_rows la n (p_init n w (first_index n w)))).
Proof.
  intros Hacc. destruct (accepted_nonzero_indices n w Hacc) as [j0 [l [E Hn]]].
  unfold p_from_w, first_index. rewrite E.
  replace (n =? 0)%nat with false; [reflexivity|].
  symmetry. apply Nat.eqb_neq. lia.
Qed.

Lemma p_from_w_rejected la n w :
  ~ accepted n w -> p_from_w la n w = Raise IndexError.
Proof.
  intros Hrej. unfold p_from_w. destruct (n =? 0)%nat; [reflexivity|].
  destruct (nonzero_indices n w) as [|j0 l] eqn:E; [reflexivity|].
  exfalso. apply Hrej. exists j0. eapply nonzero_indices_cons. exact E.
Qed.

Lemma normalized_unit n w :
  nonzero_vec n w -> dot n (normalized n w) (normalized n w) = 1.
Proof.
  intros Hw. pose proof (norm_pos n w Hw) as Hpos.
  pose proof (norm_sqr n w) as Hsq. unfold normalized, dot.
  rewrite (sumR_ext n _ (fun i => (w i * w i) * (/ norm n w * / norm n w))).
  2:{ intros i _. unfold Rdiv. lra. }
  rewrite sumR_scal_r. fold (dot n w w). rewrite <- Hsq. field. lra.
Qed.

(** the first row that [np.linalg.qr] returns is the first row of the seed,
    up to one sign *)
Lemma gram_schmidt_first_row la n w :
  accepted n w -> qr_at la n (p_seed n w) ->
  let gs := gram_schmidt_rows la n (p_init n w (first_index n w)) in
  exists s, (s = 1 \/ s = -1) /\
            forall j, (j < n)%nat -> gs 0%nat j = s * (w j / norm n w).
Proof.
  intros Hacc Hqr gs.
  destruct (accepted_nonzero_indices n w Hacc) as [_ [_ [_ Hn]]].
  pose proof (accepted_nonzero_vec n w Hacc) as Hw.
  destruct (gram_schmidt_rows_spec la n _ Hqr Hn) as [Hrows [_ [_ Hfirst]]].
  fold gs in Hrows, Hfirst.
  set (r00 := dot n (gs 0%nat) (p_init n w (first_index n w) 0%nat)) in *.
  assert (r00 * r00 = 1) as Hr.
  { rewrite <- (normalized_unit n w Hw).
    transitivity (r00 * r00 * dot n (gs 0%nat) (gs 0%nat)).
    - rewrite (Hrows 0%nat 0%nat Hn Hn). unfold eye. simpl. lra.
    - unfold dot. rewrite <- sumR_scal_l. apply sumR_ext. intros j Hj.
      unfold normalized. rewrite <- (p_init_row0 n w (first_index n w) j).
      rewrite (Hfirst j Hj). lra. }
  exists r00. split.
  - assert ((r00 - 1) * (r00 + 1) = 0) as H0 by lra.
    apply Rmult_integral in H0. destruct H0; [left|right]; lra.
  - intros j Hj. rewrite <- (p_init_row0 n w (first_index n w) j).
    rewrite (Hfirst j Hj).
    transitivity ((r00 * r00) * gs 0%nat j); [rewrite Hr; lra|lra].
Qed.

(** What [p_from_w] returns when [np.linalg.qr] keeps its contract: an
    orthogonal matrix whose first row is [|w| / norm(w)]. *)
Lemma p_from_w_spec la n w :
  accepted n w -> qr_at la n (p_seed n w) ->
  exists p, p_from_w la n w = Ok p /\
            orthonormal_rows n p /\ orthonormal_cols n p /\
            forall j, (j < n)%nat -> p 0%nat j = abs_normalized n w j.
Proof.
  intros Hacc Hqr. rewrite (p_from_w_accepted la n w Hacc).
  eexists. split; [reflexivity|].
  destruct (accepted_nonzero_indices n w Hacc) as [_ [_ [_ Hn]]].
  pose proof (norm_pos n w (accepted_nonzero_vec n w Hacc)) as Hpos.
  destruct (gram_schmidt_rows_spec la n _ Hqr Hn) as [Hrows [Hcols _]].
  split; [apply canonicalize_orthonormal_rows; exact Hrows|].
  split; [apply canonicalize_orthonormal_cols; exact Hcols|].
  intros j Hj. rewrite canonicalize_row0 by assumption.
  destruct (gram_schmidt_first_row la n w Hacc Hqr) as [s [Hs Hrow]].
  rewrite (Hrow j Hj). unfold abs_normalized.
  rewrite Rabs_mult. unfold Rdiv. rewrite Rabs_mult.
  rewrite (Rabs_right (/ norm n w)).
  2:{ apply Rle_ge. left. apply Rinv_0_lt_compat. exact Hpos. }
  destruct Hs as [-> | ->].
  - rewrite Rabs_R1. lra.
  - replace (Rabs (-1)) with 1; [lra|].
    rewrite Rabs_left; lra.
Qed.

Lemma abs_normalized_of_nonnegative n w j :
  nonnegative n w -> (j < n)%nat -> abs_normalized n w j = normalized n w j.
Proof.
  intros Hw Hj. unfold abs_normalized, normalized.
  rewrite Rabs_right; [reflexivity|]. apply Rle_ge. apply Hw. exact Hj.
Qed.

(** ** The simplex of [standard_simplex_vertices] *)

Lemma cls_lt m j : (0 < m)%nat -> (cls m j < m)%nat.
Proof.
  intros Hm. unfold cls. destruct (Nat.ltb_spec j (m - 1)); lia.
Qed.

Lemma cls_inj m j k :
  (j < m)%nat -> (k < m)%nat -> cls m j = cls m k -> j = k.
Proof.
  unfold cls. intros Hj Hk.
  destruct (Nat.ltb_spec j (m - 1)); destruct (Nat.ltb_spec k (m - 1)); lia.
Qed.

(** summing over the reordered columns is summing over the columns *)
Lemma sumR_cls m f :
  (0 < m)%nat -> sumR m (fun j => f (cls m j)) = sumR m f.
Proof.
  intros Hm. destruct m as [|m]; [lia|].
  rewrite (sumR_first m f). simpl sumR at 1.
  unfold cls at 2. replace (S m - 1)%nat with m by lia.
  rewrite Nat.ltb_irrefl.
  rewrite (sumR_ext m _ (fun i => f (S i))); [lra|].
  intros i Hi. unfold cls. replace (S m - 1)%nat with m by lia.
  destruct (Nat.ltb_spec i m); [|lia]. f_equal. lia.
Qed.

Lemma standard_simplex_vertices_ok la M :
  (2 <= M)%Z ->
  let m := Z.to_nat M in
  let p := gram_schmidt_rows la m simplex_seed in
  let z : mat := fun i j => eye i j - 1 / IZR M in
  exists s t, (s = 1 \/ s = -1) /\
    standard_simplex_vertices la M = Ok t /\
    forall i j,
      t i j = s * mulm m p z (S i) (cls m j) * sqrt (IZR M / IZR (M - 1)).
Proof.
  intros HM m p z. unfold standard_simplex_vertices.
  destruct (Z.ltb_spec M 0) as [|_]; [lia|].
  destruct (Z.eqb_spec M 0) as [|_]; [lia|].
  destruct (Z.eqb_spec M 1) as [|_]; [lia|].
  fold m. fold p. fold z.
  destruct (Rlt_dec (mulm m p z 1%nat (cls m 0)) 0) as [Hlt|Hge].
  - exists (-1). eexists. split; [right; reflexivity|].
    split; [reflexivity|]. intros i j. simpl. lra.
  - exists 1. eexists. split; [left; reflexivity|].
    split; [reflexivity|]. intros i j. simpl. lra.
Qed.

Lemma IZR_to_nat M : (0 <= M)%Z -> INR (Z.to_nat M) = IZR M.
Proof.
  intros HM. rewrite INR_IZR_INZ. rewrite Z2Nat.id by assumption. reflexivity.
Qed.

(** the rows of the orthonormalised seed: row 0 is constant, the others
    sum to zero and are not moved by the centring matrix [z] *)
Lemma simplex_rows la m :
  (0 < m)%nat -> qr_at la m (transpose simplex_seed) ->
  let p := gram_schmidt_rows la m simplex_seed in
  orthonormal_rows m p /\ orthonormal_cols m p /\
  (forall i, (0 < i < m)%nat -> sumR m (p i) = 0) /\
  (forall j k, (j < m)%nat -> (k < m)%nat ->
               p 0%nat j * p 0%nat k = 1 / INR m).
Proof.
  intros Hm Hqr p.
  destruct (gram_schmidt_rows_spec la m _ Hqr Hm) as [Hrows [Hcols [Hz Hf]]].
  fold p in Hrows, Hcols, Hz, Hf.
  assert (forall j, simplex_seed 0%nat j = 1) as Hseed by reflexivity.
  split; [exact Hrows|]. split; [exact Hcols|]. split.
  - intros i Hi. rewrite <- (Hz i Hi). unfold dot. apply sumR_ext.
    intros j _. rewrite Hseed. lra.
  - set (r00 := dot m (p 0%nat) (simplex_seed 0%nat)) in *.
    assert (r00 * r00 = INR m) as Hr.
    { transitivity (r00 * r00 * dot m (p 0%nat) (p 0%nat)).
      - rewrite (Hrows 0%nat 0%nat Hm Hm). unfold eye. simpl. lra.
      - unfold dot. rewrite <- sumR_scal_l.
        rewrite <- (Rmult_1_r (INR m)). rewrite <- sumR_const.
        apply sumR_ext. intros j Hj.
        pose proof (Hf j Hj) as E. rewrite Hseed in E.
        transitivity ((r00 * p 0%nat j) * (r00 * p 0%nat j)); [lra|].
        rewrite <- E. lra. }
    assert (0 < INR m) as Hpos by (apply lt_0_INR; exact Hm).
    assert (r00 <> 0) as Hne by (intros E; rewrite E in Hr; lra).
    intros j k Hj Hk.
    pose proof (Hf j Hj) as Ej. pose proof (Hf k Hk) as Ek.
    rewrite Hseed in Ej, Ek.
    rewrite <- Hr. apply (Rmult_eq_reg_l (r00 * r00)).
    + transitivity ((r00 * p 0%nat j) * (r00 * p 0%nat k)); [lra|].
      rewrite <- Ej, <- Ek. field. exact Hne.
    + apply Rmult_integral_contrapositive. split; exact Hne.
Qed.

Lemma simplex_centred la m i k :
  (0 < m)%nat -> qr_at la m (transpose simplex_seed) ->
  (0 < i < m)%nat -> (k < m)%nat ->
  mulm m (gram_schmidt_rows la m simplex_seed)
         (fun i j => eye i j - 1 / INR m) i k
  = gram_schmidt_rows la m simplex_seed i k.
Proof.
  intros Hm Hqr Hi Hk.
  destruct (simplex_rows la m Hm Hqr) as [_ [_ [Hz _]]].
  unfold mulm.
  rewrite (sumR_ext m _
    (fun l => gram_schmidt_rows la m simplex_seed i l * eye l k
              - gram_schmidt_rows la m simplex_seed i l * (1 / INR m))).
  2:{ intros; lra. }
  rewrite sumR_minus, sumR_scal_r.
  rewrite (sumR_eye_r m k (gram_schmidt_rows la m simplex_seed i)) by exact Hk.
  rewrite (Hz i Hi). lra.
Qed.

(** the Gram matrix of the rows below the first, read by columns *)
Lemma simplex_gram la m j k :
  (0 < m)%nat -> qr_at la m (transpose simplex_seed) ->
  (j < m)%nat -> (k < m)%nat ->
  let p := gram_schmidt_rows la m simplex_seed in
  sumR (m - 1) (fun i => p (S i) j * p (S i) k) = eye j k - 1 / INR m.
Proof.
  intros Hm Hqr Hj Hk p.
  destruct (simplex_rows la m Hm Hqr) as [_ [Hcols [_ H0]]].
  fold p in Hcols, H0.
  specialize (Hcols j k Hj Hk). unfold dot, transpose in Hcols.
  replace m with (S (m - 1)) in Hcols at 1 by lia.
  rewrite sumR_first in Hcols. rewrite (H0 j k Hj Hk) in Hcols. lra.
Qed.

Lemma dist2_expand n u v :
  dist2 n u v = dot n u u - 2 * dot n u v + dot n v v.
Proof.
  unfold dist2, dot.
  rewrite <- sumR_scal_l, <- sumR_minus, <- sumR_plus.
  apply sumR_ext. intros; lra.
Qed.

Lemma eye_cls m j k :
  (j < m)%nat -> (k < m)%nat -> eye (cls m j) (cls m k) = eye j k.
Proof.
  intros Hj Hk. unfold eye.
  destruct (Nat.eqb_spec j k) as [->|Hne]; [rewrite Nat.eqb_refl; reflexivity|].
  destruct (Nat.eqb_spec (cls m j) (cls m k)) as [E|_]; [|reflexivity].
  exfalso. apply Hne. eapply cls_inj; eassumption.
Qed.

(** the vertices, entry by entry, when [np.linalg.qr] keeps its contract *)
Lemma simplex_entries la M :
  (2 <= M)%Z -> qr_at la (Z.to_nat M) (transpose simplex_seed) ->
  let m := Z.to_nat M in
  let p := gram_schmidt_rows la m simplex_seed in
  exists s t, (s = 1 \/ s = -1) /\
    standard_simplex_vertices la M = Ok t /\
    forall i j, (i < m - 1)%nat -> (j < m)%nat ->
      t i j = s * p (S i) (cls m j) * sqrt (IZR M / IZR (M - 1)).
Proof.
  intros HM Hqr m p.
  destruct (standard_simplex_vertices_ok la M HM) as [s [t [Hs [Ht He]]]].
  exists s, t. split; [exact Hs|]. split; [exact Ht|].
  intros i j Hi Hj. rewrite He.
  assert (0 < m)%nat as Hm by (unfold m; lia).
  do 2 f_equal.
  pose proof (simplex_centred la m (S i) (cls m j) Hm Hqr) as Hc.
  unfold m in Hc. rewrite (IZR_to_nat M) in Hc by lia.
  apply Hc; [unfold m in Hi; lia|apply cls_lt; exact Hm].
Qed.

(** the Gram matrix of the vertices *)
Lemma simplex_dot la M t j k :
  (2 <= M)%Z -> qr_at la (Z.to_nat M) (transpose simplex_seed) ->
  standard_simplex_vertices la M = Ok t ->
  let m := Z.to_nat M in
  (j < m)%nat -> (k < m)%nat ->
  dot (m - 1) (col t j) (col t k) =
  IZR M / (IZR M - 1) * (eye j k - 1 / IZR M).
Proof.
  intros HM Hqr Ht m Hj Hk.
  destruct (simplex_entries la M HM Hqr) as [s [t' [Hs [Ht' He]]]].
  rewrite Ht in Ht'. injection Ht' as <-. fold m in He.
  assert (0 < m)%nat as Hm by (unfold m; lia).
  assert (2 <= IZR M) as HMr by (apply IZR_le in HM; exact HM).
  cbv zeta in He.
  set (sc := sqrt (IZR M / IZR (M - 1))) in *.
  assert (sc * sc = IZR M / (IZR M - 1)) as Hsc.
  { unfold sc. rewrite sqrt_sqrt; [rewrite minus_IZR; reflexivity|].
    rewrite minus_IZR. apply Rmult_le_pos; [lra|].
    left. apply Rinv_0_lt_compat. lra. }
  unfold dot, col.
  rewrite (sumR_ext (m - 1) _
    (fun i => (s * s * (sc * sc)) * (gram_schmidt_rows la m simplex_seed (S i) (cls m j) *
               gram_schmidt_rows la m simplex_seed (S i) (cls m k)))).
  2:{ intros i Hi. rewrite !He by assumption. lra. }
  rewrite sumR_scal_l.
  pose proof (simplex_gram la m (cls m j) (cls m k) Hm Hqr
                (cls_lt m j Hm) (cls_lt m k Hm)) as Hg.
  cbv zeta in Hg. rewrite Hg.
  rewrite eye_cls by assumption. rewrite Hsc.
  unfold m. rewrite (IZR_to_nat M) by lia.
  assert (s * s = 1) as -> by (destruct Hs as [-> | ->]; lra). lra.
Qed.

Lemma simplex_unit la M t j :
  (2 <= M)%Z -> qr_at la (Z.to_nat M) (transpose simplex_seed) ->
  standard_simplex_vertices la M = Ok t ->
  (j < Z.to_nat M)%nat ->
  dot (Z.to_nat M - 1) (col t j) (col t j) = 1.
Proof.
  intros HM Hqr Ht Hj. rewrite (simplex_dot la M t j j HM Hqr Ht Hj Hj).
  assert (2 <= IZR M) as HMr by (apply IZR_le in HM; exact HM).
  unfold eye. rewrite Nat.eqb_refl. field. lra.
Qed.

Lemma simplex_dist2 la M t j k :
  (2 <= M)%Z -> qr_at la (Z.to_nat M) (transpose simplex_seed) ->
  standard_simplex_vertices la M = Ok t ->
  (j < Z.to_nat M)%nat -> (k < Z.to_nat M)%nat -> j <> k ->
  dist2 (Z.to_nat M - 1) (col t j) (col t k) = 2 * IZR M / (IZR M - 1).
Proof.
  intros HM Hqr Ht Hj Hk Hne. rewrite dist2_expand.
  rewrite (simplex_unit la M t j HM Hqr Ht Hj).
  rewrite (simplex_unit la M t k HM Hqr Ht Hk).
  rewrite (simplex_dot la M t j k HM Hqr Ht Hj Hk).
  assert (2 <= IZR M) as HMr by (apply IZR_le in HM; exact HM).
  unfold eye. destruct (Nat.eqb_spec j k) as [E|_]; [contradiction|].
  field. lra.
Qed.

Lemma simplex_row_sum la M t i :
  (2 <= M)%Z -> qr_at la (Z.to_nat M) (transpose simplex_seed) ->
  standard_simplex_vertices la M = Ok t ->
  (i < Z.to_nat M - 1)%nat ->
  sumR (Z.to_nat M) (fun j => t i j) = 0.
Proof.
  intros HM Hqr Ht Hi.
  destruct (simplex_entries la M HM Hqr) as [s [t' [Hs [Ht' He]]]].
  rewrite Ht in Ht'. injection Ht' as <-.
  set (m := Z.to_nat M) in *.
  assert (0 < m)%nat as Hm by (unfold m; lia).
  cbv zeta in He.
  rewrite (sumR_ext m _
    (fun j => (s * sqrt (IZR M / IZR (M - 1))) * gram_schmidt_rows la m simplex_seed (S i) (cls m j))).
  2:{ intros j Hj. rewrite He by assumption. lra. }
  rewrite sumR_scal_l.
  rewrite (sumR_cls m (gram_schmidt_rows la m simplex_seed (S i)) Hm).
  destruct (simplex_rows la m Hm Hqr) as [_ [_ [Hz _]]].
  rewrite Hz by lia. lra.
Qed.

(** ** Runs of [comp_scenarios] *)

Lemma collect_ok k f :
  (forall j, (j < k)%nat -> exists v, f j = Ok v) ->
  exists g, collect k f = Ok g /\ forall j, (j < k)%nat -> f j = Ok (g j).
Proof.
  induction k as [|k IH]; intros H; simpl.
  - eexists. split; [reflexivity|]. intros; lia.
  - destruct IH as [g [Hg Hgj]]; [intros; apply H; lia|].
    destruct (H k) as [v Hv]; [lia|]. rewrite Hg, Hv. simpl.
    eexists. split; [reflexivity|]. intros j Hj. simpl.
    destruct (Nat.eqb_spec j k) as [->|Hne]; [exact Hv|].
    apply Hgj. lia.
Qed.

Lemma collect_inv k f g :
  collect k f = Ok g -> forall j, (j < k)%nat -> f j = Ok (g j).
Proof.
  revert g. induction k as [|k IH]; intros g H j Hj; [lia|].
  simpl in H. destruct (collect k f) as [g'|e] eqn:E; [|discriminate].
  simpl in H. destruct (f k) as [v|e] eqn:Ev; [|discriminate].
  simpl in H. injection H as <-.
  destruct (Nat.eqb_spec j k) as [->|Hne]; [exact Ev|].
  apply (IH g' eq_refl). lia.
Qed.

(** a run that returns went through every stage *)
Lemma comp_scenarios_inv la n c w L q M scen lik :
  comp_scenarios la n c w L q M = Ok (scen, lik) ->
  exists p vals vect t denom pdfs,
    p_from_w la n w = Ok p /\
    eig la (n - 1) (cond_cov n c p) = Ok (vals, vect) /\
    standard_simplex_vertices la M = Ok t /\
    (Z.to_nat M - 1 <= n - 1)%nat /\
    quadratic_form_inv la (n - 1) (cond_cov n c p)
      (col (directions n (Z.to_nat M) vals vect t) (Z.to_nat M - 1))
    = Ok denom /\
    scen = scenarios_of n c w L p (sqrt (-2 * ln q / denom))
                        (directions n (Z.to_nat M) vals vect t) /\
    collect (Z.to_nat M + 1)
            (fun j => multivariate_normal_pdf la n (col scen j) c) = Ok pdfs /\
    lik = (fun j => fdiv (pdfs j) (pdfs 0%nat)).
Proof.
  unfold comp_scenarios. intros H.
  destruct (p_from_w la n w) as [p|e] eqn:Ep; [|discriminate]. simpl in H.
  destruct (eig la (n - 1) (cond_cov n c p)) as [[vals vect]|e] eqn:Ee;
    [|discriminate]. simpl in H.
  destruct (standard_simplex_vertices la M) as [t|e] eqn:Et; [|discriminate].
  simpl in H.
  destruct (Nat.eqb_spec (Nat.min (Z.to_nat M - 1) (n - 1)) (Z.to_nat M - 1))
    as [Hmin|Hmin]; [|discriminate]. simpl in H.
  match type of H with
  | bind ?qf _ = _ => destruct qf as [denom|e] eqn:Eq; [|discriminate]
  end. simpl in H.
  match type of H with
  | bind ?cl _ = _ => destruct cl as [pdfs|e] eqn:Ec; [|discriminate]
  end. simpl in H. injection H as <- <-.
  exists p, vals, vect, t, denom, pdfs.
  repeat split; try reflexivity; try assumption. lia.
Qed.

(** a run whose library calls return, returns: no other stage looks at
    [L] or [q] *)
Lemma comp_scenarios_returns la n c w L q M :
  accepted n w -> (2 <= M)%Z -> (Z.to_nat M <= n)%nat ->
  library_returns la n c w ->
  exists scen lik, comp_scenarios la n c w L q M = Ok (scen, lik).
Proof.
  intros Hacc HM Hn [Hlib Hsolve]. unfold comp_scenarios.
  pose proof (p_from_w_accepted la n w Hacc) as Hp.
  destruct (Hlib _ Hp) as [[ev Heig] Hsolveh].
  rewrite Hp. simpl bind. rewrite Heig. simpl bind.
  destruct (standard_simplex_vertices_ok la M HM) as [s [t [_ [-> _]]]].
  simpl bind.
  replace (Nat.min (Z.to_nat M - 1) (n - 1) =? Z.to_nat M - 1)%nat with true
    by (symmetry; apply Nat.eqb_eq; lia).
  simpl negb. cbv iota.
  unfold quadratic_form_inv.
  match goal with
  | |- context [solve la (n - 1) ?a ?b] =>
      destruct (Hsolveh b) as [x ->]
  end. simpl bind.
  match goal with
  | |- context [collect ?k ?f] =>
      destruct (collect_ok k f) as [g [-> _]]
  end.
  - intros j _. unfold multivariate_normal_pdf.
    match goal with
    | |- context [solve la n c ?b] =>
        destruct (Hsolve b) as [y ->]
    end. simpl. eexists. reflexivity.
  - simpl. eexists. eexists. reflexivity.
Qed.

(** ** The scenarios in the transformed space *)

(** rotating a scenario forward gives back its transformed column *)
Lemma scenarios_transform n c w L p r z i j :
  orthonormal_rows n p -> (i < n)%nat ->
  mulmv n p (col (scenarios_of n c w L p r z) j) i =
  transformed_scenarios (mulmv n p (central n c w L) 0%nat)
    (cond_mean n c p w L)
    (fun i j => r * z i j + cond_mean n c p w L i) i j.
Proof.
  intros Hp Hi. unfold scenarios_of.
  set (df := transformed_scenarios _ _ _).
  change (col (mulm n (transpose p) df) j)
    with (mulmv n (transpose p) (col df j)).
  rewrite (mulmv_transpose_cancel n p (col df j) i Hp Hi). reflexivity.
Qed.

(** every scenario has the first transformed coordinate of [ah] *)
Lemma scenarios_first_coordinate n c w L p r z j :
  orthonormal_rows n p -> (0 < n)%nat ->
  dot n (p 0%nat) (col (scenarios_of n c w L p r z) j) =
  dot n (p 0%nat) (central n c w L).
Proof.
  intros Hp Hn.
  exact (scenarios_transform n c w L p r z 0%nat j Hp Hn).
Qed.

Lemma central_loss n c w L :
  dot n w (mulmv n c w) <> 0 -> dot n w (central n c w L) = L.
Proof.
  intros Hq. unfold central.
  rewrite (dot_ext n w w _ (fun i => (L / dot n w (mulmv n c w)) * mulmv n c w i))
    by (intros; try reflexivity; unfold Rdiv; lra).
  rewrite dot_scal_r. field. exact Hq.
Qed.

Lemma posdef_weights n c w :
  posdef n c -> accepted n w -> 0 < dot n w (mulmv n c w).
Proof.
  intros Hc Hw. apply Hc. apply accepted_nonzero_vec. exact Hw.
Qed.

(** when row 0 of [p] is [w / norm(w)], a scenario's loss is the norm times
    its first transformed coordinate *)
Lemma loss_first_coordinate n w p x :
  nonzero_vec n w ->
  (forall j, (j < n)%nat -> p 0%nat j = normalized n w j) ->
  dot n w x = norm n w * dot n (p 0%nat) x.
Proof.
  intros Hw H0. pose proof (norm_pos n w Hw) as Hpos.
  rewrite (dot_ext n (p 0%nat) (fun j => / norm n w * w j) x x).
  - rewrite dot_scal_l. field. lra.
  - intros j Hj. rewrite (H0 j Hj). unfold normalized, Rdiv. lra.
  - reflexivity.
Qed.

Lemma transformed_cov_col0 n c w p i :
  (forall j, (j < n)%nat -> p 0%nat j = normalized n w j) ->
  transformed_cov n c p i 0%nat =
  mulmv n p (mulmv n c w) i / norm n w.
Proof.
  intros H0. unfold transformed_cov, mulm, mulmv, dot, Rdiv.
  rewrite <- sumR_scal_r. apply sumR_ext. intros k Hk.
  rewrite Rmult_assoc. f_equal.
  rewrite <- sumR_scal_r. apply sumR_ext. intros l Hl.
  unfold transpose. rewrite (H0 l Hl). unfold normalized, Rdiv. lra.
Qed.

(** then the centre [ahy] of the conditional distribution is the
    transformed central scenario without its first coordinate *)
Lemma cond_mean_central n c w L p i :
  nonzero_vec n w -> dot n w (mulmv n c w) <> 0 ->
  (forall j, (j < n)%nat -> p 0%nat j = normalized n w j) ->
  cond_mean n c p w L i = mulmv n p (central n c w L) (S i).
Proof.
  intros Hw Hq H0. pose proof (norm_pos n w Hw) as Hpos.
  unfold cond_mean. rewrite !(transformed_cov_col0 n c w p) by exact H0.
  assert (mulmv n p (mulmv n c w) 0%nat = dot n w (mulmv n c w) / norm n w)
    as Hd.
  { unfold mulmv at 1.
    rewrite (loss_first_coordinate n w p _ Hw H0). field. lra. }
  rewrite Hd.
  assert (mulmv n p (central n c w L) (S i) =
          L / dot n w (mulmv n c w) * mulmv n p (mulmv n c w) (S i)) as ->.
  { unfold mulmv at 1. unfold central.
    rewrite (dot_ext n (p (S i)) (p (S i)) _
               (fun k => (L / dot n w (mulmv n c w)) * mulmv n c w k))
      by (intros; try reflexivity; unfold Rdiv; lra).
    rewrite dot_scal_r. reflexivity. }
  field. split; [exact Hq|lra].
Qed.

(** ... and column 0 of the result is [ah] itself *)
Lemma scenarios_central_column n c w L p r z i :
  nonzero_vec n w -> dot n w (mulmv n c w) <> 0 ->
  orthonormal_cols n p ->
  (forall j, (j < n)%nat -> p 0%nat j = normalized n w j) ->
  (i < n)%nat ->
  scenarios_of n c w L p r z i 0%nat = central n c w L i.
Proof.
  intros Hw Hq Hp H0 Hi.
  rewrite <- (transpose_mulmv_cancel n p (central n c w L) i Hp Hi).
  unfold scenarios_of.
  change (mulm n (transpose p) ?df i 0%nat)
    with (mulmv n (transpose p) (col df 0%nat) i).
  apply mulmv_ext; [reflexivity|]. intros k Hk.
  unfold col, transformed_scenarios. destruct k as [|k]; [reflexivity|].
  apply cond_mean_central; assumption.
Qed.

(** ** The covariance in the transformed space *)

Lemma transformed_cov_entry n c p i j :
  transformed_cov n c p i j = dot n (p i) (mulmv n c (p j)).
Proof. reflexivity. Qed.

Lemma symmetric_form n c x y :
  symmetric n c -> dot n x (mulmv n c y) = dot n y (mulmv n c x).
Proof.
  intros Hc. rewrite dot_mulmv_transpose. rewrite dot_comm.
  apply dot_ext; [reflexivity|]. intros i Hi.
  apply mulmv_ext; [|reflexivity]. intros j Hj. unfold transpose.
  symmetry. apply Hc; assumption.
Qed.

Lemma transformed_cov_symmetric n c p :
  symmetric n c -> symmetric n (transformed_cov n c p).
Proof.
  intros Hc i j _ _. rewrite !transformed_cov_entry.
  apply symmetric_form. exact Hc.
Qed.

Lemma schur_complement_symmetric k dy :
  symmetric (S k) dy -> symmetric k (schur_complement dy).
Proof.
  intros Hd i j Hi Hj. unfold schur_complement.
  rewrite (Hd (S i) (S j)) by lia. lra.
Qed.

Lemma mulmv_transformed_cov n c p y i :
  mulmv n (transformed_cov n c p) y i =
  mulmv n p (mulmv n c (mulmv n (transpose p) y)) i.
Proof.
  unfold transformed_cov. rewrite mulmv_mulm.
  apply mulmv_ext; [reflexivity|]. intros k _. apply mulmv_mulm.
Qed.

(** a solution of [c s = x] becomes a solution in the transformed space *)
Lemma transformed_solution n c p y s :
  orthonormal_rows n p -> orthonormal_cols n p ->
  (forall i, (i < n)%nat -> mulmv n c s i = mulmv n (transpose p) y i) ->
  (forall i, (i < n)%nat ->
             mulmv n (transformed_cov n c p) (mulmv n p s) i = y i) /\
  dot n (mulmv n (transpose p) y) s = dot n y (mulmv n p s).
Proof.
  intros Hr Hc Hs. split.
  - intros i Hi. rewrite mulmv_transformed_cov.
    rewrite <- (mulmv_transpose_cancel n p y i Hr Hi).
    apply mulmv_ext; [reflexivity|]. intros k Hk.
    rewrite <- (Hs k Hk). apply mulmv_ext; [reflexivity|]. intros l Hl.
    apply transpose_mulmv_cancel; assumption.
  - symmetry. apply (dot_mulmv_transpose n n p y s).
Qed.

(** eliminating the first coordinate of a symmetric system *)
Lemma block_elimination k (dy : mat) (sg y : vec) :
  symmetric (S k) dy -> dy 0%nat 0%nat <> 0 ->
  (forall i, (i < S k)%nat -> mulmv (S k) dy sg i = y i) ->
  let d := fun i => y (S i) - dy (S i) 0%nat * (y 0%nat / dy 0%nat 0%nat) in
  (forall i, (i < k)%nat -> mulmv k (schur_complement dy) (tail sg) i = d i) /\
  dot (S k) y sg = y 0%nat * y 0%nat / dy 0%nat 0%nat + dot k d (tail sg).
Proof.
  intros Hsym Hd Hsol d.
  assert (dy 0%nat 0%nat * sg 0%nat
          + dot k (fun i => dy (S i) 0%nat) (tail sg) = y 0%nat) as E1.
  { rewrite <- (Hsol 0%nat) by lia. unfold mulmv, dot.
    rewrite sumR_first. f_equal. apply sumR_ext. intros i Hi.
    unfold tail. rewrite (Hsym 0%nat (S i)) by lia. reflexivity. }
  assert (forall i, (i < k)%nat ->
            dy (S i) 0%nat * sg 0%nat
            + dot k (fun j => dy (S i) (S j)) (tail sg) = y (S i)) as E2.
  { intros i Hi. rewrite <- (Hsol (S i)) by lia. unfold mulmv, dot.
    rewrite sumR_first. reflexivity. }
  assert (sg 0%nat =
          (y 0%nat - dot k (fun i => dy (S i) 0%nat) (tail sg))
          / dy 0%nat 0%nat) as E0.
  { rewrite <- E1. field. exact Hd. }
  split.
  - intros i Hi. unfold mulmv, dot, schur_complement.
    rewrite (sumR_ext k _
      (fun j => dy (S i) (S j) * tail sg j
                - (dy (S i) 0%nat / dy 0%nat 0%nat)
                  * (dy (S j) 0%nat * tail sg j)))
      by (intros; unfold Rdiv; lra).
    rewrite sumR_minus, sumR_scal_l.
    fold (dot k (fun j => dy (S i) (S j)) (tail sg)).
    fold (dot k (fun j => dy (S j) 0%nat) (tail sg)).
    unfold d. rewrite <- (E2 i Hi). rewrite E0. field. exact Hd.
  - unfold dot at 1. rewrite sumR_first.
    change (sumR k (fun i => y (S i) * sg (S i)))
      with (dot k (tail y) (tail sg)).
    assert (dot k d (tail sg) =
            dot k (tail y) (tail sg)
            - y 0%nat / dy 0%nat 0%nat
              * dot k (fun i => dy (S i) 0%nat) (tail sg)) as ->.
    { unfold dot, d. rewrite <- sumR_scal_l, <- sumR_minus.
      apply sumR_ext. intros; unfold tail; lra. }
    rewrite E0. field. exact Hd.
Qed.

Lemma zero_or_nonzero n x :
  (forall i, (i < n)%nat -> x i = 0) \/ nonzero_vec n x.
Proof.
  induction n as [|n IH].
  - left. intros; lia.
  - destruct IH as [Hz|[i [Hi Hne]]].
    + destruct (Req_dec (x n) 0) as [E|E].
      * left. intros i Hi. destruct (Nat.eq_dec i n) as [->|]; [exact E|].
        apply Hz. lia.
      * right. exists n. split; [lia|exact E].
    + right. exists i. split; [lia|exact Hne].
Qed.

Lemma nonzero_vec_transpose n p y :
  orthonormal_rows n p -> nonzero_vec n y ->
  nonzero_vec n (mulmv n (transpose p) y).
Proof.
  intros Hp [i [Hi Hne]].
  destruct (zero_or_nonzero n (mulmv n (transpose p) y)) as [Hz|H];
    [|exact H].
  exfalso. apply Hne.
  rewrite <- (mulmv_transpose_cancel n p y i Hp Hi).
  unfold mulmv at 1. unfold dot. apply sumR_zero. intros k Hk.
  rewrite (Hz k Hk). lra.
Qed.

Lemma transformed_cov_posdef n c p :
  posdef n c -> orthonormal_rows n p -> posdef n (transformed_cov n c p).
Proof.
  intros Hc Hp y Hy.
  rewrite (dot_ext n y y _
             (mulmv n p (mulmv n c (mulmv n (transpose p) y))))
    by (intros; try reflexivity; apply mulmv_transformed_cov).
  rewrite (dot_mulmv_transpose n n p y).
  apply Hc. apply nonzero_vec_transpose; assumption.
Qed.

Lemma transformed_cov_d11_pos n c p :
  posdef n c -> orthonormal_rows n p -> (0 < n)%nat ->
  0 < transformed_cov n c p 0%nat 0%nat.
Proof.
  intros Hc Hp Hn. rewrite transformed_cov_entry. apply Hc.
  destruct (zero_or_nonzero n (p 0%nat)) as [Hz|H]; [|exact H].
  exfalso. specialize (Hp 0%nat 0%nat Hn Hn). unfold eye in Hp. simpl in Hp.
  unfold dot in Hp. rewrite sumR_zero in Hp; [lra|].
  intros i Hi. rewrite (Hz i Hi). lra.
Qed.

(** the Schur complement of a symmetric positive definite matrix is
    positive definite *)
Lemma schur_complement_posdef k dy :
  symmetric (S k) dy -> posdef (S k) dy -> 0 < dy 0%nat 0%nat ->
  posdef k (schur_complement dy).
Proof.
  intros Hsym Hpd Hd v [i [Hi Hne]].
  set (a := - dot k (fun i => dy (S i) 0%nat) v / dy 0%nat 0%nat).
  set (Y := fun i => match i with O => a | S i' => v i' end).
  assert (nonzero_vec (S k) Y) as HY.
  { exists (S i). split; [lia|exact Hne]. }
  pose proof (Hpd Y HY) as Hpos.
  destruct (block_elimination k dy Y (mulmv (S k) dy Y) Hsym) as [Hs Hq];
    [lra|reflexivity|].
  assert (mulmv (S k) dy Y 0%nat = 0) as H0.
  { unfold mulmv, dot. rewrite sumR_first.
    rewrite (sumR_ext k _ (fun i => dy (S i) 0%nat * v i)).
    - fold (dot k (fun i => dy (S i) 0%nat) v). simpl. unfold a. field. lra.
    - intros j Hj. simpl. rewrite (Hsym 0%nat (S j)) by lia. reflexivity. }
  rewrite dot_comm in Hpos. rewrite Hq in Hpos. rewrite H0 in Hpos.
  change (tail Y) with v in *.
  rewrite dot_comm.
  rewrite (dot_ext k _ (fun i => mulmv (S k) dy Y (S i)
                                 - dy (S i) 0%nat * (0 / dy 0%nat 0%nat)) v v).
  - lra.
  - intros j Hj. rewrite (Hs j Hj). rewrite H0. reflexivity.
  - reflexivity.
Qed.

Lemma cond_cov_posdef k c p :
  symmetric (S k) c -> posdef (S k) c -> orthonormal_rows (S k) p ->
  posdef k (cond_cov (S k) c p).
Proof.
  intros Hs Hc Hp.
  change (cond_cov (S k) c p)
    with (schur_complement (transformed_cov (S k) c p)).
  apply schur_complement_posdef.
  - apply transformed_cov_symmetric. exact Hs.
  - apply transformed_cov_posdef; assumption.
  - apply transformed_cov_d11_pos; try assumption. lia.
Qed.

Lemma cond_cov_symmetric k c p :
  symmetric (S k) c -> symmetric k (cond_cov (S k) c p).
Proof.
  intros Hs.
  change (cond_cov (S k) c p)
    with (schur_complement (transformed_cov (S k) c p)).
  apply schur_complement_symmetric. apply transformed_cov_symmetric. exact Hs.
Qed.

(** ** The eigenvectors in sorted order *)

Lemma insert_by_perm vals i l : Permutation (insert_by vals i l) (i :: l).
Proof.
  induction l as [|j l IH]; simpl; [apply Permutation_refl|].
  destruct (Rle_dec (vals i) (vals j)); [apply Permutation_refl|].
  eapply Permutation_trans; [apply perm_skip; exact IH|apply perm_swap].
Qed.

Lemma argsort_perm n vals : Permutation (argsort n vals) (seq 0 n).
Proof.
  unfold argsort. induction (seq 0 n) as [|i l IH]; simpl;
    [apply Permutation_refl|].
  eapply Permutation_trans; [apply insert_by_perm|].
  apply perm_skip. exact IH.
Qed.

Lemma sorted_index_perm n vals :
  Permutation (rev (argsort n vals)) (seq 0 n).
Proof.
  eapply Permutation_trans; [apply Permutation_sym; apply Permutation_rev|].
  apply argsort_perm.
Qed.

Lemma sorted_index_lt n vals j :
  (j < n)%nat -> (nth j (rev (argsort n vals)) 0 < n)%nat.
Proof.
  intros Hj. pose proof (sorted_index_perm n vals) as Hp.
  assert (length (rev (argsort n vals)) = n) as Hlen.
  { rewrite (Permutation_length Hp). apply length_seq. }
  assert (In (nth j (rev (argsort n vals)) 0%nat) (seq 0 n)) as Hin.
  { eapply Permutation_in; [exact Hp|]. apply nth_In. lia. }
  apply in_seq in Hin. lia.
Qed.

Lemma sorted_index_inj n vals j k :
  (j < n)%nat -> (k < n)%nat ->
  nth j (rev (argsort n vals)) 0%nat = nth k (rev (argsort n vals)) 0%nat ->
  j = k.
Proof.
  intros Hj Hk E. pose proof (sorted_index_perm n vals) as Hp.
  assert (length (rev (argsort n vals)) = n) as Hlen.
  { rewrite (Permutation_length Hp). apply length_seq. }
  assert (NoDup (rev (argsort n vals))) as Hnd.
  { eapply Permutation_NoDup; [apply Permutation_sym; exact Hp|].
    apply seq_NoDup. }
  rewrite NoDup_nth in Hnd. apply Hnd; try lia. exact E.
Qed.

Lemma sorted_vectors_orthonormal n vals vect :
  orthonormal_cols n vect -> orthonormal_cols n (sorted_vectors n vals vect).
Proof.
  intros H j k Hj Hk. unfold sorted_vectors.
  pose proof (H _ _ (sorted_index_lt n vals j Hj) (sorted_index_lt n vals k Hk))
    as E.
  unfold dot, transpose in *. rewrite E. unfold eye.
  destruct (Nat.eqb_spec j k) as [->|Hne]; [rewrite Nat.eqb_refl; reflexivity|].
  destruct (Nat.eqb_spec (nth j (rev (argsort n vals)) 0%nat)
                         (nth k (rev (argsort n vals)) 0%nat)) as [E'|_];
    [|reflexivity].
  exfalso. apply Hne. eapply sorted_index_inj; eassumption.
Qed.

(** a matrix with orthonormal columns keeps the length of a vector *)
Lemma orthonormal_cols_isometry n r (V : mat) (a : vec) :
  orthonormal_cols n V -> (r <= n)%nat ->
  dot n (fun i => sumR r (fun l => V i l * a l))
        (fun i => sumR r (fun l => V i l * a l)) = dot r a a.
Proof.
  intros HV Hr. unfold dot.
  rewrite (sumR_ext n _
    (fun i => sumR r (fun l => sumR r (fun l' =>
                 (a l * a l') * (V i l * V i l'))))).
  2:{ intros i _. rewrite <- sumR_scal_r. apply sumR_ext. intros l _.
      rewrite <- sumR_scal_l. apply sumR_ext. intros l' _. lra. }
  rewrite sumR_swap. apply sumR_ext. intros l Hl.
  rewrite sumR_swap.
  rewrite (sumR_ext r _ (fun l' => eye l l' * (a l * a l'))).
  - rewrite (sumR_eye_l r l (fun l' => a l * a l') Hl). reflexivity.
  - intros l' Hl'. rewrite sumR_scal_l.
    specialize (HV l l'). unfold dot, transpose in HV.
    rewrite HV by lia. lra.
Qed.

(** each direction of [z] has the length of its simplex vertex *)
Lemma directions_length n m vals vect t j :
  orthonormal_cols (n - 1) vect -> (m - 1 <= n - 1)%nat ->
  dot (n - 1) (col (directions n m vals vect t) j)
              (col (directions n m vals vect t) j)
  = dot (m - 1) (col t j) (col t j).
Proof.
  intros HV Hm. unfold directions, col, mulm.
  apply (orthonormal_cols_isometry (n - 1) (m - 1)
           (sorted_vectors (n - 1) vals vect) (fun l => t l j)).
  - apply sorted_vectors_orthonormal. exact HV.
  - exact Hm.
Qed.

(** a run whose stages return the given values *)
Lemma comp_scenarios_run la n c w L q M p vals vect t denom pdfs :
  p_from_w la n w = Ok p ->
  eig la (n - 1) (cond_cov n c p) = Ok (vals, vect) ->
  standard_simplex_vertices la M = Ok t ->
  (Z.to_nat M - 1 <= n - 1)%nat ->
  quadratic_form_inv la (n - 1) (cond_cov n c p)
    (col (directions n (Z.to_nat M) vals vect t) (Z.to_nat M - 1))
  = Ok denom ->
  collect (Z.to_nat M + 1)
    (fun j => multivariate_normal_pdf la n
                (col (scenarios_of n c w L p (sqrt (-2 * ln q / denom))
                        (directions n (Z.to_nat M) vals vect t)) j) c)
  = Ok pdfs ->
  comp_scenarios la n c w L q M =
  Ok (scenarios_of n c w L p (sqrt (-2 * ln q / denom))
        (directions n (Z.to_nat M) vals vect t),
      fun j => fdiv (pdfs j) (pdfs 0%nat)).
Proof.
  intros Hp He Ht Hm Hq Hc. unfold comp_scenarios.
  rewrite Hp. simpl bind. rewrite He. simpl bind. rewrite Ht. simpl bind.
  replace (Nat.min (Z.to_nat M - 1) (n - 1) =? Z.to_nat M - 1)%nat with true
    by (symmetry; apply Nat.eqb_eq; lia).
  simpl negb. cbv iota. simpl fst. simpl snd.
  fold (directions n (Z.to_nat M) vals vect t).
  rewrite Hq. simpl bind.
  fold (scenarios_of n c w L p (sqrt (-2 * ln q / denom))
          (directions n (Z.to_nat M) vals vect t)).
  rewrite Hc. reflexivity.
Qed.

Lemma pdf_inv la n x c v :
  multivariate_normal_pdf la n x c = Ok v ->
  exists s, solve la n c x = Ok s /\
            v = np_exp (log_density n (det la n c) (dot n x s)).
Proof.
  unfold multivariate_normal_pdf. intros H.
  destruct (solve la n c x) as [s|e]; [|discriminate].
  simpl in H. injection H as <-. exists s. split; reflexivity.
Qed.

(** ** Densities inside the range of [np.exp] *)

Lemma ln_2_gt_half : 1 / 2 < ln 2.
Proof.
  rewrite <- (ln_exp (1 / 2)). apply ln_increasing; [apply exp_pos|].
  pose proof exp_le_3 as H3. pose proof (exp_pos (1 / 2)) as Hp.
  replace 1 with (1 / 2 + 1 / 2) in H3 by lra. rewrite exp_plus in H3.
  nra.
Qed.

Lemma np_exp_in_range x : in_exp_range x -> np_exp x = Fin (exp x).
Proof.
  intros [Hlo Hhi]. pose proof ln_2_gt_half as H2.
  unfold np_exp, exp_underflow, exp_overflow.
  destruct (Rlt_dec x (- 1075 * ln 2)) as [Hlt|_]; [lra|].
  destruct (Rle_dec (1024 * ln 2) x) as [Hle|_]; [lra|]. reflexivity.
Qed.

(** the quotient of a density in the range by one that is no smaller *)
Lemma fdiv_exp a b :
  in_exp_range a -> in_exp_range b -> a <= b ->
  fdiv (np_exp a) (np_exp b) = Fin (exp (a - b)).
Proof.
  intros Ha Hb Hab. rewrite (np_exp_in_range a Ha), (np_exp_in_range b Hb).
  unfold fdiv. pose proof (exp_pos b) as Hp.
  destruct (Req_EM_T (exp b) 0) as [E|_]; [lra|].
  replace (exp a / exp b) with (exp (a - b))
    by (unfold Rminus, Rdiv; rewrite exp_plus, exp_Ropp; reflexivity).
  pose proof (exp_pos (a - b)) as Hq. pose proof (exp_pos exp_overflow) as Ho.
  assert (exp (a - b) < exp exp_overflow) as Hlt.
  { apply exp_increasing. pose proof ln_2_gt_half.
    unfold exp_overflow. lra. }
  unfold float_of.
  destruct (Rle_dec (exp exp_overflow) (exp (a - b))) as [H|_]; [lra|].
  destruct (Rle_dec (exp (a - b)) (- exp exp_overflow)) as [H|_]; [lra|].
  reflexivity.
Qed.

Lemma in_exp_range_between a b x :
  in_exp_range a -> in_exp_range b -> a <= x <= b -> in_exp_range x.
Proof. unfold in_exp_range. intros [Ha _] [_ Hb] [Hax Hxb]. lra. Qed.

Lemma log_density_shift n d m0 e :
  log_density n d (m0 + e) = log_density n d m0 - e / 2.
Proof. unfold log_density. lra. Qed.

Lemma ln_le_pred x : 0 < x -> ln x <= x - 1.
Proof.
  intros Hx. destruct (Req_dec (ln x) 0) as [E|Hne].
  - destruct (Rle_or_lt 1 x) as [H1|H1]; [lra|].
    exfalso. pose proof (ln_increasing x 1 Hx H1) as H. rewrite ln_1 in H. lra.
  - pose proof (exp_ineq1 (ln x) Hne) as H. rewrite exp_ln in H by exact Hx.
    lra.
Qed.

Lemma ln_nonneg x : 1 <= x -> 0 <= ln x.
Proof.
  intros [H| <-]; [|rewrite ln_1; lra].
  left. rewrite <- ln_1. apply ln_increasing; lra.
Qed.

Lemma ln_2pi_bounds : 0 <= ln (2 * PI) <= 7.
Proof.
  pose proof PI_4. pose proof PI2_3_2. split.
  - apply ln_nonneg. lra.
  - pose proof (ln_le_pred (2 * PI) ltac:(lra)). lra.
Qed.

Lemma ln_lower q : 0 < q <= 1 -> 1 - / q <= ln q <= 0.
Proof.
  intros [H0 H1]. pose proof (Rinv_0_lt_compat q H0) as Hi.
  pose proof (ln_le_pred (/ q) Hi) as H. rewrite ln_Rinv in H by exact H0.
  split; [lra|].
  destruct H1 as [H1| ->]; [|rewrite ln_1; lra].
  left. rewrite <- ln_1. apply ln_increasing; lra.
Qed.

(** a sufficient condition on the sizes for a log-density, shifted by
    [e <= 0], to be in the range *)
Lemma log_density_range n d maha e :
  1 <= d -> 0 <= maha -> e <= 0 ->
  INR n * 7 + (d - 1) + maha - 2 * e <= 1022 ->
  in_exp_range (log_density n d maha + e).
Proof.
  intros Hd Hm He Hsize. pose proof ln_2_gt_half as H2.
  pose proof ln_2pi_bounds as [Hp0 Hp7].
  pose proof (ln_nonneg d Hd) as Hl0.
  pose proof (ln_le_pred d ltac:(lra)) as Hl1.
  pose proof (pos_INR n) as Hn.
  assert (0 <= INR n * ln (2 * PI) <= INR n * 7) as [Ha Hb] by (split; nra).
  unfold in_exp_range, log_density. split; lra.
Qed.

(** ** The likelihood of a scenario *)

Lemma first_comp_value n c w L p :
  nonzero_vec n w -> dot n w (mulmv n c w) <> 0 ->
  (forall j, (j < n)%nat -> p 0%nat j = normalized n w j) ->
  mulmv n p (central n c w L) 0%nat = L / norm n w.
Proof.
  intros Hw Hq H0. pose proof (norm_pos n w Hw) as Hpos.
  unfold mulmv.
  rewrite <- (central_loss n c w L Hq) at 2.
  rewrite (loss_first_coordinate n w p _ Hw H0). field. lra.
Qed.

(** the part of the fixed first coordinate in x' c^(-1) x, by the inputs *)
Lemma first_coordinate_form n c w L p :
  nonzero_vec n w -> 0 < dot n w (mulmv n c w) ->
  (forall j, (j < n)%nat -> p 0%nat j = normalized n w j) ->
  L / norm n w * (L / norm n w) / transformed_cov n c p 0%nat 0%nat
  = L * L / dot n w (mulmv n c w).
Proof.
  intros Hw Hq H0. pose proof (norm_pos n w Hw) as Hpos.
  rewrite (transformed_cov_col0 n c w p 0%nat H0).
  pose proof (loss_first_coordinate n w p (mulmv n c w) Hw H0) as E.
  unfold mulmv at 1.
  replace (dot n (p 0%nat) (mulmv n c w))
    with (dot n w (mulmv n c w) / norm n w) by (rewrite E; field; lra).
  field. split; lra.
Qed.

(** x' c^(-1) x of scenario [j], in the transformed space: the part of the
    fixed first coordinate, plus the part of the offset from the centre *)
Lemma scenario_maha k c w L p r z j s :
  symmetric (S k) c -> posdef (S k) c ->
  orthonormal_rows (S k) p -> orthonormal_cols (S k) p ->
  accepted (S k) w ->
  (forall i, (i < S k)%nat -> p 0%nat i = normalized (S k) w i) ->
  (forall i, (i < S k)%nat ->
     mulmv (S k) c s i = col (scenarios_of (S k) c w L p r z) j i) ->
  let fc := L / norm (S k) w in
  let d11 := transformed_cov (S k) c p 0%nat 0%nat in
  let ahy := cond_mean (S k) c p w L in
  let df := transformed_scenarios (mulmv (S k) p (central (S k) c w L) 0%nat)
              ahy (fun i j => r * z i j + ahy i) in
  let d := fun i => df (S i) j - ahy i in
  dot (S k) (col (scenarios_of (S k) c w L p r z) j) s
  = fc * fc / d11 + dot k d (tail (mulmv (S k) p s)) /\
  forall i, (i < k)%nat ->
    mulmv k (cond_cov (S k) c p) (tail (mulmv (S k) p s)) i = d i.
Proof.
  intros Hsym Hpd Hr Hc Hacc H0 Hs fc d11 ahy df d.
  pose proof (accepted_nonzero_vec _ _ Hacc) as Hw.
  pose proof (posdef_weights _ _ _ Hpd Hacc) as Hq.
  pose proof (norm_pos _ _ Hw) as Hn.
  assert (0 < d11) as Hd by (apply transformed_cov_d11_pos; try assumption; lia).
  assert (forall j', df 0%nat j' = fc) as Hfc.
  { intros j'. unfold df, transformed_scenarios, fc.
    apply first_comp_value; try assumption.
    apply Rgt_not_eq. exact Hq. }
  assert (forall i, ahy i = transformed_cov (S k) c p (S i) 0%nat * (fc / d11))
    as Hahy.
  { intros i. unfold ahy, cond_mean, fc. fold d11. field. split; lra. }
  change (col (scenarios_of (S k) c w L p r z) j)
    with (mulmv (S k) (transpose p) (col df j)) in *.
  destruct (transformed_solution (S k) c p (col df j) s Hr Hc Hs) as [Hsol Hdot].
  destruct (block_elimination k (transformed_cov (S k) c p)
              (mulmv (S k) p s) (col df j)) as [Hb Hv].
  - apply transformed_cov_symmetric. exact Hsym.
  - fold d11. lra.
  - exact Hsol.
  - split.
    + rewrite Hdot, Hv. unfold col at 1 2. rewrite Hfc. fold d11.
      f_equal. apply dot_ext; [|reflexivity].
      intros i Hi. unfold d, col. rewrite Hfc, Hahy. reflexivity.
    + intros i Hi.
      change (cond_cov (S k) c p)
        with (schur_complement (transformed_cov (S k) c p)).
      rewrite (Hb i Hi). unfold d, col. rewrite Hfc, Hahy. reflexivity.
Qed.

Lemma ln_neg q : 0 < q < 1 -> ln q < 0.
Proof.
  intros [H0 H1]. rewrite <- ln_1. apply ln_increasing; assumption.
Qed.

(** the last direction is not the zero vector, so the quadratic form that
    calibrates the radius is positive *)
Lemma denom_pos k c p (zl tau : vec) :
  symmetric (S k) c -> posdef (S k) c -> orthonormal_rows (S k) p ->
  dot k zl zl = 1 ->
  (forall i, (i < k)%nat -> mulmv k (cond_cov (S k) c p) tau i = zl i) ->
  0 < dot k zl tau.
Proof.
  intros Hsym Hpd Hr Hz Hsol.
  rewrite (dot_ext k zl (mulmv k (cond_cov (S k) c p) tau) tau tau)
    by (intros; try reflexivity; symmetry; apply Hsol; assumption).
  rewrite dot_comm. apply (cond_cov_posdef k c p Hsym Hpd Hr).
  destruct (zero_or_nonzero k tau) as [H0|H]; [|exact H].
  exfalso. assert (dot k zl zl = 0) as E; [|lra].
  unfold dot. apply sumR_zero. intros i Hi. rewrite <- (Hsol i Hi).
  unfold mulmv at 1. unfold dot. rewrite sumR_zero; [lra|].
  intros j Hj. rewrite (H0 j Hj). lra.
Qed.

(** the likelihood of the centre relative to itself, and of the last
    alternative, whose direction calibrates the radius, when the densities
    of both are in the range of [np.exp] *)
Lemma likelihood_first_last la k c w L q M :
  symmetric (S k) c -> posdef (S k) c ->
  accepted (S k) w -> nonnegative (S k) w ->
  0 < q < 1 -> (2 <= M)%Z -> (Z.to_nat M <= S k)%nat ->
  qr_at la (S k) (p_seed (S k) w) ->
  qr_at la (Z.to_nat M) (transpose simplex_seed) ->
  (forall p, p_from_w la (S k) w = Ok p ->
             eig_spec la k (cond_cov (S k) c p) /\
             solves la k (cond_cov (S k) c p)) ->
  solves la (S k) c -> 0 < det la (S k) c ->
  in_exp_range (log_density (S k) (det la (S k) c)
                  (L * L / dot (S k) w (mulmv (S k) c w))) ->
  in_exp_range (log_density (S k) (det la (S k) c)
                  (L * L / dot (S k) w (mulmv (S k) c w)) + ln q) ->
  exists scen lik,
    comp_scenarios la (S k) c w L q M = Ok (scen, lik) /\
    lik 0%nat = Fin 1 /\ lik (Z.to_nat M) = Fin q.
Proof.
  intros Hsym Hpd Hacc Hnn Hq HM Hmn Hqr1 Hqr2 Hlib Hsolve Hdet Hr0 Hrq.
  destruct (p_from_w_spec la (S k) w Hacc Hqr1)
    as [p [Hp [Hrows [Hcols Hrow0]]]].
  assert (forall j, (j < S k)%nat -> p 0%nat j = normalized (S k) w j) as H0.
  { intros j Hj. rewrite (Hrow0 j Hj).
    apply abs_normalized_of_nonnegative; assumption. }
  destruct (Hlib p Hp) as [[vals [vect [Heig [HV _]]]] Hsolveh].
  destruct (standard_simplex_vertices_ok la M HM) as [sg [t [_ [Ht _]]]].
  set (m := Z.to_nat M) in *.
  assert (2 <= m)%nat as Hm2 by (unfold m; lia).
  set (z := directions (S k) m vals vect t).
  destruct (Hsolveh (col z (m - 1)%nat)) as [tau [Htau Htausol]].
  set (denom := dot k (col z (m - 1)%nat) tau).
  set (r := sqrt (-2 * ln q / denom)).
  set (scen := scenarios_of (S k) c w L p r z).
  destruct (collect_ok (m + 1)
              (fun j => multivariate_normal_pdf la (S k) (col scen j) c))
    as [pdfs [Hcol Hpdfs]].
  { intros j _. unfold multivariate_normal_pdf.
    destruct (Hsolve (col scen j)) as [s [-> _]]. simpl.
    eexists. reflexivity. }
  exists scen, (fun j => fdiv (pdfs j) (pdfs 0%nat)). split.
  { apply comp_scenarios_run; replace (S k - 1)%nat with k by lia;
      try assumption; try (fold m; lia).
    fold m. fold z. unfold quadratic_form_inv. rewrite Htau. reflexivity. }
  pose proof (accepted_nonzero_vec _ _ Hacc) as Hw.
  pose proof (posdef_weights _ _ _ Hpd Hacc) as Hwcw.
  set (m0 := L * L / dot (S k) w (mulmv (S k) c w)) in *.
  set (lp0 := log_density (S k) (det la (S k) c) m0) in *.
  (* the value of each density *)
  assert (forall j, (j < m + 1)%nat ->
            exists s, (forall i, (i < S k)%nat ->
                                 mulmv (S k) c s i = col scen j i) /\
                      pdfs j = np_exp (log_density (S k) (det la (S k) c)
                                         (dot (S k) (col scen j) s)))
    as Hval.
  { intros j Hj. destruct (pdf_inv _ _ _ _ _ (Hpdfs j Hj)) as [s [Hs Hv]].
    destruct (Hsolve (col scen j)) as [s' [Hs' Hsol]].
    rewrite Hs in Hs'. injection Hs' as <-. exists s. split; assumption. }
  (* the quadratic form of the centre *)
  destruct (Hval 0%nat) as [s0 [Hs0 Hv0]]; [lia|].
  destruct (scenario_maha k c w L p r z 0%nat s0
              Hsym Hpd Hrows Hcols Hacc H0 Hs0) as [Hm0 _].
  cbv zeta in Hm0.
  rewrite (dot_ext k _ (fun _ => 0) _ (tail (mulmv (S k) p s0))) in Hm0
    by (intros; try reflexivity; unfold transformed_scenarios; lra).
  assert (dot k (fun _ => 0) (tail (mulmv (S k) p s0)) = 0) as Ez.
  { unfold dot. apply sumR_zero. intros; lra. }
  rewrite Ez in Hm0. clear Ez.
  rewrite (first_coordinate_form (S k) c w L p Hw Hwcw H0) in Hm0.
  fold m0 in Hm0. rewrite Rplus_0_r in Hm0.
  fold scen in Hm0. rewrite Hm0 in Hv0. fold lp0 in Hv0.
  split.
  - cbv beta. rewrite Hv0, (fdiv_exp lp0 lp0 Hr0 Hr0 (Rle_refl _)).
    replace (lp0 - lp0) with 0 by lra. rewrite exp_0. reflexivity.
  - (* the quadratic form of the last alternative *)
    destruct (Hval m) as [sm [Hsm Hvm]]; [lia|].
    destruct (scenario_maha k c w L p r z m sm
                Hsym Hpd Hrows Hcols Hacc H0 Hsm) as [Hmm Hsolm].
    cbv zeta in Hmm, Hsolm.
    set (sI := tail (mulmv (S k) p sm)) in *.
    assert (forall i, transformed_scenarios
                        (mulmv (S k) p (central (S k) c w L) 0%nat)
                        (cond_mean (S k) c p w L)
                        (fun i j => r * z i j + cond_mean (S k) c p w L i)
                        (S i) m - cond_mean (S k) c p w L i
                      = r * col z (m - 1)%nat i) as Hd.
    { intros i. unfold transformed_scenarios, col.
      destruct m as [|m']; [lia|].
      replace (S m' - 1)%nat with m' by lia. lra. }
    assert (dot k (col z (m - 1)%nat) (col z (m - 1)%nat) = 1) as Hunit.
    { unfold z. replace k with (S k - 1)%nat at 1 by lia.
      rewrite directions_length;
        [|replace (S k - 1)%nat with k by lia; exact HV|lia].
      apply (simplex_unit la M t (m - 1)%nat HM Hqr2 Ht). lia. }
    pose proof (denom_pos k c p _ tau Hsym Hpd Hrows Hunit Htausol) as Hden.
    fold denom in Hden.
    assert (dot k (fun i => r * col z (m - 1)%nat i) sI = r * (r * denom))
      as Hoff.
    { rewrite dot_scal_l. f_equal.
      rewrite (dot_ext k (col z (m - 1)%nat)
                 (mulmv k (cond_cov (S k) c p) tau) sI sI)
        by (intros; try reflexivity; symmetry; apply Htausol; assumption).
      rewrite dot_comm.
      rewrite (symmetric_form k _ sI tau (cond_cov_symmetric k c p Hsym)).
      rewrite (dot_ext k tau tau _ (fun i => r * col z (m - 1)%nat i)).
      - rewrite dot_scal_r. unfold denom. rewrite (dot_comm k tau). reflexivity.
      - reflexivity.
      - intros i Hi. rewrite (Hsolm i Hi). apply Hd. }
    rewrite (dot_ext k _ (fun i => r * col z (m - 1)%nat i) sI sI) in Hmm
      by (intros; try reflexivity; apply Hd).
    rewrite Hoff in Hmm.
    assert (r * r = -2 * ln q / denom) as Hrr.
    { unfold r. apply sqrt_sqrt. pose proof (ln_neg q Hq).
      apply Rmult_le_pos; [lra|]. left. apply Rinv_0_lt_compat. exact Hden. }
    rewrite (first_coordinate_form (S k) c w L p Hw Hwcw H0) in Hmm.
    fold m0 in Hmm. fold scen in Hmm.
    replace (r * (r * denom)) with (-2 * ln q) in Hmm
      by (transitivity ((r * r) * denom); [rewrite Hrr; field; lra|lra]).
    cbv beta. rewrite Hvm, Hv0, Hmm. rewrite log_density_shift. fold lp0.
    replace (lp0 - -2 * ln q / 2) with (lp0 + ln q) by lra.
    pose proof (ln_neg q Hq) as Hlnq.
    rewrite (fdiv_exp _ _ Hrq Hr0 ltac:(lra)).
    replace (lp0 + ln q - lp0) with (ln q) by lra.
    rewrite exp_ln by lra. reflexivity.
Qed.

(** ** Which runs raise *)

Lemma raises_Raise {A : Type} (e : exn) : raises (@Raise A e).
Proof. exists e. reflexivity. Qed.

Lemma not_raises_Ok {A : Type} (a : A) : ~ raises (Ok a).
Proof. intros [e He]. discriminate. Qed.

Lemma collect_raises k f :
  raises (collect k f) -> exists j, (j < k)%nat /\ raises (f j).
Proof.
  induction k as [|k IH]; simpl; intros H.
  - exfalso. exact (not_raises_Ok _ H).
  - destruct (collect k f) as [g|e] eqn:E.
    + simpl in H. destruct (f k) as [v|e] eqn:Ev.
      * exfalso. exact (not_raises_Ok _ H).
      * exists k. split; [lia|]. rewrite Ev. apply raises_Raise.
    + destruct IH as [j [Hj Hr]]; [apply raises_Raise|].
      exists j. split; [lia|exact Hr].
Qed.

Lemma raises_collect k f j :
  (j < k)%nat -> raises (f j) -> raises (collect k f).
Proof.
  intros Hj Hr. destruct (collect k f) as [g|e] eqn:E; [|apply raises_Raise].
  exfalso. rewrite (collect_inv k f g E j Hj) in Hr.
  exact (not_raises_Ok _ Hr).
Qed.

Lemma pdf_raises la n x c :
  raises (multivariate_normal_pdf la n x c) <-> raises (solve la n c x).
Proof.
  unfold multivariate_normal_pdf.
  destruct (solve la n c x) as [s|e]; simpl; split; intros H;
    try (exfalso; exact (not_raises_Ok _ H)); apply raises_Raise.
Qed.

Lemma standard_simplex_vertices_raises la M :
  (M < 2)%Z -> raises (standard_simplex_vertices la M).
Proof.
  intros HM. unfold standard_simplex_vertices.
  destruct (Z.ltb_spec M 0); [apply raises_Raise|].
  destruct (Z.eqb_spec M 0); [apply raises_Raise|].
  destruct (Z.eqb_spec M 1); [apply raises_Raise|]. lia.
Qed.

Lemma comp_scenarios_raises_small la n c w L q M :
  (M < 2)%Z -> raises (comp_scenarios la n c w L q M).
Proof.
  intros HM. unfold comp_scenarios.
  destruct (p_from_w la n w) as [p|e]; [|apply raises_Raise]. simpl bind.
  destruct (eig la (n - 1) (cond_cov n c p)) as [ev|e]; [|apply raises_Raise].
  simpl bind.
  destruct (standard_simplex_vertices_raises la M HM) as [e ->].
  apply raises_Raise.
Qed.

Lemma comp_scenarios_raises_any_q la n c w L q q' M :
  solve_raises_by_matrix la ->
  raises (comp_scenarios la n c w L q M) ->
  raises (comp_scenarios la n c w L q' M).
Proof.
  intros Hlib. unfold comp_scenarios.
  destruct (p_from_w la n w) as [p|e]; [|intros _; apply raises_Raise].
  simpl bind.
  destruct (eig la (n - 1) (cond_cov n c p)) as [ev|e];
    [|intros _; apply raises_Raise].
  simpl bind.
  destruct (standard_simplex_vertices la M) as [t|e];
    [|intros _; apply raises_Raise].
  simpl bind.
  destruct (negb _); [intros _; apply raises_Raise|].
  destruct (quadratic_form_inv _ _ _ _) as [denom|e];
    [|intros _; apply raises_Raise].
  simpl bind.
  match goal with
  | |- raises (bind (collect ?k ?f) _) -> raises (bind (collect ?k ?f') _) =>
      intros H;
      assert (raises (collect k f)) as Hc
        by (destruct (collect k f); [exfalso; exact (not_raises_Ok _ H)
                                    |apply raises_Raise]);
      assert (raises (collect k f')) as Hc'
  end.
  { destruct (collect_raises _ _ Hc) as [j [Hj Hr]].
    apply (raises_collect _ _ j Hj).
    apply pdf_raises. apply pdf_raises in Hr.
    eapply Hlib. exact Hr. }
  destruct Hc' as [e ->]. apply raises_Raise.
Qed.

(** ** The example routines keep the contracts *)

Lemma qr2_spec a : qr_spec 2 a (qr2 a).
Proof.
  unfold qr2. destruct (Req_EM_T (a 1%nat 0%nat) 0) as [E|E].
  - repeat split; simpl fst; simpl snd.
    + intros i j Hi Hj. below2 i Hi; below2 j Hj;
        unfold dot, transpose, eye; simpl; lra.
    + intros i j Hi Hj. below2 i Hi; below2 j Hj;
        unfold dot, eye; simpl; lra.
    + intros i j Hi Hj Hji. below2 i Hi; below2 j Hj; try lia. exact E.
    + intros i j Hi Hj. below2 i Hi; below2 j Hj;
        unfold mulm, eye; simpl; lra.
  - set (nu2 := a 0%nat 0%nat * a 0%nat 0%nat + a 1%nat 0%nat * a 1%nat 0%nat).
    set (beta := (if Rle_dec 0 (a 0%nat 0%nat) then -1 else 1) * sqrt nu2).
    assert (0 < nu2) as Hnu by (unfold nu2; nra).
    assert (beta * beta = nu2) as Hb.
    { unfold beta. transitivity (sqrt nu2 * sqrt nu2).
      - destruct (Rle_dec 0 (a 0%nat 0%nat)); lra.
      - apply sqrt_sqrt. lra. }
    assert (beta <> 0) as Hb0 by (intros Hz; rewrite Hz in Hb; lra).
    set (x := a 0%nat 0%nat / beta). set (y := a 1%nat 0%nat / beta).
    replace (- a 0%nat 0%nat / beta) with (- x) by (unfold x; field; exact Hb0).
    assert (x * x + y * y = 1) as Hxy.
    { unfold x, y. apply (Rmult_eq_reg_r (beta * beta)).
      - rewrite Rmult_1_l. transitivity nu2; [|symmetry; exact Hb].
        unfold nu2. field. exact Hb0.
      - apply Rmult_integral_contrapositive. split; exact Hb0. }
    assert (a 0%nat 0%nat = x * beta) as Ha0 by (unfold x; field; exact Hb0).
    assert (a 1%nat 0%nat = y * beta) as Ha1 by (unfold y; field; exact Hb0).
    repeat split; simpl fst; simpl snd.
    + intros i j Hi Hj. below2 i Hi; below2 j Hj;
        unfold dot, transpose, eye, mat2; simpl; lra.
    + intros i j Hi Hj. below2 i Hi; below2 j Hj;
        unfold dot, eye, mat2; simpl; lra.
    + intros i j Hi Hj Hji. below2 i Hi; below2 j Hj; try lia.
      unfold mulm, transpose, mat2. simpl. rewrite Ha0, Ha1. ring.
    + intros i j Hi Hj. below2 i Hi;
        unfold mulm, transpose, mat2; simpl.
      * transitivity ((x * x + y * y) * a 0%nat j); [rewrite Hxy|]; ring.
      * transitivity ((x * x + y * y) * a 1%nat j); [rewrite Hxy|]; ring.
Qed.

Lemma la_ex_qr_at_2 a : qr_at la_ex 2 a.
Proof. unfold qr_at. simpl. apply qr2_spec. Qed.

Lemma la_ex_eig_spec_1 a : eig_spec la_ex 1 a.
Proof.
  exists (fun i => a i i), eye. split; [reflexivity|]. split.
  - intros i j Hi Hj. assert (i = 0%nat) as -> by lia.
    assert (j = 0%nat) as -> by lia. unfold dot, transpose, eye. simpl. lra.
  - intros k i Hk Hi. assert (i = 0%nat) as -> by lia.
    assert (k = 0%nat) as -> by lia.
    unfold mulmv, dot, col, eye. simpl. lra.
Qed.

Lemma la_ex_solves_1 a : a 0%nat 0%nat <> 0 -> solves la_ex 1 a.
Proof.
  intros Ha b. simpl. unfold zero_on_diagonal. simpl.
  destruct (Req_EM_T (a 0%nat 0%nat) 0) as [E|_]; [contradiction|]. simpl.
  eexists. split; [reflexivity|]. intros i Hi.
  assert (i = 0%nat) as -> by lia. unfold mulmv, dot. simpl. field. exact Ha.
Qed.

Lemma la_ex_solves_2 a : det2 a <> 0 -> solves la_ex 2 a.
Proof.
  intros Ha b. simpl.
  destruct (Req_EM_T (det2 a) 0) as [E|_]; [contradiction|].
  eexists. split; [reflexivity|]. intros i Hi.
  below2 i Hi; unfold mulmv, dot, vec2; simpl; unfold det2 in *; field;
    exact Ha.
Qed.

Lemma la_ex_solve_raises_by_matrix : solve_raises_by_matrix la_ex.
Proof.
  intros n a b b'. simpl. destruct n as [|[|[|n]]];
    try (destruct (zero_on_diagonal _ a);
         [intros _; apply raises_Raise
         |intros H; exfalso; exact (not_raises_Ok _ H)]).
  destruct (Req_EM_T (det2 a) 0);
    [intros _; apply raises_Raise
    |intros H; exfalso; exact (not_raises_Ok _ H)].
Qed.

(** ** The example inputs are valid inputs *)

Lemma accepted_w_mixed : accepted 2 w_mixed.
Proof.
  exists 0%nat. split; [lia|]. unfold w_mixed, vec2.
  rewrite Rabs_right; lra.
Qed.

Lemma accepted_w_unit n : (0 < n)%nat -> accepted n w_unit.
Proof.
  intros Hn. exists 0%nat. split; [exact Hn|]. unfold w_unit, vec2.
  rewrite Rabs_right; lra.
Qed.

Lemma accepted_neg_w_unit : accepted 2 (neg w_unit).
Proof.
  exists 0%nat. split; [lia|]. unfold neg, w_unit, vec2.
  rewrite Rabs_left; lra.
Qed.

Lemma nonnegative_w_unit n : nonnegative n w_unit.
Proof.
  intros j _. unfold w_unit, vec2. destruct j as [|[|j]]; lra.
Qed.

Lemma norm_w_mixed : norm 2 w_mixed = 5.
Proof.
  unfold norm, dot, w_mixed, vec2. simpl.
  replace (0 + 3 * 3 + -4 * -4) with (5 * 5) by lra.
  apply sqrt_square. lra.
Qed.

Lemma norm_w_unit_3 : norm 3 w_unit = 1.
Proof.
  unfold norm, dot, w_unit, vec2. simpl.
  replace (0 + 1 * 1 + 0 * 0 + 0 * 0) with 1 by lra. apply sqrt_1.
Qed.

Lemma symmetric_eye n : symmetric n eye.
Proof.
  intros i j _ _. unfold eye. rewrite (Nat.eqb_sym i j). reflexivity.
Qed.

Lemma posdef_eye_2 : posdef 2 eye.
Proof.
  intros x [i [Hi Hne]]. unfold dot, mulmv, dot, eye. simpl.
  below2 i Hi; nra.
Qed.

Lemma symmetric_c_corr : symmetric 2 c_corr.
Proof.
  intros i j Hi Hj. below2 i Hi; below2 j Hj; reflexivity.
Qed.

Lemma posdef_c_corr : posdef 2 c_corr.
Proof.
  intros x [i [Hi Hne]]. unfold dot, mulmv, dot, c_corr, mat2. simpl.
  pose proof (Rle_0_sqr (x 0%nat + x 1%nat)) as Hs.
  pose proof (Rle_0_sqr (x 0%nat)) as H0.
  pose proof (Rle_0_sqr (x 1%nat)) as H1.
  pose proof (Rsqr_pos_lt _ Hne) as Hp. unfold Rsqr in *.
  below2 i Hi; lra.
Qed.

(** a 1 x 1 conditional covariance is a positive number *)
Lemma cond_cov_entry_pos c p :
  symmetric 2 c -> posdef 2 c -> orthonormal_rows 2 p ->
  0 < cond_cov 2 c p 0%nat 0%nat.
Proof.
  intros Hs Hc Hp.
  pose proof (cond_cov_posdef 1 c p Hs Hc Hp (fun _ => 1)) as H.
  unfold dot, mulmv, dot in H. simpl in H.
  assert (nonzero_vec 1 (fun _ => 1)) as Hnz by (exists 0%nat; split; [lia|lra]).
  specialize (H Hnz). lra.
Qed.

(** the example routines serve every run on two factors with a valid
    covariance *)
Lemma la_ex_serves_2 c w :
  symmetric 2 c -> posdef 2 c -> accepted 2 w ->
  forall p, p_from_w la_ex 2 w = Ok p ->
            eig_spec la_ex (2 - 1) (cond_cov 2 c p) /\
            solves la_ex (2 - 1) (cond_cov 2 c p).
Proof.
  intros Hs Hc Hacc p Hp.
  destruct (p_from_w_spec la_ex 2 w Hacc (la_ex_qr_at_2 _))
    as [p' [Hp' [Hrows _]]].
  rewrite Hp in Hp'. injection Hp' as <-.
  split; [apply la_ex_eig_spec_1|]. apply la_ex_solves_1.
  pose proof (cond_cov_entry_pos c p Hs Hc Hrows). lra.
Qed.

Lemma solves_returns la n a : solves la n a -> solve_returns la n a.
Proof.
  intros H b. destruct (H b) as [x [Hx _]]. exists x. exact Hx.
Qed.

Lemma la_ex_returns_2 c w :
  symmetric 2 c -> posdef 2 c -> accepted 2 w -> det2 c <> 0 ->
  library_returns la_ex 2 c w.
Proof.
  intros Hs Hc Hacc Hdet. split.
  - intros p Hp.
    destruct (la_ex_serves_2 c w Hs Hc Hacc p Hp) as [[vals [vect [He _]]] Hsv].
    split; [eexists; exact He|]. apply solves_returns. exact Hsv.
  - apply solves_returns. apply la_ex_solves_2. exact Hdet.
Qed.

Lemma det2_c_corr : det2 c_corr = 3.
Proof. unfold det2, c_corr, mat2. lra. Qed.

Lemma det2_eye : det2 eye = 1.
Proof. unfold det2, eye. simpl. lra. Qed.

(** the densities of the example runs are in the range of [np.exp] *)
Lemma la_ex_range_corr L e :
  L * L <= 400 -> - 10 <= e <= 0 ->
  in_exp_range (log_density 2 (det la_ex 2 c_corr)
                  (L * L / dot 2 w_unit (mulmv 2 c_corr w_unit)) + e).
Proof.
  intros HL He.
  assert (dot 2 w_unit (mulmv 2 c_corr w_unit) = 2) as ->.
  { unfold dot, mulmv, dot, c_corr, w_unit, mat2, vec2. simpl. lra. }
  change (det la_ex 2 c_corr) with (det2 c_corr). rewrite det2_c_corr.
  apply log_density_range; simpl; try nra; lra.
Qed.

Lemma la_ex_range_diag L e :
  L * L <= 400 -> - 10 <= e <= 0 ->
  in_exp_range (log_density 3 (det la_ex 3 c_diag)
                  (L * L / dot 3 w_unit (mulmv 3 c_diag w_unit)) + e).
Proof.
  intros HL He.
  assert (dot 3 w_unit (mulmv 3 c_diag w_unit) = 1) as ->.
  { unfold dot, mulmv, dot, c_diag, w_unit, vec2. simpl. lra. }
  assert (det la_ex 3 c_diag = 4) as ->.
  { simpl. unfold c_diag. simpl. lra. }
  apply log_density_range; simpl; try nra; lra.
Qed.

Lemma in_exp_range_plain x : in_exp_range (x + 0) -> in_exp_range x.
Proof. rewrite Rplus_0_r. exact (fun H => H). Qed.


Lemma ln_half : - 10 <= ln (1 / 2) <= 0.
Proof. pose proof (ln_lower (1 / 2) ltac:(lra)). lra. Qed.

(** ** Runs of the functions on the example inputs *)

(** [p_from_w([0, 0])] *)
Example p_from_w_zero_weights :
  p_from_w la_ex 2 (vec2 0 0) = Raise IndexError.
Proof.
  apply p_from_w_rejected. intros [j [Hj Habs]].
  unfold vec2 in Habs. below2 j Hj; rewrite Rabs_R0 in Habs; lra.
Qed.

(** [standard_simplex_vertices(M)] for M = -1, 0, 1 *)
Example standard_simplex_vertices_small :
  standard_simplex_vertices la_ex (-1) = Raise ValueError /\
  standard_simplex_vertices la_ex 0 = Raise ZeroDivisionError /\
  standard_simplex_vertices la_ex 1 = Raise IndexError.
Proof. repeat split. Qed.

Lemma first_index_w_mixed : first_index 2 w_mixed = 0%nat.
Proof.
  unfold first_index, nonzero_indices. simpl.
  replace (above_eps w_mixed 0) with true; [reflexivity|].
  symmetry. apply above_eps_true. unfold w_mixed, vec2.
  rewrite Rabs_right; lra.
Qed.

(** [p_from_w([3, -4])] is [[3/5, 4/5], [-4/5, 3/5]] with the example
    routines, whose QR is LAPACK's on 2 x 2 arrays *)
Example p_from_w_mixed_value :
  exists p, p_from_w la_ex 2 w_mixed = Ok p /\
            p 0%nat 0%nat = 3 / 5 /\ p 0%nat 1%nat = 4 / 5 /\
            p 1%nat 0%nat = - 4 / 5 /\ p 1%nat 1%nat = 3 / 5.
Proof.
  rewrite (p_from_w_accepted la_ex 2 w_mixed accepted_w_mixed).
  eexists. split; [reflexivity|].
  rewrite first_index_w_mixed.
  assert (forall i j, gram_schmidt_rows la_ex 2 (p_init 2 w_mixed 0) i j
                      = mat2 (- 3 / 5) (4 / 5) (4 / 5) (3 / 5) i j) as Hgs.
  { intros i j. unfold gram_schmidt_rows.
    change (qr la_ex 2 (transpose (p_init 2 w_mixed 0)))
      with (qr2 (transpose (p_init 2 w_mixed 0))).
    unfold qr2.
    assert (transpose (p_init 2 w_mixed 0) 0%nat 0%nat = 3 / 5) as H00.
    { unfold transpose. rewrite p_init_row0, norm_w_mixed.
      unfold w_mixed, vec2. lra. }
    assert (transpose (p_init 2 w_mixed 0) 1%nat 0%nat = - 4 / 5) as H10.
    { unfold transpose. rewrite p_init_row0, norm_w_mixed.
      unfold w_mixed, vec2. lra. }
    rewrite H00, H10.
    destruct (Req_EM_T (- 4 / 5) 0) as [E|_]; [lra|].
    destruct (Rle_dec 0 (3 / 5)) as [_|N]; [|lra].
    replace (3 / 5 * (3 / 5) + - 4 / 5 * (- 4 / 5)) with 1 by lra.
    rewrite sqrt_1. unfold transpose, mat2.
    destruct i as [|[|i]]; destruct j as [|[|j]]; try reflexivity; lra. }
  rewrite !canonicalize_entry by lia. rewrite !Hgs. unfold mat2.
  destruct (Rlt_dec (- 3 / 5) 0) as [_|N]; [|lra].
  destruct (Rlt_dec (4 / 5) 0) as [N|_]; [lra|].
  repeat split; lra.
Qed.


(** * The claims *)

(** ** [p_from_w] *)

(** C5: for every weight vector that [p_from_w] accepts, the returned
    matrix P satisfies P P' = I when [np.linalg.qr] returns an orthogonal
    factor, and the closing loop that negates columns keeps the rows of any
    matrix orthonormal. *)
Theorem p_from_w_orthonormal la n w :
  accepted n w -> qr_at la n (p_seed n w) ->
  exists p, p_from_w la n w = Ok p /\
    (forall i j, (i < n)%nat -> (j < n)%nat ->
                 mulm n p (transpose p) i j = eye i j) /\
    (forall gs, orthonormal_rows n gs ->
                orthonormal_rows n (canonicalize n gs)).
Proof.
  intros Hacc Hqr.
  destruct (p_from_w_spec la n w Hacc Hqr) as [p [Hp [Hrows _]]].
  exists p. split; [exact Hp|]. split.
  - intros i j Hi Hj. exact (Hrows i j Hi Hj).
  - intros gs. apply canonicalize_orthonormal_rows.
Qed.

Lemma p_from_w_orthonormal_witness :
  exists p, p_from_w la_ex 2 w_mixed = Ok p /\
    (forall i j, (i < 2)%nat -> (j < 2)%nat ->
                 mulm 2 p (transpose p) i j = eye i j) /\
    (forall gs, orthonormal_rows 2 gs ->
                orthonormal_rows 2 (canonicalize 2 gs)).
Proof.
  apply (p_from_w_orthonormal la_ex 2 w_mixed).
  - exact accepted_w_mixed.
  - apply la_ex_qr_at_2.
Defined.

(** C8, as the code has it: [p_from_w] fails, with the IndexError of
    reading entry 0 of an empty index array, exactly when no component of w
    exceeds 1e-5 in absolute value; with one such component it returns a
    matrix.  The notebook defines no exception class of its own. *)
Theorem p_from_w_degenerate la n w :
  ((forall j, (j < n)%nat -> Rabs (w j) <= 1 / 100000) ->
   p_from_w la n w = Raise IndexError) /\
  ((exists j, (j < n)%nat /\ Rabs (w j) > 1 / 100000) ->
   exists p, p_from_w la n w = Ok p).
Proof.
  split.
  - intros Hsmall. apply p_from_w_rejected. intros [j [Hj Habs]].
    specialize (Hsmall j Hj). lra.
  - intros Hacc. eexists. apply p_from_w_accepted. exact Hacc.
Qed.

(** C8, the failure on w = [0, 0]: no component exceeds 1e-5, and what
    [p_from_w] raises is the IndexError of the array access. *)
Lemma p_from_w_degenerate_index_error :
  (forall j, (j < 2)%nat -> Rabs (vec2 0 0 j) <= 1 / 100000) /\
  p_from_w la_ex 2 (vec2 0 0) = Raise IndexError /\
  forall e, p_from_w la_ex 2 (vec2 0 0) = Raise e -> e = IndexError.
Proof.
  assert (forall j, (j < 2)%nat -> Rabs (vec2 0 0 j) <= 1 / 100000) as Hs.
  { intros j Hj. unfold vec2. below2 j Hj; rewrite Rabs_R0; lra. }
  assert (p_from_w la_ex 2 (vec2 0 0) = Raise IndexError) as Hr.
  { apply p_from_w_rejected. intros [j [Hj Habs]].
    specialize (Hs j Hj). lra. }
  split; [exact Hs|]. split; [exact Hr|].
  intros e He. rewrite Hr in He. injection He as <-. reflexivity.
Qed.

(** C10: every entry of row 0 of the matrix that [p_from_w] returns is
    non-negative, so row 0 can be w / norm(w) only when no component of w is
    negative. *)
Theorem p_from_w_row0_nonnegative la n w :
  accepted n w ->
  exists p, p_from_w la n w = Ok p /\
    (forall j, (j < n)%nat -> 0 <= p 0%nat j) /\
    ((forall j, (j < n)%nat -> p 0%nat j = w j / norm n w) ->
     forall j, (j < n)%nat -> 0 <= w j).
Proof.
  intros Hacc. rewrite (p_from_w_accepted la n w Hacc).
  eexists. split; [reflexivity|].
  assert (forall j, (j < n)%nat ->
            0 <= canonicalize n
                   (gram_schmidt_rows la n (p_init n w (first_index n w)))
                   0%nat j) as Hnn.
  { intros j Hj. rewrite canonicalize_row0 by exact Hj. apply Rabs_pos. }
  split; [exact Hnn|].
  intros Heq j Hj. specialize (Hnn j Hj). rewrite (Heq j Hj) in Hnn.
  pose proof (norm_pos n w (accepted_nonzero_vec n w Hacc)) as Hpos.
  apply (Rmult_le_compat_r (norm n w)) in Hnn; [|lra].
  unfold Rdiv in Hnn. rewrite Rmult_assoc, Rinv_l in Hnn; lra.
Qed.

Lemma p_from_w_row0_nonnegative_witness :
  exists p, p_from_w la_ex 2 w_mixed = Ok p /\
    (forall j, (j < 2)%nat -> 0 <= p 0%nat j) /\
    ((forall j, (j < 2)%nat -> p 0%nat j = w_mixed j / norm 2 w_mixed) ->
     forall j, (j < 2)%nat -> 0 <= w_mixed j).
Proof.
  apply (p_from_w_row0_nonnegative la_ex 2 w_mixed). exact accepted_w_mixed.
Defined.

(** What the code does where C4 asks for w / norm(w): row 0 of the returned
    matrix is |w| / norm(w), which is w / norm(w) when no component of w is
    negative. *)
Lemma p_from_w_first_row la n w :
  accepted n w -> qr_at la n (p_seed n w) ->
  exists p, p_from_w la n w = Ok p /\
    (forall j, (j < n)%nat -> p 0%nat j = Rabs (w j) / norm n w) /\
    (nonnegative n w -> forall j, (j < n)%nat -> p 0%nat j = w j / norm n w).
Proof.
  intros Hacc Hqr.
  destruct (p_from_w_spec la n w Hacc Hqr) as [p [Hp [_ [_ Hrow]]]].
  exists p. split; [exact Hp|]. split; [exact Hrow|].
  intros Hnn j Hj. rewrite (Hrow j Hj).
  apply (abs_normalized_of_nonnegative n w j Hnn Hj).
Qed.

(** C4, at w = [3, -4]: the second entry of row 0 is 4/5, while that of
    w / norm(w) is -4/5. *)
Theorem p_from_w_negative_component la :
  qr_at la 2 (p_seed 2 w_mixed) ->
  exists p, p_from_w la 2 w_mixed = Ok p /\
            p 0%nat 1%nat = 4 / 5 /\
            w_mixed 1%nat / norm 2 w_mixed = - 4 / 5.
Proof.
  intros Hqr.
  destruct (p_from_w_first_row la 2 w_mixed accepted_w_mixed Hqr)
    as [p [Hp [Hrow _]]].
  exists p. split; [exact Hp|]. rewrite (Hrow 1%nat) by lia.
  rewrite norm_w_mixed. unfold w_mixed, vec2.
  rewrite Rabs_left by lra. lra.
Qed.

Lemma p_from_w_negative_component_witness :
  exists p, p_from_w la_ex 2 w_mixed = Ok p /\
            p 0%nat 1%nat = 4 / 5 /\
            w_mixed 1%nat / norm 2 w_mixed = - 4 / 5.
Proof.
  apply (p_from_w_negative_component la_ex). apply la_ex_qr_at_2.
Defined.

(** ** [standard_simplex_vertices] *)

(** C6: for every integer M >= 2 the M columns of the matrix that
    [standard_simplex_vertices] returns are at one and the same distance from
    each other, which is sqrt(2 M / (M - 1)), and their mean is the origin. *)
Theorem standard_simplex_vertices_regular la M :
  (2 <= M)%Z -> qr_at la (Z.to_nat M) (transpose simplex_seed) ->
  exists t, standard_simplex_vertices la M = Ok t /\
    (forall j k,
        (j < Z.to_nat M)%nat -> (k < Z.to_nat M)%nat -> j <> k ->
        dist (Z.to_nat M - 1) (col t j) (col t k)
        = sqrt (2 * IZR M / (IZR M - 1))) /\
    (forall j k j' k',
        (j < Z.to_nat M)%nat -> (k < Z.to_nat M)%nat -> j <> k ->
        (j' < Z.to_nat M)%nat -> (k' < Z.to_nat M)%nat -> j' <> k' ->
        dist (Z.to_nat M - 1) (col t j) (col t k)
        = dist (Z.to_nat M - 1) (col t j') (col t k')) /\
    (forall i, (i < Z.to_nat M - 1)%nat ->
               sumR (Z.to_nat M) (fun j => t i j) / IZR M = 0).
Proof.
  intros HM Hqr.
  destruct (standard_simplex_vertices_ok la M HM) as [s [t [_ [Ht _]]]].
  exists t. split; [exact Ht|]. split; [|split].
  - intros j k Hj Hk Hjk. unfold dist.
    rewrite (simplex_dist2 la M t j k HM Hqr Ht Hj Hk Hjk). reflexivity.
  - intros j k j' k' Hj Hk Hjk Hj' Hk' Hjk'. unfold dist.
    rewrite (simplex_dist2 la M t j k HM Hqr Ht Hj Hk Hjk).
    rewrite (simplex_dist2 la M t j' k' HM Hqr Ht Hj' Hk' Hjk').
    reflexivity.
  - intros i Hi. rewrite (simplex_row_sum la M t i HM Hqr Ht Hi).
    unfold Rdiv. lra.
Qed.

(** ** [comp_scenarios] *)



(** C7, as the code has it: [comp_scenarios] validates neither q nor M.
    With M < 2 a run raises all the same (the ValueError, ZeroDivisionError
    or IndexError of [standard_simplex_vertices], or an earlier exception).
    q decides no failure: a run that raises with one q raises with every
    other, and whatever q is, a run on accepted weights with 2 <= M <= n
    returns when its library calls return.  [np.linalg.solve] is taken to
    raise by its matrix only. *)
Theorem comp_scenarios_no_validation la n c w L q :
  solve_raises_by_matrix la ->
  (forall M, (M < 2)%Z -> raises (comp_scenarios la n c w L q M)) /\
  (forall M q', raises (comp_scenarios la n c w L q M) ->
                raises (comp_scenarios la n c w L q' M)) /\
  (forall M, (2 <= M)%Z -> (Z.to_nat M <= n)%nat ->
             accepted n w -> library_returns la n c w ->
             exists scen lik, comp_scenarios la n c w L q M = Ok (scen, lik)).
Proof.
  intros Hlib. split; [|split].
  - intros M. apply comp_scenarios_raises_small.
  - intros M q'. apply comp_scenarios_raises_any_q. exact Hlib.
  - intros M HM Hn Hacc Hret. apply comp_scenarios_returns; assumption.
Qed.

Lemma comp_scenarios_no_validation_witness :
  (forall M, (M < 2)%Z ->
             raises (comp_scenarios la_ex 2 c_corr w_unit 13 2 M)) /\
  (forall M q', raises (comp_scenarios la_ex 2 c_corr w_unit 13 2 M) ->
                raises (comp_scenarios la_ex 2 c_corr w_unit 13 q' M)) /\
  (forall M, (2 <= M)%Z -> (Z.to_nat M <= 2)%nat ->
             accepted 2 w_unit -> library_returns la_ex 2 c_corr w_unit ->
             exists scen lik,
               comp_scenarios la_ex 2 c_corr w_unit 13 2 M = Ok (scen, lik)).
Proof.
  apply (comp_scenarios_no_validation la_ex 2 c_corr w_unit 13 2).
  exact la_ex_solve_raises_by_matrix.
Defined.

(** C7 fails at q = 1, which is outside (0, 1): the run returns. *)
Lemma comp_scenarios_accepts_q_one :
  exists scen lik,
    comp_scenarios la_ex 2 c_corr w_unit 13 1 2 = Ok (scen, lik).
Proof.
  apply comp_scenarios_returns.
  - apply accepted_w_unit. lia.
  - lia.
  - simpl. lia.
  - apply la_ex_returns_2.
    + exact symmetric_c_corr.
    + exact posdef_c_corr.
    + apply accepted_w_unit. lia.
    + rewrite det2_c_corr. lra.
Qed.

Lemma scenarios_of_2_central c w L p r z i :
  scenarios_of 2 c w L p r z i 0%nat =
  p 0%nat i * dot 2 (p 0%nat) (central 2 c w L)
  + p 1%nat i * cond_mean 2 c p w L 0%nat.
Proof.
  unfold scenarios_of, mulm, transpose, transformed_scenarios, mulmv.
  simpl. lra.
Qed.

(** the run on the identity covariance with weights [3, -4] and loss 1 *)
Lemma run_mixed_central la scen lik :
  qr_at la 2 (p_seed 2 w_mixed) ->
  comp_scenarios la 2 eye w_mixed 1 (1 / 2) 2 = Ok (scen, lik) ->
  scen 0%nat 0%nat = - 21 / 625 /\ scen 1%nat 0%nat = - 28 / 625.
Proof.
  intros Hqr Hrun.
  destruct (comp_scenarios_inv _ _ _ _ _ _ _ _ _ Hrun)
    as [p [vals [vect [t [denom [pdfs [Hp [_ [_ [_ [_ [Hscen _]]]]]]]]]]]].
  destruct (p_from_w_spec la 2 w_mixed accepted_w_mixed Hqr)
    as [p' [Hp' [Hrows [_ Hrow]]]].
  rewrite Hp in Hp'. injection Hp' as <-.
  assert (p 0%nat 0%nat = 3 / 5) as H00.
  { rewrite (Hrow 0%nat) by lia. unfold abs_normalized.
    rewrite norm_w_mixed. unfold w_mixed, vec2. rewrite Rabs_right; lra. }
  assert (p 0%nat 1%nat = 4 / 5) as H01.
  { rewrite (Hrow 1%nat) by lia. unfold abs_normalized.
    rewrite norm_w_mixed. unfold w_mixed, vec2. rewrite Rabs_left; lra. }
  assert (p 1%nat 0%nat * p 0%nat 0%nat + p 1%nat 1%nat * p 0%nat 1%nat = 0)
    as H10.
  { pose proof (Hrows 1%nat 0%nat) as H. unfold dot, eye in H. simpl in H.
    specialize (H ltac:(lia) ltac:(lia)). lra. }
  assert (cond_mean 2 eye p w_mixed 1 0%nat = 0) as Hahy.
  { unfold cond_mean.
    assert (transformed_cov 2 eye p 1%nat 0%nat = 0) as ->.
    { unfold transformed_cov, mulm, transpose, eye. simpl. lra. }
    unfold Rdiv. ring. }
  assert (dot 2 (p 0%nat) (central 2 eye w_mixed 1) = - 7 / 125) as Hfc.
  { unfold dot, central, mulmv, dot, eye, w_mixed, vec2. simpl.
    rewrite H00, H01. field. }
  rewrite Hscen. rewrite !scenarios_of_2_central.
  rewrite Hahy, Hfc, H00, H01. split; lra.
Qed.

(** C1, at covariance I, w = [3, -4], L = 1, q = 1/2, M = 2: column 0 of
    the scenarios is [-21/625, -28/625], while L (C w) / (w' C w) is
    [3/25, -4/25]. *)
Theorem comp_scenarios_central_negative_weight la :
  qr_at la 2 (p_seed 2 w_mixed) -> library_returns la 2 eye w_mixed ->
  exists scen lik,
    comp_scenarios la 2 eye w_mixed 1 (1 / 2) 2 = Ok (scen, lik) /\
    (scen 0%nat 0%nat = - 21 / 625 /\ scen 1%nat 0%nat = - 28 / 625) /\
    (central 2 eye w_mixed 1 0%nat = 3 / 25 /\
     central 2 eye w_mixed 1 1%nat = - 4 / 25).
Proof.
  intros Hqr Hlib.
  destruct (comp_scenarios_returns la 2 eye w_mixed 1 (1 / 2) 2
              accepted_w_mixed ltac:(lia) ltac:(simpl; lia) Hlib)
    as [scen [lik Hrun]].
  exists scen, lik. split; [exact Hrun|].
  split; [exact (run_mixed_central la scen lik Hqr Hrun)|].
  unfold central, mulmv, dot, eye, w_mixed, vec2. simpl. split; field.
Qed.

Lemma la_ex_returns_mixed : library_returns la_ex 2 eye w_mixed.
Proof.
  apply la_ex_returns_2.
  - apply symmetric_eye.
  - exact posdef_eye_2.
  - exact accepted_w_mixed.
  - rewrite det2_eye. lra.
Qed.

Lemma comp_scenarios_central_negative_weight_witness :
  exists scen lik,
    comp_scenarios la_ex 2 eye w_mixed 1 (1 / 2) 2 = Ok (scen, lik) /\
    (scen 0%nat 0%nat = - 21 / 625 /\ scen 1%nat 0%nat = - 28 / 625) /\
    (central 2 eye w_mixed 1 0%nat = 3 / 25 /\
     central 2 eye w_mixed 1 1%nat = - 4 / 25).
Proof.
  apply (comp_scenarios_central_negative_weight la_ex).
  - apply la_ex_qr_at_2.
  - exact la_ex_returns_mixed.
Defined.

(** C2, at the same input: the loss of the central scenario is 49/625,
    not the target 1. *)
Theorem comp_scenarios_loss_negative_weight la :
  qr_at la 2 (p_seed 2 w_mixed) -> library_returns la 2 eye w_mixed ->
  exists scen lik,
    comp_scenarios la 2 eye w_mixed 1 (1 / 2) 2 = Ok (scen, lik) /\
    loss 2 w_mixed scen 0 = 49 / 625.
Proof.
  intros Hqr Hlib.
  destruct (comp_scenarios_returns la 2 eye w_mixed 1 (1 / 2) 2
              accepted_w_mixed ltac:(lia) ltac:(simpl; lia) Hlib)
    as [scen [lik Hrun]].
  exists scen, lik. split; [exact Hrun|].
  destruct (run_mixed_central la scen lik Hqr Hrun) as [H0 H1].
  unfold loss, dot, col, w_mixed, vec2. simpl. rewrite H0, H1. lra.
Qed.

Lemma comp_scenarios_loss_negative_weight_witness :
  exists scen lik,
    comp_scenarios la_ex 2 eye w_mixed 1 (1 / 2) 2 = Ok (scen, lik) /\
    loss 2 w_mixed scen 0 = 49 / 625.
Proof.
  apply (comp_scenarios_loss_negative_weight la_ex).
  - apply la_ex_qr_at_2.
  - exact la_ex_returns_mixed.
Defined.

(** the runs on the correlated covariance with weights [s, 0], s = 1 or -1 *)
Lemma run_axis_central la w s L scen lik :
  s = 1 \/ s = -1 -> w 0%nat = s -> w 1%nat = 0 ->
  qr_at la 2 (p_seed 2 w) ->
  comp_scenarios la 2 c_corr w L (1 / 2) 2 = Ok (scen, lik) ->
  scen 0%nat 0%nat = s * L /\ scen 1%nat 0%nat = L / 2.
Proof.
  intros Hs Hw0 Hw1 Hqr Hrun.
  assert (s * s = 1) as Hss by (destruct Hs as [-> | ->]; lra).
  assert (Rabs s = 1) as Habs.
  { destruct Hs as [-> | ->]; [rewrite Rabs_right|rewrite Rabs_left]; lra. }
  assert (accepted 2 w) as Hacc.
  { exists 0%nat. split; [lia|]. rewrite Hw0, Habs. lra. }
  assert (norm 2 w = 1) as Hnorm.
  { unfold norm, dot. simpl. rewrite Hw0, Hw1.
    replace (0 + s * s + 0 * 0) with 1 by lra. apply sqrt_1. }
  destruct (comp_scenarios_inv _ _ _ _ _ _ _ _ _ Hrun)
    as [p [vals [vect [t [denom [pdfs [Hp [_ [_ [_ [_ [Hscen _]]]]]]]]]]]].
  destruct (p_from_w_spec la 2 w Hacc Hqr) as [p' [Hp' [Hrows [_ Hrow]]]].
  rewrite Hp in Hp'. injection Hp' as <-.
  assert (p 0%nat 0%nat = 1) as H00.
  { rewrite (Hrow 0%nat) by lia. unfold abs_normalized.
    rewrite Hnorm, Hw0, Habs. lra. }
  assert (p 0%nat 1%nat = 0) as H01.
  { rewrite (Hrow 1%nat) by lia. unfold abs_normalized.
    rewrite Hnorm, Hw1, Rabs_R0. lra. }
  assert (p 1%nat 0%nat = 0) as H10.
  { pose proof (Hrows 1%nat 0%nat) as H. unfold dot, eye in H. simpl in H.
    specialize (H ltac:(lia) ltac:(lia)). rewrite H00, H01 in H. lra. }
  assert (p 1%nat 1%nat * p 1%nat 1%nat = 1) as H11.
  { pose proof (Hrows 1%nat 1%nat) as H. unfold dot, eye in H. simpl in H.
    specialize (H ltac:(lia) ltac:(lia)). rewrite H10 in H. lra. }
  assert (cond_mean 2 c_corr p w L 0%nat = L * p 1%nat 1%nat / 2) as Hahy.
  { unfold cond_mean. rewrite Hnorm.
    unfold transformed_cov, mulm, transpose, c_corr, mat2. simpl.
    rewrite H00, H01, H10. field. }
  assert (dot 2 (p 0%nat) (central 2 c_corr w L) = s * L) as Hfc.
  { unfold dot, central, mulmv, dot, c_corr, mat2. simpl.
    rewrite H00, H01, Hw0, Hw1.
    replace (0 + s * (0 + 2 * s + 1 * 0) + 0 * (0 + 1 * s + 2 * 0))
      with 2 by lra.
    lra. }
  rewrite Hscen. rewrite !scenarios_of_2_central.
  rewrite Hahy, Hfc, H00, H01, H10. split; [lra|].
  transitivity (L * (p 1%nat 1%nat * p 1%nat 1%nat) / 2); [lra|].
  rewrite H11. lra.
Qed.

(** C9, at covariance [[2, 1], [1, 2]], w = [1, 0], L = 1, q = 1/2, M = 2:
    the central scenario is [1, 1/2] with w and [-1, 1/2] with -w; its
    second coordinate keeps its sign. *)
Theorem comp_scenarios_negated_weights la :
  qr_at la 2 (p_seed 2 w_unit) ->
  qr_at la 2 (p_seed 2 (neg w_unit)) ->
  library_returns la 2 c_corr w_unit ->
  library_returns la 2 c_corr (neg w_unit) ->
  exists scen lik scen' lik',
    comp_scenarios la 2 c_corr w_unit 1 (1 / 2) 2 = Ok (scen, lik) /\
    comp_scenarios la 2 c_corr (neg w_unit) 1 (1 / 2) 2 = Ok (scen', lik') /\
    (scen 0%nat 0%nat = 1 /\ scen 1%nat 0%nat = 1 / 2) /\
    (scen' 0%nat 0%nat = - 1 /\ scen' 1%nat 0%nat = 1 / 2).
Proof.
  intros Hqr Hqr' Hlib Hlib'.
  destruct (comp_scenarios_returns la 2 c_corr w_unit 1 (1 / 2) 2
              (accepted_w_unit 2 ltac:(lia)) ltac:(lia) ltac:(simpl; lia) Hlib)
    as [scen [lik Hrun]].
  destruct (comp_scenarios_returns la 2 c_corr (neg w_unit) 1 (1 / 2) 2
              accepted_neg_w_unit ltac:(lia) ltac:(simpl; lia) Hlib')
    as [scen' [lik' Hrun']].
  exists scen, lik, scen', lik'.
  split; [exact Hrun|]. split; [exact Hrun'|]. split.
  - destruct (run_axis_central la w_unit 1 1 scen lik) as [H0 H1];
      try assumption; try reflexivity; [left; reflexivity|]. split; lra.
  - destruct (run_axis_central la (neg w_unit) (-1) 1 scen' lik') as [H0 H1];
      try assumption; [right; reflexivity| | |].
    + unfold neg, w_unit, vec2. lra.
    + unfold neg, w_unit, vec2. lra.
    + split; lra.
Qed.

Lemma la_ex_returns_axis w :
  accepted 2 w -> library_returns la_ex 2 c_corr w.
Proof.
  intros Hacc. apply la_ex_returns_2.
  - exact symmetric_c_corr.
  - exact posdef_c_corr.
  - exact Hacc.
  - rewrite det2_c_corr. lra.
Qed.

Lemma comp_scenarios_negated_weights_witness :
  exists scen lik scen' lik',
    comp_scenarios la_ex 2 c_corr w_unit 1 (1 / 2) 2 = Ok (scen, lik) /\
    comp_scenarios la_ex 2 c_corr (neg w_unit) 1 (1 / 2) 2 = Ok (scen', lik') /\
    (scen 0%nat 0%nat = 1 /\ scen 1%nat 0%nat = 1 / 2) /\
    (scen' 0%nat 0%nat = - 1 /\ scen' 1%nat 0%nat = 1 / 2).
Proof.
  apply (comp_scenarios_negated_weights la_ex).
  - apply la_ex_qr_at_2.
  - apply la_ex_qr_at_2.
  - apply la_ex_returns_axis. apply accepted_w_unit. lia.
  - apply la_ex_returns_axis. exact accepted_neg_w_unit.
Defined.

(** ** The run on three factors *)

Lemma inv_sqrt_sqr x : 0 < x -> / sqrt x * / sqrt x = / x.
Proof.
  intros Hx. rewrite <- Rinv_mult. rewrite sqrt_sqrt by lra. reflexivity.
Qed.

Lemma simplex_q3_orthonormal :
  orthonormal_cols 3 simplex_q3 /\ orthonormal_rows 3 simplex_q3.
Proof.
  pose proof (inv_sqrt_sqr 2 ltac:(lra)) as H2.
  pose proof (inv_sqrt_sqr 3 ltac:(lra)) as H3.
  unfold orthonormal_cols, orthonormal_rows.
  split; intros i j Hi Hj; below3 i Hi; below3 j Hj;
    unfold dot, transpose, simplex_q3, eye; simpl;
    set (u2 := / sqrt 2) in *; set (u3 := / sqrt 3) in *;
    assert (u2 * u3 * (u2 * u3) = / 6)
      by (replace (u2 * u3 * (u2 * u3)) with ((u2 * u2) * (u3 * u3)) by ring;
          rewrite H2, H3; lra);
    nra.
Qed.

Lemma mulm_transpose_cancel n q a i j :
  orthonormal_rows n q -> (i < n)%nat ->
  mulm n q (mulm n (transpose q) a) i j = a i j.
Proof.
  intros Hq Hi.
  change (mulm n q (mulm n (transpose q) a) i j)
    with (mulmv n q (mulmv n (transpose q) (col a j)) i).
  apply (mulmv_transpose_cancel n q (col a j) i Hq Hi).
Qed.

Lemma qr3_simplex_seed :
  qr3 (transpose simplex_seed)
  = (simplex_q3, mulm 3 (transpose simplex_q3) (transpose simplex_seed)).
Proof.
  unfold qr3. destruct (Req_EM_T (transpose simplex_seed 1%nat 0%nat) 0)
    as [E|_]; [|reflexivity].
  exfalso. unfold transpose, simplex_seed, set_row in E. simpl in E. lra.
Qed.

Lemma la_ex_qr_at_simplex_3 : qr_at la_ex 3 (transpose simplex_seed).
Proof.
  unfold qr_at. simpl qr. rewrite qr3_simplex_seed.
  destruct simplex_q3_orthonormal as [Hc Hr].
  repeat split; simpl fst; simpl snd; try assumption.
  - intros i j Hi Hj Hji.
    below3 i Hi; below3 j Hj; try lia;
      unfold mulm, transpose, simplex_q3, simplex_seed, set_row, eye; simpl;
      lra.
  - intros i j Hi Hj. symmetry. apply mulm_transpose_cancel; assumption.
Qed.

(** the three vertices of [standard_simplex_vertices(3)] *)
Lemma standard_simplex_vertices_regular_witness :
  exists t, standard_simplex_vertices la_ex 3 = Ok t /\
    (forall j k,
        (j < Z.to_nat 3)%nat -> (k < Z.to_nat 3)%nat -> j <> k ->
        dist (Z.to_nat 3 - 1) (col t j) (col t k)
        = sqrt (2 * IZR 3 / (IZR 3 - 1))) /\
    (forall j k j' k',
        (j < Z.to_nat 3)%nat -> (k < Z.to_nat 3)%nat -> j <> k ->
        (j' < Z.to_nat 3)%nat -> (k' < Z.to_nat 3)%nat -> j' <> k' ->
        dist (Z.to_nat 3 - 1) (col t j) (col t k)
        = dist (Z.to_nat 3 - 1) (col t j') (col t k')) /\
    (forall i, (i < Z.to_nat 3 - 1)%nat ->
               sumR (Z.to_nat 3) (fun j => t i j) / IZR 3 = 0).
Proof.
  apply (standard_simplex_vertices_regular la_ex 3).
  - lia.
  - exact la_ex_qr_at_simplex_3.
Defined.

(** with weights [1, 0, 0] the example routines give the identity as
    transform *)
Lemma p_from_w_unit_3 :
  exists p, p_from_w la_ex 3 w_unit = Ok p /\
            forall i j, (i < 3)%nat -> (j < 3)%nat -> p i j = eye i j.
Proof.
  rewrite (p_from_w_accepted la_ex 3 w_unit (accepted_w_unit 3 ltac:(lia))).
  eexists. split; [reflexivity|]. intros i j Hi Hj.
  rewrite canonicalize_entry by exact Hj.
  assert (gram_schmidt_rows la_ex 3 (p_init 3 w_unit (first_index 3 w_unit))
          = transpose eye) as ->.
  { unfold gram_schmidt_rows. simpl qr. unfold qr3.
    destruct (Req_EM_T _ 0) as [_|E]; [reflexivity|].
    exfalso. apply E. unfold transpose. rewrite p_init_row0.
    unfold w_unit, vec2, Rdiv. lra. }
  unfold transpose, eye.
  destruct (Rlt_dec (if (j =? 0)%nat then 1 else 0) 0) as [Hlt|_].
  - exfalso. destruct (j =? 0)%nat; lra.
  - apply f_equal with (f := fun b : bool => if b then 1 else 0).
    apply Nat.eqb_sym.
Qed.

Lemma transformed_cov_identity n c p :
  (forall i j, (i < n)%nat -> (j < n)%nat -> p i j = eye i j) ->
  forall i j, (i < n)%nat -> (j < n)%nat -> transformed_cov n c p i j = c i j.
Proof.
  intros Hp i j Hi Hj. rewrite transformed_cov_entry.
  rewrite (dot_ext n (p i) (eye i) _ (mulmv n c (eye j))).
  - unfold dot. rewrite (sumR_eye_l n i (mulmv n c (eye j)) Hi).
    unfold mulmv, dot.
    rewrite (sumR_ext n _ (fun l => c i l * eye l j)).
    + apply (sumR_eye_r n j (c i) Hj).
    + intros l _. unfold eye. rewrite (Nat.eqb_sym j l). reflexivity.
  - intros k Hk. apply Hp; assumption.
  - intros k Hk. apply mulmv_ext; [reflexivity|]. intros l Hl.
    apply Hp; assumption.
Qed.

Lemma sorted_vectors_descending_2 vals vect i j :
  vals 1%nat < vals 0%nat -> (j < 2)%nat ->
  sorted_vectors 2 vals vect i j = vect i j.
Proof.
  intros Hv Hj. unfold sorted_vectors, argsort. simpl.
  destruct (Rle_dec (vals 0%nat) (vals 1%nat)) as [Hle|_]; [lra|].
  simpl. below2 j Hj; reflexivity.
Qed.

(** the simplex on three points that the example routines give, by the
    squares of the entries of its first and last vertex *)
Lemma simplex_3_entries :
  exists t, standard_simplex_vertices la_ex 3 = Ok t /\
    t 0%nat 0%nat * t 0%nat 0%nat = 1 /\ t 1%nat 0%nat = 0 /\
    t 0%nat 2%nat * t 0%nat 2%nat = 1 / 4 /\
    t 1%nat 2%nat * t 1%nat 2%nat = 3 / 4.
Proof.
  destruct (simplex_entries la_ex 3 ltac:(lia) la_ex_qr_at_simplex_3)
    as [s [t [Hs [Ht He]]]].
  exists t. split; [exact Ht|].
  assert (s * s = 1) as Hss by (destruct Hs as [-> | ->]; lra).
  assert (gram_schmidt_rows la_ex (Z.to_nat 3) simplex_seed
          = transpose simplex_q3) as Hg.
  { unfold gram_schmidt_rows. simpl qr. rewrite qr3_simplex_seed.
    reflexivity. }
  cbv zeta in He. rewrite Hg in He.
  pose proof (inv_sqrt_sqr 2 ltac:(lra)) as H2.
  pose proof (inv_sqrt_sqr 3 ltac:(lra)) as H3.
  assert (sqrt (IZR 3 / IZR (3 - 1)) * sqrt (IZR 3 / IZR (3 - 1)) = 3 / 2)
    as Hsc.
  { rewrite sqrt_sqrt; simpl; lra. }
  set (sc := sqrt (IZR 3 / IZR (3 - 1))) in *.
  rewrite !He by (simpl; lia).
  unfold transpose, simplex_q3, cls. simpl.
  set (u2 := / sqrt 2) in *. set (u3 := / sqrt 3) in *.
  repeat split.
  - transitivity (4 * (s * s) * (u2 * u2) * (u3 * u3) * (sc * sc)); [ring|].
    rewrite Hss, H2, H3, Hsc. lra.
  - lra.
  - transitivity ((s * s) * (u2 * u2) * (u3 * u3) * (sc * sc)); [ring|].
    rewrite Hss, H2, H3, Hsc. lra.
  - transitivity ((s * s) * (u2 * u2) * (sc * sc)); [ring|].
    rewrite Hss, H2, Hsc. lra.
Qed.

Lemma la_ex_solves_c_diag : solves la_ex 3 c_diag.
Proof.
  intros b. simpl solve. unfold zero_on_diagonal. simpl.
  destruct (Req_EM_T (c_diag 0%nat 0%nat) 0) as [E|_];
    [unfold c_diag in E; simpl in E; lra|].
  destruct (Req_EM_T (c_diag 1%nat 1%nat) 0) as [E|_];
    [unfold c_diag in E; simpl in E; lra|].
  destruct (Req_EM_T (c_diag 2%nat 2%nat) 0) as [E|_];
    [unfold c_diag in E; simpl in E; lra|].
  simpl. eexists. split; [reflexivity|]. intros i Hi.
  below3 i Hi; unfold mulmv, dot, c_diag; simpl; field.
Qed.

(** at covariance diag(1, 4, 1), w = [1, 0, 0], L = 1, q = 1/2, M = 3 the
    relative likelihood of the first alternative scenario is q^(4/13) *)
Lemma run_three_first_alternative :
  exists scen lik,
    comp_scenarios la_ex 3 c_diag w_unit 1 (1 / 2) 3 = Ok (scen, lik) /\
    lik 1%nat = Fin (exp (4 / 13 * ln (1 / 2))).
Proof.
  destruct p_from_w_unit_3 as [p [Hp Hpe]].
  destruct simplex_3_entries as [t [Ht [Ht00 [Ht10 [Ht02 Ht12]]]]].
  pose proof (transformed_cov_identity 3 c_diag p Hpe) as Hdy.
  set (dyh := cond_cov 3 c_diag p).
  assert (dyh 0%nat 0%nat = 4 /\ dyh 0%nat 1%nat = 0 /\
          dyh 1%nat 0%nat = 0 /\ dyh 1%nat 1%nat = 1) as [H00 [H01 [H10 H11]]].
  { unfold dyh, cond_cov. rewrite !Hdy by lia. unfold c_diag. simpl.
    repeat split; field. }
  set (vals := fun i : nat => dyh i i).
  assert (eig la_ex (3 - 1) dyh = Ok (vals, eye)) as Heig by reflexivity.
  set (z := directions 3 3 vals eye t).
  assert (forall j, z 0%nat j = t 0%nat j /\ z 1%nat j = t 1%nat j) as Hz.
  { intros j. unfold z, directions, mulm. simpl.
    rewrite !sorted_vectors_descending_2 by (unfold vals; try lia; lra).
    unfold eye. simpl. split; lra. }
  destruct (la_ex_solves_2 dyh) with (b := col z 2%nat) as [tau [Htau Hsol]].
  { unfold det2. rewrite H00, H01, H10, H11. lra. }
  set (denom := dot 2 (col z 2%nat) tau).
  assert (denom = 13 / 16) as Hden.
  { pose proof (Hsol 0%nat ltac:(lia)) as E0.
    pose proof (Hsol 1%nat ltac:(lia)) as E1.
    unfold mulmv, dot, col in E0, E1. simpl in E0, E1.
    rewrite H00, H01 in E0. rewrite H10, H11 in E1.
    destruct (Hz 2%nat) as [Hz0 Hz1]. rewrite Hz0 in E0. rewrite Hz1 in E1.
    unfold denom, dot, col. simpl. rewrite Hz0, Hz1.
    replace (tau 0%nat) with (t 0%nat 2%nat / 4) by lra.
    replace (tau 1%nat) with (t 1%nat 2%nat) by lra.
    transitivity (t 0%nat 2%nat * t 0%nat 2%nat / 4
                  + t 1%nat 2%nat * t 1%nat 2%nat); [lra|].
    rewrite Ht02, Ht12. lra. }
  set (r := sqrt (-2 * ln (1 / 2) / denom)).
  pose proof (ln_neg (1 / 2) ltac:(lra)) as Hln.
  assert (r * r = -2 * ln (1 / 2) / (13 / 16)) as Hrr.
  { unfold r. rewrite Hden. apply sqrt_sqrt.
    apply Rmult_le_pos; [lra|]. left. apply Rinv_0_lt_compat. lra. }
  set (scen := scenarios_of 3 c_diag w_unit 1 p r z).
  destruct (collect_ok 4
              (fun j => multivariate_normal_pdf la_ex 3 (col scen j) c_diag))
    as [pdfs [Hcol Hpdfs]].
  { intros j _. unfold multivariate_normal_pdf.
    destruct (la_ex_solves_c_diag (col scen j)) as [s [-> _]]. simpl.
    eexists. reflexivity. }
  exists scen, (fun j => fdiv (pdfs j) (pdfs 0%nat)). split.
  { apply (comp_scenarios_run la_ex 3 c_diag w_unit 1 (1 / 2) 3
             p vals eye t denom pdfs); try assumption.
    - simpl. lia.
    - unfold quadratic_form_inv. change (3 - 1)%nat with 2%nat.
      change (Z.to_nat 3) with 3%nat. fold dyh. fold z.
      change (3 - 1)%nat with 2%nat. rewrite Htau. reflexivity. }
  (* the scenarios are their transformed columns *)
  assert (forall i j, (i < 3)%nat ->
            scen i j =
            transformed_scenarios (mulmv 3 p (central 3 c_diag w_unit 1) 0%nat)
              (cond_mean 3 c_diag p w_unit 1)
              (fun i j => r * z i j + cond_mean 3 c_diag p w_unit 1 i) i j)
    as Hscen.
  { intros i j Hi. unfold scen, scenarios_of, mulm.
    rewrite (sumR_ext 3 _ (fun k => eye i k *
               transformed_scenarios
                 (mulmv 3 p (central 3 c_diag w_unit 1) 0%nat)
                 (cond_mean 3 c_diag p w_unit 1)
                 (fun i j => r * z i j + cond_mean 3 c_diag p w_unit 1 i) k j)).
    - apply (sumR_eye_l 3 i (fun k => transformed_scenarios _ _ _ k j) Hi).
    - intros k Hk. unfold transpose. rewrite (Hpe k i Hk Hi).
      unfold eye. rewrite (Nat.eqb_sym k i). reflexivity. }
  assert (mulmv 3 p (central 3 c_diag w_unit 1) 0%nat = 1) as Hfc.
  { unfold mulmv, dot. simpl. rewrite !Hpe by lia.
    unfold eye, central, mulmv, dot, c_diag, w_unit, vec2. simpl. field. }
  assert (forall i, (i < 2)%nat -> cond_mean 3 c_diag p w_unit 1 i = 0) as Hahy.
  { intros i Hi. unfold cond_mean. rewrite norm_w_unit_3.
    rewrite !Hdy by lia. unfold c_diag.
    below2 i Hi; simpl; field. }
  assert (scen 0%nat 0%nat = 1 /\ scen 1%nat 0%nat = 0 /\ scen 2%nat 0%nat = 0)
    as [Hs00 [Hs10 Hs20]].
  { rewrite !Hscen by lia. unfold transformed_scenarios.
    rewrite Hfc, !Hahy by lia. repeat split; reflexivity. }
  assert (scen 0%nat 1%nat = 1 /\ scen 1%nat 1%nat = r * t 0%nat 0%nat /\
          scen 2%nat 1%nat = 0) as [Hs01 [Hs11 Hs21]].
  { rewrite !Hscen by lia. unfold transformed_scenarios.
    rewrite Hfc, !Hahy by lia. destruct (Hz 0%nat) as [-> ->].
    rewrite Ht10. repeat split; lra. }
  (* the two densities *)
  assert (det la_ex 3 c_diag = 4) as Hdet.
  { simpl. unfold c_diag. simpl. lra. }
  assert (forall j, (j < 4)%nat ->
            pdfs j = np_exp (log_density 3 4
                               (scen 0%nat j * scen 0%nat j
                                + scen 1%nat j * scen 1%nat j / 4
                                + scen 2%nat j * scen 2%nat j))) as Hval.
  { intros j Hj. destruct (pdf_inv _ _ _ _ _ (Hpdfs j Hj)) as [s [Hs Hv]].
    destruct (la_ex_solves_c_diag (col scen j)) as [s' [Hs' Hsol']].
    rewrite Hs in Hs'. injection Hs' as <-.
    pose proof (Hsol' 0%nat ltac:(lia)) as E0.
    pose proof (Hsol' 1%nat ltac:(lia)) as E1.
    pose proof (Hsol' 2%nat ltac:(lia)) as E2.
    unfold mulmv, dot, c_diag, col in E0, E1, E2. simpl in E0, E1, E2.
    rewrite Hv, Hdet. do 2 f_equal. unfold dot, col. simpl.
    replace (s 0%nat) with (scen 0%nat j) by lra.
    replace (s 1%nat) with (scen 1%nat j / 4) by lra.
    replace (s 2%nat) with (scen 2%nat j) by lra. lra. }
  cbv beta. rewrite (Hval 1%nat) by lia. rewrite (Hval 0%nat) by lia.
  rewrite Hs00, Hs10, Hs20, Hs01, Hs11, Hs21.
  replace (1 * 1 + r * t 0%nat 0%nat * (r * t 0%nat 0%nat) / 4 + 0 * 0)
    with (1 + - (8 / 13) * ln (1 / 2)).
  2:{ transitivity (1 + (r * r) * (t 0%nat 0%nat * t 0%nat 0%nat) / 4);
        [rewrite Hrr, Ht00; field|field]. }
  replace (1 * 1 + 0 * 0 / 4 + 0 * 0) with 1 by lra.
  rewrite log_density_shift.
  replace (log_density 3 4 1 - - (8 / 13) * ln (1 / 2) / 2)
    with (log_density 3 4 1 + 4 / 13 * ln (1 / 2)) by lra.
  pose proof ln_half as Hh.
  rewrite fdiv_exp.
  - f_equal. f_equal. lra.
  - apply log_density_range; simpl; lra.
  - apply in_exp_range_plain. apply log_density_range; simpl; lra.
  - lra.
Qed.



(** ** Weights without negative components *)

(** X1: with no negative weight, column 0 of the scenarios is the central
    scenario L (C w) / (w' C w) that the notebook derives. *)
Theorem comp_scenarios_central_nonnegative la n c w L q M :
  posdef n c -> accepted n w -> nonnegative n w ->
  (2 <= M)%Z -> (Z.to_nat M <= n)%nat ->
  qr_at la n (p_seed n w) -> library_returns la n c w ->
  exists scen lik,
    comp_scenarios la n c w L q M = Ok (scen, lik) /\
    forall i, (i < n)%nat ->
              scen i 0%nat = L * mulmv n c w i / dot n w (mulmv n c w).
Proof.
  intros Hpd Hacc Hnn HM Hmn Hqr Hlib.
  destruct (comp_scenarios_returns la n c w L q M Hacc HM Hmn Hlib)
    as [scen [lik Hrun]].
  exists scen, lik. split; [exact Hrun|]. intros i Hi.
  destruct (comp_scenarios_inv _ _ _ _ _ _ _ _ _ Hrun)
    as [p [vals [vect [t [denom [pdfs [Hp [_ [_ [_ [_ [Hscen _]]]]]]]]]]]].
  destruct (p_from_w_first_row la n w Hacc Hqr) as [p' [Hp' [_ Hrow]]].
  destruct (p_from_w_spec la n w Hacc Hqr) as [p'' [Hp'' [_ [Hcols _]]]].
  rewrite Hp in Hp', Hp''. injection Hp' as <-. injection Hp'' as <-.
  rewrite Hscen.
  rewrite (scenarios_central_column n c w L p _ _ i); try assumption.
  - reflexivity.
  - apply accepted_nonzero_vec. exact Hacc.
  - apply Rgt_not_eq. apply posdef_weights; assumption.
  - intros j Hj. apply (Hrow Hnn j Hj).
Qed.

Lemma comp_scenarios_central_nonnegative_witness :
  exists scen lik,
    comp_scenarios la_ex 2 c_corr w_unit 1 (1 / 2) 2 = Ok (scen, lik) /\
    forall i, (i < 2)%nat ->
              scen i 0%nat
              = 1 * mulmv 2 c_corr w_unit i / dot 2 w_unit (mulmv 2 c_corr w_unit).
Proof.
  apply (comp_scenarios_central_nonnegative la_ex 2 c_corr w_unit 1 (1 / 2) 2).
  - exact posdef_c_corr.
  - apply accepted_w_unit. lia.
  - apply nonnegative_w_unit.
  - lia.
  - simpl. lia.
  - apply la_ex_qr_at_2.
  - apply la_ex_returns_axis. apply accepted_w_unit. lia.
Defined.

(** ** The central scenario is the most likely one *)

Lemma mulmv_minus n c u v i :
  mulmv n c (fun j => u j - v j) i = mulmv n c u i - mulmv n c v i.
Proof.
  unfold mulmv, dot. rewrite <- sumR_minus. apply sumR_ext. intros; lra.
Qed.

Lemma mulmv_scal n c k u i :
  mulmv n c (fun j => k * u j) i = k * mulmv n c u i.
Proof. unfold mulmv. apply dot_scal_r. Qed.

Lemma dot_minus_l n u u' v :
  dot n (fun i => u i - u' i) v = dot n u v - dot n u' v.
Proof.
  unfold dot. rewrite <- sumR_minus. apply sumR_ext. intros; lra.
Qed.

Lemma posdef_nonneg n c d :
  posdef n c -> 0 <= dot n d (mulmv n c d).
Proof.
  intros Hc. destruct (zero_or_nonzero n d) as [Hz|Hnz].
  - right. symmetry. unfold dot. apply sumR_zero. intros i Hi.
    rewrite (Hz i Hi). lra.
  - left. apply Hc. exact Hnz.
Qed.

(** X3: L (C w) / (w' C w) has loss L and, among the scenarios x with loss L,
    the least value of x' C^(-1) x, which no other such scenario attains.
    x' C^(-1) x is written x' s for a solution s of C s = x. *)
Theorem central_is_minimizer n c w L :
  symmetric n c -> posdef n c -> nonzero_vec n w ->
  let k := L / dot n w (mulmv n c w) in
  (forall i, (i < n)%nat ->
             mulmv n c (fun j => k * w j) i = central n c w L i) /\
  dot n w (central n c w L) = L /\
  forall x s,
    (forall i, (i < n)%nat -> mulmv n c s i = x i) -> dot n w x = L ->
    dot n (central n c w L) (fun j => k * w j) <= dot n x s /\
    (dot n x s = dot n (central n c w L) (fun j => k * w j) ->
     forall i, (i < n)%nat -> x i = central n c w L i).
Proof.
  intros Hsym Hpd Hw k.
  assert (0 < dot n w (mulmv n c w)) as Hq by (apply Hpd; exact Hw).
  assert (forall i, mulmv n c (fun j => k * w j) i = central n c w L i) as Hss.
  { intros i. rewrite mulmv_scal. unfold central, k. field. lra. }
  pose proof (central_loss n c w L (Rgt_not_eq _ _ Hq)) as Hloss.
  split; [intros i _; apply Hss|]. split; [exact Hloss|].
  intros x s Hs Hx.
  set (ss := fun j => k * w j) in *. set (xs := central n c w L) in *.
  set (d := fun i => s i - ss i).
  assert (forall i, (i < n)%nat -> mulmv n c d i = x i - xs i) as Hcd.
  { intros i Hi. unfold d. rewrite mulmv_minus, Hss, (Hs i Hi). reflexivity. }
  assert (dot n d xs = 0) as Hcross.
  { rewrite (dot_ext n d d xs (fun i => k * mulmv n c w i))
      by (intros; try reflexivity; unfold xs, central, k, Rdiv; lra).
    rewrite dot_scal_r. rewrite (symmetric_form n c d w Hsym).
    rewrite (dot_ext n w w _ (fun i => x i - xs i))
      by (intros; try reflexivity; apply Hcd; assumption).
    rewrite (dot_comm n w), dot_minus_l, !(dot_comm n _ w), Hx, Hloss. lra. }
  assert (dot n x s = dot n xs ss + dot n d (mulmv n c d)) as Hsplit.
  { rewrite (dot_ext n d d _ (fun i => x i - xs i))
      by (intros; try reflexivity; apply Hcd; assumption).
    assert (dot n d (fun i => x i - xs i) = dot n d x - dot n d xs) as ->.
    { rewrite (dot_comm n d), dot_minus_l, !(dot_comm n _ d). reflexivity. }
    rewrite Hcross. unfold d. rewrite dot_minus_l.
    rewrite (dot_comm n s x).
    assert (dot n ss x = dot n xs ss) as ->; [|lra].
    rewrite (dot_ext n ss ss x (mulmv n c s))
      by (intros; try reflexivity; symmetry; apply Hs; assumption).
    rewrite (symmetric_form n c ss s Hsym).
    rewrite (dot_ext n s s _ xs) by (intros; try reflexivity; apply Hss).
    assert (dot n s xs = dot n d xs + dot n ss xs) as ->.
    { unfold d. rewrite dot_minus_l. lra. }
    rewrite Hcross, (dot_comm n ss xs). lra. }
  pose proof (posdef_nonneg n c d Hpd) as Hge.
  split; [lra|].
  intros Heq i Hi.
  assert (dot n d (mulmv n c d) = 0) as Hz by lra.
  destruct (zero_or_nonzero n d) as [Hd|Hd].
  - pose proof (Hcd i Hi) as E.
    assert (mulmv n c d i = 0) as E0.
    { unfold mulmv, dot. apply sumR_zero. intros j Hj. rewrite (Hd j Hj). lra. }
    lra.
  - specialize (Hpd d Hd). lra.
Qed.

Lemma central_is_minimizer_witness :
  let k := 1 / dot 2 w_unit (mulmv 2 c_corr w_unit) in
  (forall i, (i < 2)%nat ->
             mulmv 2 c_corr (fun j => k * w_unit j) i
             = central 2 c_corr w_unit 1 i) /\
  dot 2 w_unit (central 2 c_corr w_unit 1) = 1 /\
  forall x s,
    (forall i, (i < 2)%nat -> mulmv 2 c_corr s i = x i) ->
    dot 2 w_unit x = 1 ->
    dot 2 (central 2 c_corr w_unit 1) (fun j => k * w_unit j) <= dot 2 x s /\
    (dot 2 x s = dot 2 (central 2 c_corr w_unit 1) (fun j => k * w_unit j) ->
     forall i, (i < 2)%nat -> x i = central 2 c_corr w_unit 1 i).
Proof.
  apply (central_is_minimizer 2 c_corr w_unit 1).
  - exact symmetric_c_corr.
  - exact posdef_c_corr.
  - apply accepted_nonzero_vec. apply accepted_w_unit. lia.
Defined.

(** X4: row 0 of the matrix that [p_from_w] returns is |w| / norm(w) when
    [np.linalg.qr] keeps its contract. *)
Theorem p_from_w_row0_abs la n w :
  accepted n w -> qr_at la n (p_seed n w) ->
  exists p, p_from_w la n w = Ok p /\
            forall j, (j < n)%nat -> p 0%nat j = Rabs (w j) / norm n w.
Proof.
  intros Hacc Hqr.
  destruct (p_from_w_spec la n w Hacc Hqr) as [p [Hp [_ [_ Hrow]]]].
  exists p. split; [exact Hp|exact Hrow].
Qed.

Lemma p_from_w_row0_abs_witness :
  exists p, p_from_w la_ex 2 w_mixed = Ok p /\
            forall j, (j < 2)%nat -> p 0%nat j = Rabs (w_mixed j) / norm 2 w_mixed.
Proof.
  apply (p_from_w_row0_abs la_ex 2 w_mixed).
  - exact accepted_w_mixed.
  - apply la_ex_qr_at_2.
Defined.

(** ** The three-factor input is a valid input *)

Lemma symmetric_c_diag n : symmetric n c_diag.
Proof.
  intros i j _ _. unfold c_diag. rewrite (Nat.eqb_sym j i).
  destruct (Nat.eqb_spec i j) as [->|]; reflexivity.
Qed.

Lemma posdef_c_diag : posdef 3 c_diag.
Proof.
  intros x [i [Hi Hne]]. unfold dot, mulmv, dot, c_diag. simpl.
  below3 i Hi; nra.
Qed.

Lemma orthonormal_eye n : orthonormal_rows n eye /\ orthonormal_cols n eye.
Proof.
  assert (orthonormal_rows n eye) as H.
  { intros i j Hi Hj. unfold dot.
    rewrite (sumR_eye_l n i (eye j) Hi). unfold eye.
    apply f_equal with (f := fun b : bool => if b then 1 else 0).
    apply Nat.eqb_sym. }
  split; [exact H|]. intros i j Hi Hj. unfold transpose, dot.
  rewrite <- (H i j Hi Hj). unfold dot. apply sumR_ext. intros k _.
  unfold eye. rewrite (Nat.eqb_sym k i), (Nat.eqb_sym k j). reflexivity.
Qed.

Lemma p_seed_w_unit_3 i j :
  (i < 3)%nat -> (j < 3)%nat -> p_seed 3 w_unit i j = eye i j.
Proof.
  intros Hi Hj. unfold p_seed, transpose.
  assert (first_index 3 w_unit = 0%nat) as ->.
  { unfold first_index, nonzero_indices. simpl.
    replace (above_eps w_unit 0) with true; [reflexivity|].
    symmetry. apply above_eps_true. unfold w_unit, vec2.
    rewrite Rabs_right; lra. }
  destruct j as [|j].
  - rewrite p_init_row0, norm_w_unit_3. unfold w_unit, vec2, eye.
    below3 i Hi; simpl; lra.
  - unfold p_init, set_entry, set_row, zeros, eye. simpl.
    destruct j as [|[|j]]; [| |lia]; below3 i Hi; reflexivity.
Qed.

Lemma la_ex_qr_at_seed_3 : qr_at la_ex 3 (p_seed 3 w_unit).
Proof.
  unfold qr_at.
  change (qr la_ex 3 (p_seed 3 w_unit)) with (qr3 (p_seed 3 w_unit)).
  unfold qr3. destruct (Req_EM_T (p_seed 3 w_unit 1%nat 0%nat) 0) as [_|E].
  - destruct (orthonormal_eye 3) as [Hr Hc].
    repeat split; simpl fst; simpl snd; try assumption.
    + intros i j Hi Hj Hji. rewrite p_seed_w_unit_3 by assumption.
      unfold eye. destruct (Nat.eqb_spec i j); [lia|reflexivity].
    + intros i j Hi Hj. unfold mulm. symmetry.
      apply (sumR_eye_l 3 i (fun k => p_seed 3 w_unit k j) Hi).
  - exfalso. apply E. rewrite p_seed_w_unit_3 by lia. reflexivity.
Qed.

(** the example routines keep their contracts on every call of the run on
    covariance diag(1, 4, 1) and weights [1, 0, 0] *)
Lemma la_ex_serves_three p :
  p_from_w la_ex 3 w_unit = Ok p ->
  eig_spec la_ex 2 (cond_cov 3 c_diag p) /\
  solves la_ex 2 (cond_cov 3 c_diag p).
Proof.
  intros Hp. destruct p_from_w_unit_3 as [p' [Hp' Hpe]].
  rewrite Hp in Hp'. injection Hp' as <-.
  pose proof (transformed_cov_identity 3 c_diag p Hpe) as Hdy.
  assert (cond_cov 3 c_diag p 0%nat 0%nat = 4 /\
          cond_cov 3 c_diag p 0%nat 1%nat = 0 /\
          cond_cov 3 c_diag p 1%nat 0%nat = 0 /\
          cond_cov 3 c_diag p 1%nat 1%nat = 1) as [H00 [H01 [H10 H11]]].
  { unfold cond_cov. rewrite !Hdy by lia. unfold c_diag. simpl.
    repeat split; field. }
  split.
  - exists (fun i => cond_cov 3 c_diag p i i), eye.
    split; [reflexivity|]. split; [apply orthonormal_eye|].
    intros k i Hk Hi. unfold mulmv, dot, col, eye. simpl.
    below2 k Hk; below2 i Hi; simpl; rewrite ?H00, ?H01, ?H10, ?H11; lra.
  - apply la_ex_solves_2. unfold det2. rewrite H00, H01, H10, H11. lra.
Qed.

(** The likelihoods of the run on three factors, side by side: 1 for the
    centre, q^(4/13) for the first alternative and q for the last. *)
Example comp_scenarios_three_factors :
  exists scen lik,
    comp_scenarios la_ex 3 c_diag w_unit 1 (1 / 2) 3 = Ok (scen, lik) /\
    lik 0%nat = Fin 1 /\ lik 1%nat = Fin (exp (4 / 13 * ln (1 / 2))) /\
    lik 3%nat = Fin (1 / 2).
Proof.
  destruct run_three_first_alternative as [scen [lik [Hrun H1]]].
  destruct (likelihood_first_last la_ex 2 c_diag w_unit 1 (1 / 2) 3)
    as [scen' [lik' [Hrun' [H0 H3]]]].
  - apply symmetric_c_diag.
  - exact posdef_c_diag.
  - apply accepted_w_unit. lia.
  - apply nonnegative_w_unit.
  - lra.
  - lia.
  - simpl. lia.
  - exact la_ex_qr_at_seed_3.
  - exact la_ex_qr_at_simplex_3.
  - exact la_ex_serves_three.
  - exact la_ex_solves_c_diag.
  - simpl. unfold c_diag. simpl. lra.
  - apply in_exp_range_plain. apply la_ex_range_diag; lra.
  - apply la_ex_range_diag; [lra|exact ln_half].
  - rewrite Hrun in Hrun'. injection Hrun' as <- <-.
    exists scen, lik. repeat split; assumption.
Qed.

(** * Further lemmas *)

Lemma sumR_single n i f :
  (i < n)%nat -> (forall l, (l < n)%nat -> l <> i -> f l = 0) -> sumR n f = f i.
Proof.
  intros Hi H.
  rewrite (sumR_ext n f (fun l => eye i l * f l)).
  - apply (sumR_eye_l n i f Hi).
  - intros l Hl. unfold eye. destruct (Nat.eqb_spec i l) as [->|Hne]; [lra|].
    rewrite H by (try assumption; intros E; apply Hne; symmetry; exact E). lra.
Qed.

(** ** Gram-Schmidt by rows, as the contract of [np.linalg.qr] gives it *)

Lemma gram_schmidt_rows_expand la n x :
  qr_at la n (transpose x) ->
  let gs := gram_schmidt_rows la n x in
  (forall i j, (j < i)%nat -> (i < n)%nat -> dot n (gs i) (x j) = 0) /\
  (forall j k, (j < n)%nat -> (k < n)%nat ->
     x j k = sumR n (fun i => dot n (gs i) (x j) * gs i k)).
Proof.
  unfold qr_at, gram_schmidt_rows. intros Hqr.
  destruct (qr la n (transpose x)) as [q r] eqn:E.
  pose proof (qr_r_entry n _ _ Hqr) as Hr.
  destruct Hqr as [Hc [Hr' [Hu Ha]]]. simpl in *.
  assert (forall i j, (i < n)%nat -> (j < n)%nat ->
            dot n (transpose q i) (x j) = r i j) as Hd.
  { intros i j Hi Hj. rewrite <- (Hr i j Hi Hj). reflexivity. }
  split.
  - intros i j Hji Hi. rewrite Hd by lia. apply Hu; lia.
  - intros j k Hj Hk. specialize (Ha k j Hk Hj).
    unfold transpose in Ha at 1. rewrite Ha. unfold mulm.
    apply sumR_ext. intros i Hi. rewrite Hd by assumption.
    unfold transpose. lra.
Qed.

(** ** The rows of the orthonormalised simplex seed *)

Lemma simplex_seed_row j k : (0 < j)%nat -> simplex_seed j k = eye j k.
Proof.
  intros Hj. unfold simplex_seed, set_row.
  destruct j as [|j]; [lia|]. reflexivity.
Qed.

Lemma dot_simplex_seed m (u : vec) j :
  (0 < j)%nat -> (j < m)%nat -> dot m u (simplex_seed j) = u j.
Proof.
  intros H0 Hj. unfold dot.
  rewrite (sumR_ext m _ (fun k => eye j k * u k)).
  - apply (sumR_eye_l m j u Hj).
  - intros k _. rewrite simplex_seed_row by exact H0. lra.
Qed.

(** below its diagonal, a row has no entry but the one in column 0 *)
Lemma simplex_lower_zero la m i j :
  qr_at la m (transpose simplex_seed) ->
  (0 < j)%nat -> (j < i)%nat -> (i < m)%nat ->
  gram_schmidt_rows la m simplex_seed i j = 0.
Proof.
  intros Hqr H0 Hji Hi.
  destruct (gram_schmidt_rows_expand la m simplex_seed Hqr) as [Hz _].
  rewrite <- (Hz i j Hji Hi). symmetry. apply dot_simplex_seed; lia.
Qed.

(** right of its diagonal, a row repeats its entry in column 0 *)
Lemma simplex_tail_const la m :
  (0 < m)%nat -> qr_at la m (transpose simplex_seed) ->
  forall i c, (i < c)%nat -> (c < m)%nat ->
    gram_schmidt_rows la m simplex_seed i c
    = gram_schmidt_rows la m simplex_seed i 0%nat.
Proof.
  intros Hm Hqr.
  destruct (gram_schmidt_rows_expand la m simplex_seed Hqr) as [Hz Hx].
  cbv zeta in Hz, Hx.
  set (p := gram_schmidt_rows la m simplex_seed) in *.
  induction i as [i IH] using lt_wf_ind. intros c Hic Hc.
  destruct i as [|i'].
  - destruct (simplex_rows la m Hm Hqr) as [_ [_ [_ H0]]]. fold p in H0.
    pose proof (H0 0%nat 0%nat Hm Hm) as E0.
    pose proof (H0 c 0%nat Hc Hm) as Ec.
    assert (0 < INR m) as Hpos by (apply lt_0_INR; exact Hm).
    assert (0 < 1 / INR m) as Hinv.
    { unfold Rdiv. rewrite Rmult_1_l. apply Rinv_0_lt_compat. exact Hpos. }
    assert (p 0%nat 0%nat <> 0) as Hne by (intros E; rewrite E in E0; lra).
    apply (Rmult_eq_reg_r (p 0%nat 0%nat)); [lra|exact Hne].
  - set (i := S i') in *.
    assert (forall k, (i <= k)%nat -> (k < m)%nat ->
              eye i k - eye i 0%nat
              = dot m (p i) (simplex_seed i) * (p i k - p i 0%nat)) as Hdiff.
    { intros k Hik Hk.
      rewrite <- (simplex_seed_row i k) by (unfold i; lia).
      rewrite <- (simplex_seed_row i 0%nat) by (unfold i; lia).
      rewrite (Hx i k) by lia. rewrite (Hx i 0%nat) by lia.
      rewrite <- sumR_minus.
      rewrite (sumR_single m i); [lra|lia|].
      intros l Hl Hne. destruct (Nat.lt_ge_cases l i) as [Hlt|Hge].
      + rewrite (IH l Hlt k) by lia. lra.
      + rewrite (Hz l i) by lia. lra. }
    pose proof (Hdiff i (Nat.le_refl i) ltac:(lia)) as Ei.
    pose proof (Hdiff c ltac:(lia) Hc) as Ec.
    unfold eye in Ei, Ec. rewrite Nat.eqb_refl in Ei.
    replace (i =? 0)%nat with false in Ei, Ec by (symmetry; apply Nat.eqb_neq; unfold i; lia).
    replace (i =? c)%nat with false in Ec by (symmetry; apply Nat.eqb_neq; lia).
    assert (dot m (p i) (simplex_seed i) <> 0) as Hne.
    { intros E. rewrite E in Ei. lra. }
    assert (p i c - p i 0%nat = 0) as E0.
    { apply (Rmult_eq_reg_l (dot m (p i) (simplex_seed i))); [lra|exact Hne]. }
    lra.
Qed.

(** ** The shape of the simplex vertices *)

(** the sign flip of [standard_simplex_vertices] leaves entry (0, 0)
    non-negative *)
Lemma standard_simplex_vertices_sign la M t :
  standard_simplex_vertices la M = Ok t -> 0 <= t 0%nat 0%nat.
Proof.
  unfold standard_simplex_vertices.
  destruct (M <? 0)%Z; [discriminate|].
  destruct (M =? 0)%Z; [discriminate|].
  destruct (M =? 1)%Z; [discriminate|].
  intros H. injection H as <-.
  pose proof (sqrt_pos (IZR M / IZR (M - 1))) as Hs.
  match goal with
  | |- 0 <= (if ?d then _ else _) _ _ * _ => destruct d as [Hlt|Hge]
  end.
  - apply Rmult_le_pos; [lra|exact Hs].
  - apply Rmult_le_pos; [lra|exact Hs].
Qed.

Lemma simplex_structure la M t :
  (2 <= M)%Z -> qr_at la (Z.to_nat M) (transpose simplex_seed) ->
  standard_simplex_vertices la M = Ok t ->
  let m := Z.to_nat M in
  (forall i j, (j < i)%nat -> (i < m - 1)%nat -> t i j = 0) /\
  (forall i j, (i < j)%nat -> (j < m)%nat -> t i j = t i (m - 1)%nat).
Proof.
  intros HM Hqr Ht m.
  destruct (simplex_entries la M HM Hqr) as [s [t' [Hs [Ht' He]]]].
  rewrite Ht in Ht'. injection Ht' as <-. fold m in He. cbv zeta in He.
  assert (0 < m)%nat as Hm by (unfold m; lia).
  split.
  - intros i j Hji Hi. rewrite He by lia.
    unfold cls. destruct (Nat.ltb_spec j (m - 1)) as [_|N]; [|lia].
    rewrite (simplex_lower_zero la m (S i) (j + 1) Hqr) by lia. lra.
  - intros i j Hij Hj. rewrite !He by lia. do 2 f_equal.
    transitivity (gram_schmidt_rows la m simplex_seed (S i) 0%nat).
    + unfold cls. destruct (Nat.ltb_spec j (m - 1)) as [Hlt|_]; [|reflexivity].
      apply (simplex_tail_const la m Hm Hqr); lia.
    + unfold cls. destruct (Nat.ltb_spec (m - 1) (m - 1)) as [N|_]; [lia|].
      reflexivity.
Qed.

(** the first vertex is the first unit vector *)
Lemma simplex_first_vertex la M t :
  (2 <= M)%Z -> qr_at la (Z.to_nat M) (transpose simplex_seed) ->
  standard_simplex_vertices la M = Ok t ->
  forall i, (i < Z.to_nat M - 1)%nat -> t i 0%nat = eye i 0%nat.
Proof.
  intros HM Hqr Ht i Hi.
  destruct (simplex_structure la M t HM Hqr Ht) as [Hlow _].
  destruct i as [|i].
  - pose proof (simplex_unit la M t 0%nat HM Hqr Ht ltac:(lia)) as Hu.
    unfold dot, col in Hu.
    rewrite (sumR_only_first (Z.to_nat M - 1)) in Hu.
    + pose proof (standard_simplex_vertices_sign la M t Ht) as Hs.
      unfold eye. simpl. nra.
    + lia.
    + intros k Hk. rewrite (Hlow k 0%nat) by lia. lra.
  - rewrite (Hlow (S i) 0%nat) by lia. reflexivity.
Qed.

(** ** The order of the eigenvalues *)

Lemma insert_by_sorted vals i l :
  StronglySorted (fun a b => vals a <= vals b) l ->
  StronglySorted (fun a b => vals a <= vals b) (insert_by vals i l).
Proof.
  induction l as [|j l IH]; intros Hs; simpl.
  - constructor; constructor.
  - inversion Hs as [|? ? Hs' Hall]; subst.
    destruct (Rle_dec (vals i) (vals j)) as [Hle|Hgt].
    + constructor; [exact Hs|]. constructor; [exact Hle|].
      rewrite Forall_forall in *. intros b Hb. specialize (Hall b Hb). lra.
    + constructor; [apply IH; exact Hs'|].
      rewrite Forall_forall in *. intros b Hb.
      apply (Permutation_in _ (insert_by_perm vals i l)) in Hb.
      destruct Hb as [<-|Hb]; [lra|apply Hall; exact Hb].
Qed.

Lemma argsort_sorted n vals :
  StronglySorted (fun a b => vals a <= vals b) (argsort n vals).
Proof.
  unfold argsort. induction (seq 0 n) as [|i l IH]; simpl.
  - constructor.
  - apply insert_by_sorted. exact IH.
Qed.

Lemma sorted_nth vals l :
  StronglySorted (fun a b => vals a <= vals b) l ->
  forall a b, (a <= b)%nat -> (b < length l)%nat ->
    vals (nth a l 0%nat) <= vals (nth b l 0%nat).
Proof.
  induction 1 as [|x l Hs IH Hall]; intros a b Hab Hb; simpl in Hb; [lia|].
  destruct a as [|a]; destruct b as [|b]; simpl; try lia; try lra.
  - rewrite Forall_forall in Hall. apply Hall. apply nth_In. lia.
  - apply IH; lia.
Qed.

Lemma argsort_length n vals : length (argsort n vals) = n.
Proof.
  rewrite (Permutation_length (argsort_perm n vals)). apply length_seq.
Qed.

(** [vals.argsort()[::-1]] lists the indices by descending value *)
Lemma sorted_index_descending n vals j k :
  (j <= k)%nat -> (k < n)%nat ->
  vals (nth k (rev (argsort n vals)) 0%nat)
  <= vals (nth j (rev (argsort n vals)) 0%nat).
Proof.
  intros Hjk Hk. pose proof (argsort_length n vals) as Hlen.
  rewrite !rev_nth by lia. rewrite Hlen.
  apply (sorted_nth vals _ (argsort_sorted n vals)); lia.
Qed.

(** ** Quadratic forms along eigenvectors *)

Lemma orthonormal_cols_bilinear n r (V : mat) (a b : vec) :
  orthonormal_cols n V -> (r <= n)%nat ->
  dot n (fun i => sumR r (fun l => V i l * a l))
        (fun i => sumR r (fun l => V i l * b l)) = dot r a b.
Proof.
  intros HV Hr. unfold dot.
  rewrite (sumR_ext n _
    (fun i => sumR r (fun l => sumR r (fun l' =>
                 (a l * b l') * (V i l * V i l'))))).
  2:{ intros i _. rewrite <- sumR_scal_r. apply sumR_ext. intros l _.
      rewrite <- sumR_scal_l. apply sumR_ext. intros l' _. lra. }
  rewrite sumR_swap. apply sumR_ext. intros l Hl.
  rewrite sumR_swap.
  rewrite (sumR_ext r _ (fun l' => eye l l' * (a l * b l'))).
  - rewrite (sumR_eye_l r l (fun l' => a l * b l') Hl). reflexivity.
  - intros l' Hl'. rewrite sumR_scal_l.
    specialize (HV l l'). unfold dot, transpose in HV.
    rewrite HV by lia. lra.
Qed.

(** a positive definite matrix has one solution at most *)
Lemma posdef_injective n a u v :
  posdef n a ->
  (forall i, (i < n)%nat -> mulmv n a u i = mulmv n a v i) ->
  forall i, (i < n)%nat -> u i = v i.
Proof.
  intros Hpd H.
  destruct (zero_or_nonzero n (fun i => u i - v i)) as [H0|Hnz].
  - intros i Hi. specialize (H0 i Hi). simpl in H0. lra.
  - exfalso. specialize (Hpd _ Hnz).
    assert (dot n (fun i => u i - v i) (mulmv n a (fun i => u i - v i)) = 0)
      as E; [|lra].
    unfold dot. apply sumR_zero. intros i Hi.
    rewrite mulmv_minus, (H i Hi). lra.
Qed.

Lemma unit_nonzero n u : dot n u u = 1 -> nonzero_vec n u.
Proof.
  intros H. destruct (zero_or_nonzero n u) as [H0|Hnz]; [|exact Hnz].
  exfalso. assert (dot n u u = 0) as E; [|lra].
  unfold dot. apply sumR_zero. intros i Hi. rewrite (H0 i Hi). lra.
Qed.

(** the eigenvalue of a unit eigenvector of a positive definite matrix *)
Lemma eigenvalue_positive k (A V : mat) (lam : R) l :
  posdef k A -> orthonormal_cols k V ->
  (forall i, (i < k)%nat -> mulmv k A (col V l) i = lam * V i l) ->
  (l < k)%nat -> 0 < lam.
Proof.
  intros Hpd HV He Hl.
  pose proof (HV l l Hl Hl) as Hu. unfold eye in Hu. rewrite Nat.eqb_refl in Hu.
  change (transpose V l) with (col V l) in Hu.
  pose proof (Hpd _ (unit_nonzero k _ Hu)) as Hpos.
  rewrite (dot_ext k (col V l) (col V l) (mulmv k A (col V l))
             (fun i => lam * col V l i)) in Hpos
    by (intros; try reflexivity; apply He; assumption).
  rewrite dot_scal_r, Hu in Hpos. lra.
Qed.

(** x' a^(-1) x of a combination x of orthonormal eigenvectors of [a] *)
Lemma eigen_quadratic_form k r (A V : mat) (lam a u : vec) :
  posdef k A -> orthonormal_cols k V -> (r <= k)%nat ->
  (forall l i, (l < k)%nat -> (i < k)%nat ->
               mulmv k A (col V l) i = lam l * V i l) ->
  (forall i, (i < k)%nat ->
             mulmv k A u i = sumR r (fun l => V i l * a l)) ->
  dot k (fun i => sumR r (fun l => V i l * a l)) u
  = sumR r (fun l => a l * a l / lam l).
Proof.
  intros Hpd HV Hr He Hu.
  assert (forall l, (l < k)%nat -> 0 < lam l) as Hlam.
  { intros l Hl. apply (eigenvalue_positive k A V (lam l) l Hpd HV); try exact Hl.
    intros i Hi. apply He; assumption. }
  set (u' := fun i => sumR r (fun l => V i l * (a l / lam l))).
  assert (forall i, (i < k)%nat -> mulmv k A u' i = mulmv k A u i) as Hsame.
  { intros i Hi. rewrite (Hu i Hi). unfold mulmv, dot, u'.
    rewrite (sumR_ext k _
      (fun j => sumR r (fun l => (a l / lam l) * (A i j * V j l)))).
    2:{ intros j _. rewrite <- sumR_scal_l. apply sumR_ext. intros; lra. }
    rewrite sumR_swap. apply sumR_ext. intros l Hl.
    rewrite sumR_scal_l.
    pose proof (He l i ltac:(lia) Hi) as E. unfold mulmv, dot, col in E.
    rewrite E. pose proof (Hlam l ltac:(lia)). field. lra. }
  pose proof (posdef_injective k A u' u Hpd Hsame) as Heq.
  rewrite (dot_ext k _ (fun i => sumR r (fun l => V i l * a l)) u u')
    by (intros; try reflexivity; symmetry; apply Heq; assumption).
  unfold u'. rewrite (orthonormal_cols_bilinear k r V a _ HV Hr).
  unfold dot. apply sumR_ext. intros l Hl. unfold Rdiv. lra.
Qed.

(** ** The quadratic forms of the simplex directions *)

Lemma inv_le_inv a b : 0 < a -> a <= b -> / b <= / a.
Proof.
  intros Ha Hab. apply Rinv_le_contravar; assumption.
Qed.

(** with eigenvalues in descending order the quadratic form of the vertices
    grows with the index of the vertex, and the last two vertices have the
    same *)
Lemma simplex_form_order r (t : mat) (lam : vec) :
  (forall i j, (j < i)%nat -> (i < r)%nat -> t i j = 0) ->
  (forall i j, (i < j)%nat -> (j <= r)%nat -> t i j = t i r) ->
  (forall j, (j <= r)%nat -> dot r (col t j) (col t j) = 1) ->
  (forall l, (l < r)%nat -> 0 < lam l) ->
  (forall l l', (l <= l')%nat -> (l' < r)%nat -> lam l' <= lam l) ->
  forall j j', (j < j')%nat -> (j' <= r)%nat ->
    sumR r (fun l => t l j * t l j / lam l)
    <= sumR r (fun l => t l j' * t l j' / lam l) /\
    (S j = r ->
     sumR r (fun l => t l j * t l j / lam l)
     = sumR r (fun l => t l j' * t l j' / lam l)).
Proof.
  intros Hlow Htail Hunit Hpos Hdesc j j' Hjj Hj'.
  assert (j < r)%nat as Hj by lia.
  pose proof (Hpos j Hj) as Hlj.
  assert (sumR r (fun l => t l j' * t l j' / lam l)
          - sumR r (fun l => t l j * t l j / lam l)
          = sumR r (fun l => (t l j' * t l j' - t l j * t l j)
                             * (/ lam l - / lam j))) as E.
  { rewrite <- sumR_minus.
    transitivity (sumR r (fun l => (t l j' * t l j' - t l j * t l j)
                                   * (/ lam l - / lam j))
                  + / lam j * (dot r (col t j') (col t j')
                               - dot r (col t j) (col t j))).
    - unfold dot, col. rewrite <- sumR_minus, <- sumR_scal_l, <- sumR_plus.
      apply sumR_ext. intros l Hl. unfold Rdiv. lra.
    - rewrite !Hunit by lia. lra. }
  assert (forall l, (l < j)%nat -> t l j' = t l j) as Hbefore.
  { intros l Hl. rewrite (Htail l j) by lia.
    destruct (Nat.eq_dec j' r) as [->|Hne]; [reflexivity|].
    apply Htail; lia. }
  assert (forall l, (l < r)%nat ->
            0 <= (t l j' * t l j' - t l j * t l j) * (/ lam l - / lam j))
    as Hterm.
  { intros l Hl. destruct (Nat.lt_trichotomy l j) as [Hlt|[->|Hgt]].
    - rewrite (Hbefore l Hlt). lra.
    - lra.
    - rewrite (Hlow l j) by lia.
      pose proof (inv_le_inv (lam l) (lam j) (Hpos l Hl)
                    (Hdesc j l ltac:(lia) Hl)).
      apply Rmult_le_pos; [nra|lra]. }
  split.
  - pose proof (sumR_nonneg r _ Hterm). lra.
  - intros Hlast.
    assert (sumR r (fun l => (t l j' * t l j' - t l j * t l j)
                             * (/ lam l - / lam j)) = 0) as E0; [|lra].
    apply sumR_zero. intros l Hl.
    destruct (Nat.lt_trichotomy l j) as [Hlt|[->|Hgt]]; [| |lia].
    + rewrite (Hbefore l Hlt). lra.
    + lra.
Qed.

Lemma simplex_form_pos r (t : mat) (lam : vec) j :
  dot r (col t j) (col t j) = 1 ->
  (forall l, (l < r)%nat -> 0 < lam l) ->
  0 < sumR r (fun l => t l j * t l j / lam l).
Proof.
  intros Hunit Hpos.
  assert (forall l, (l < r)%nat -> 0 <= t l j * t l j / lam l) as Hterm.
  { intros l Hl. pose proof (Hpos l Hl).
    apply Rmult_le_pos; [nra|]. left. apply Rinv_0_lt_compat. assumption. }
  pose proof (sumR_nonneg r _ Hterm) as Hge.
  destruct (Req_dec (sumR r (fun l => t l j * t l j / lam l)) 0) as [E|Hne];
    [|lra].
  exfalso. pose proof (sumR_nonneg_zero r _ Hterm E) as Hz.
  assert (dot r (col t j) (col t j) = 0) as E0; [|lra].
  unfold dot, col. apply sumR_zero. intros l Hl.
  specialize (Hz l Hl). pose proof (Hpos l Hl) as Hl0. simpl in Hz.
  unfold Rdiv in Hz. apply Rmult_integral in Hz. destruct Hz as [Hz|Hz].
  - exact Hz.
  - pose proof (Rinv_0_lt_compat _ Hl0). lra.
Qed.

(** ** The stages of a run on a valid input *)

Lemma run_stages la k c w M :
  symmetric (S k) c -> posdef (S k) c -> accepted (S k) w ->
  (2 <= M)%Z -> (Z.to_nat M <= S k)%nat ->
  library_contracts la (S k) c w M ->
  exists p vals vect t tau,
    (p_from_w la (S k) w = Ok p /\
     orthonormal_rows (S k) p /\ orthonormal_cols (S k) p /\
     forall j, (j < S k)%nat -> p 0%nat j = abs_normalized (S k) w j) /\
    (eig la k (cond_cov (S k) c p) = Ok (vals, vect) /\
     orthonormal_cols k vect /\
     forall l i, (l < k)%nat -> (i < k)%nat ->
       mulmv k (cond_cov (S k) c p) (col vect l) i = vals l * vect i l) /\
    standard_simplex_vertices la M = Ok t /\
    (forall i, (i < k)%nat ->
       mulmv k (cond_cov (S k) c p) tau i
       = directions (S k) (Z.to_nat M) vals vect t i (Z.to_nat M - 1)%nat) /\
    forall L q, exists pdfs,
      comp_scenarios la (S k) c w L q M
      = Ok (scenarios_of (S k) c w L p
              (sqrt (-2 * ln q
                     / dot k (col (directions (S k) (Z.to_nat M) vals vect t)
                                  (Z.to_nat M - 1)%nat) tau))
              (directions (S k) (Z.to_nat M) vals vect t),
            fun j => fdiv (pdfs j) (pdfs 0%nat)) /\
      forall j, (j < Z.to_nat M + 1)%nat ->
        exists s,
          (forall i, (i < S k)%nat ->
             mulmv (S k) c s i
             = col (scenarios_of (S k) c w L p
                      (sqrt (-2 * ln q
                             / dot k (col (directions (S k) (Z.to_nat M)
                                             vals vect t)
                                          (Z.to_nat M - 1)%nat) tau))
                      (directions (S k) (Z.to_nat M) vals vect t)) j i) /\
          pdfs j
          = np_exp
              (log_density (S k) (det la (S k) c)
                 (dot (S k)
                    (col (scenarios_of (S k) c w L p
                            (sqrt (-2 * ln q
                                   / dot k (col (directions (S k) (Z.to_nat M)
                                                   vals vect t)
                                                (Z.to_nat M - 1)%nat) tau))
                            (directions (S k) (Z.to_nat M) vals vect t)) j)
                    s)).
Proof.
  intros Hsym Hpd Hacc HM Hmn [Hqr1 [Hqr2 [Hlib [Hsolve Hdet]]]].
  replace (S k - 1)%nat with k in Hlib by lia.
  destruct (p_from_w_spec la (S k) w Hacc Hqr1)
    as [p [Hp [Hrows [Hcols Hrow0]]]].
  destruct (Hlib p Hp) as [[vals [vect [Heig [HV Heq]]]] Hsolveh].
  destruct (standard_simplex_vertices_ok la M HM) as [sg [t [_ [Ht _]]]].
  set (m := Z.to_nat M) in *.
  set (z := directions (S k) m vals vect t).
  destruct (Hsolveh (col z (m - 1)%nat)) as [tau [Htau Htausol]].
  exists p, vals, vect, t, tau.
  split; [repeat split; assumption|].
  split; [repeat split; assumption|].
  split; [exact Ht|].
  split; [exact Htausol|].
  intros L q.
  set (r := sqrt (-2 * ln q / dot k (col z (m - 1)%nat) tau)).
  set (scen := scenarios_of (S k) c w L p r z).
  destruct (collect_ok (m + 1)
              (fun j => multivariate_normal_pdf la (S k) (col scen j) c))
    as [pdfs [Hcol Hpdfs]].
  { intros j _. unfold multivariate_normal_pdf.
    destruct (Hsolve (col scen j)) as [s [-> _]]. simpl.
    eexists. reflexivity. }
  exists pdfs. split.
  { apply comp_scenarios_run; replace (S k - 1)%nat with k by lia;
      try assumption; try (fold m; lia).
    fold m. fold z. unfold quadratic_form_inv. rewrite Htau. reflexivity. }
  intros j Hj. destruct (pdf_inv _ _ _ _ _ (Hpdfs j Hj)) as [s [Hs Hv]].
  destruct (Hsolve (col scen j)) as [s' [Hs' Hsol]].
  rewrite Hs in Hs'. injection Hs' as <-. exists s. split; assumption.
Qed.

(** ** Eigenvectors in sorted order *)

Lemma sorted_eigen k (A : mat) vals vect :
  (forall l i, (l < k)%nat -> (i < k)%nat ->
               mulmv k A (col vect l) i = vals l * vect i l) ->
  forall l i, (l < k)%nat -> (i < k)%nat ->
    mulmv k A (col (sorted_vectors k vals vect) l) i
    = sorted_values k vals l * sorted_vectors k vals vect i l.
Proof.
  intros He l i Hl Hi.
  exact (He _ i (sorted_index_lt k vals l Hl) Hi).
Qed.

Lemma sorted_values_pos k (A : mat) vals vect :
  posdef k A -> orthonormal_cols k vect ->
  (forall l i, (l < k)%nat -> (i < k)%nat ->
               mulmv k A (col vect l) i = vals l * vect i l) ->
  forall l, (l < k)%nat -> 0 < sorted_values k vals l.
Proof.
  intros Hpd HV He l Hl.
  apply (eigenvalue_positive k A (sorted_vectors k vals vect) _ l Hpd).
  - apply sorted_vectors_orthonormal. exact HV.
  - intros i Hi. apply sorted_eigen; assumption.
  - exact Hl.
Qed.

(** x' a^(-1) x of a multiple of direction [j] *)
Lemma directions_form n m (A : mat) vals vect t j a u :
  posdef (n - 1) A -> orthonormal_cols (n - 1) vect ->
  (forall l i, (l < n - 1)%nat -> (i < n - 1)%nat ->
               mulmv (n - 1) A (col vect l) i = vals l * vect i l) ->
  (m - 1 <= n - 1)%nat ->
  (forall i, (i < n - 1)%nat ->
     mulmv (n - 1) A u i = a * directions n m vals vect t i j) ->
  dot (n - 1) (fun i => a * directions n m vals vect t i j) u
  = a * a * sumR (m - 1)
              (fun l => t l j * t l j / sorted_values (n - 1) vals l).
Proof.
  intros Hpd HV He Hm Hu.
  assert (forall i, a * directions n m vals vect t i j
                    = sumR (m - 1) (fun l => sorted_vectors (n - 1) vals vect i l
                                             * (a * t l j))) as Hd.
  { intros i. unfold directions, mulm. rewrite <- sumR_scal_l.
    apply sumR_ext. intros; lra. }
  rewrite (dot_ext (n - 1) _
             (fun i => sumR (m - 1)
                         (fun l => sorted_vectors (n - 1) vals vect i l
                                   * (a * t l j))) u u)
    by (intros; try reflexivity; apply Hd).
  rewrite (eigen_quadratic_form (n - 1) (m - 1) A
             (sorted_vectors (n - 1) vals vect)
             (sorted_values (n - 1) vals) (fun l => a * t l j) u Hpd).
  - rewrite <- sumR_scal_l. apply sumR_ext. intros l Hl. unfold Rdiv. lra.
  - apply sorted_vectors_orthonormal. exact HV.
  - exact Hm.
  - apply sorted_eigen. exact He.
  - intros i Hi. rewrite (Hu i Hi). apply Hd.
Qed.

(** ** Distances between scenarios *)

Lemma directions_dist2 n m vals vect t j j' :
  orthonormal_cols (n - 1) vect -> (m - 1 <= n - 1)%nat ->
  dist2 (n - 1) (col (directions n m vals vect t) j)
                (col (directions n m vals vect t) j')
  = dist2 (m - 1) (col t j) (col t j').
Proof.
  intros HV Hm. unfold dist2.
  rewrite <- (orthonormal_cols_isometry (n - 1) (m - 1)
                (sorted_vectors (n - 1) vals vect)
                (fun l => col t j l - col t j' l)
                (sorted_vectors_orthonormal _ vals vect HV) Hm).
  apply dot_ext; intros i Hi; unfold directions, col, mulm;
    rewrite <- sumR_minus; apply sumR_ext; intros; lra.
Qed.

(** rotating back by [p.T] keeps distances *)
Lemma scenarios_dist2 n c w L p r z a b :
  orthonormal_rows n p ->
  let ahy := cond_mean n c p w L in
  let df := transformed_scenarios (mulmv n p (central n c w L) 0%nat) ahy
              (fun i j => r * z i j + ahy i) in
  dist2 n (col (scenarios_of n c w L p r z) a)
          (col (scenarios_of n c w L p r z) b)
  = dist2 n (col df a) (col df b).
Proof.
  intros Hrows ahy df. unfold dist2.
  rewrite <- (orthonormal_cols_isometry n n (transpose p)
                (fun l => col df a l - col df b l)).
  - apply dot_ext; intros i Hi; unfold scenarios_of, col, mulm;
      fold ahy; fold df; rewrite <- sumR_minus; apply sumR_ext; intros; lra.
  - exact Hrows.
  - lia.
Qed.

Lemma dist2_scal n a (u v : vec) :
  dist2 n (fun i => a * u i) (fun i => a * v i) = a * a * dist2 n u v.
Proof.
  unfold dist2, dot. rewrite <- sumR_scal_l. apply sumR_ext. intros; lra.
Qed.

(** the squared distance of two columns of [df] *)
Lemma transformed_dist2_centre k fc (ahy : vec) r (z : mat) j :
  dist2 (S k) (col (transformed_scenarios fc ahy
                      (fun i j => r * z i j + ahy i)) 0%nat)
              (col (transformed_scenarios fc ahy
                      (fun i j => r * z i j + ahy i)) (S j))
  = r * r * dot k (col z j) (col z j).
Proof.
  unfold dist2, dot. rewrite sumR_first. unfold col, transformed_scenarios.
  rewrite <- sumR_scal_l.
  transitivity (0 + sumR k (fun i => r * r * (z i j * z i j))); [|lra].
  f_equal; [lra|]. apply sumR_ext. intros; lra.
Qed.

Lemma transformed_dist2_alternatives k fc (ahy : vec) r (z : mat) j j' :
  dist2 (S k) (col (transformed_scenarios fc ahy
                      (fun i j => r * z i j + ahy i)) (S j))
              (col (transformed_scenarios fc ahy
                      (fun i j => r * z i j + ahy i)) (S j'))
  = r * r * dist2 k (col z j) (col z j').
Proof.
  unfold dist2, dot. rewrite sumR_first. unfold col, transformed_scenarios.
  rewrite <- sumR_scal_l.
  transitivity (0 + sumR k (fun i => r * r * ((z i j - z i j') * (z i j - z i j'))));
    [|lra].
  f_equal; [lra|]. apply sumR_ext. intros; lra.
Qed.

Lemma directions_length_S k m vals vect t j :
  orthonormal_cols k vect -> (m - 1 <= k)%nat ->
  dot k (col (directions (S k) m vals vect t) j)
        (col (directions (S k) m vals vect t) j)
  = dot (m - 1) (col t j) (col t j).
Proof.
  intros HV Hm. pose proof (directions_length (S k) m vals vect t j) as H.
  replace (S k - 1)%nat with k in H by lia. apply H; assumption.
Qed.

Lemma directions_dist2_S k m vals vect t j j' :
  orthonormal_cols k vect -> (m - 1 <= k)%nat ->
  dist2 k (col (directions (S k) m vals vect t) j)
          (col (directions (S k) m vals vect t) j')
  = dist2 (m - 1) (col t j) (col t j').
Proof.
  intros HV Hm. pose proof (directions_dist2 (S k) m vals vect t j j') as H.
  replace (S k - 1)%nat with k in H by lia. apply H; assumption.
Qed.

Lemma directions_form_S k m (A : mat) vals vect t j a u :
  posdef k A -> orthonormal_cols k vect ->
  (forall l i, (l < k)%nat -> (i < k)%nat ->
               mulmv k A (col vect l) i = vals l * vect i l) ->
  (m - 1 <= k)%nat ->
  (forall i, (i < k)%nat ->
     mulmv k A u i = a * directions (S k) m vals vect t i j) ->
  dot k (fun i => a * directions (S k) m vals vect t i j) u
  = a * a * sumR (m - 1) (fun l => t l j * t l j / sorted_values k vals l).
Proof.
  intros Hpd HV He Hm Hu.
  pose proof (directions_form (S k) m A vals vect t j a u) as H.
  replace (S k - 1)%nat with k in H by lia. apply H; assumption.
Qed.

(** ** The geometry of the scenarios of a run *)

Lemma run_geometry la k c w M :
  symmetric (S k) c -> posdef (S k) c -> accepted (S k) w ->
  (2 <= M)%Z -> (Z.to_nat M <= S k)%nat ->
  library_contracts la (S k) c w M ->
  exists denom, 0 < denom /\
    forall L q, exists scen lik,
      comp_scenarios la (S k) c w L q M = Ok (scen, lik) /\
      (forall j, (j < Z.to_nat M)%nat ->
         dist2 (S k) (col scen 0%nat) (col scen (S j))
         = sqrt (-2 * ln q / denom) * sqrt (-2 * ln q / denom)) /\
      (forall j j', (j < Z.to_nat M)%nat -> (j' < Z.to_nat M)%nat -> j <> j' ->
         dist2 (S k) (col scen (S j)) (col scen (S j'))
         = sqrt (-2 * ln q / denom) * sqrt (-2 * ln q / denom)
           * (2 * IZR M / (IZR M - 1))).
Proof.
  intros Hsym Hpd Hacc HM Hmn Hlib.
  destruct (run_stages la k c w M Hsym Hpd Hacc HM Hmn Hlib)
    as [p [vals [vect [t [tau [[Hp [Hrows [Hcols Hrow0]]]
                               [[Heig [HV Heq]] [Ht [Htau Hrun]]]]]]]]].
  destruct Hlib as [_ [Hqr2 _]].
  set (m := Z.to_nat M) in *.
  set (z := directions (S k) m vals vect t) in *.
  assert (forall j, (j < m)%nat -> dot k (col z j) (col z j) = 1) as Hunit.
  { intros j Hj. unfold z. rewrite directions_length_S by (try assumption; lia).
    apply (simplex_unit la M t j HM Hqr2 Ht). exact Hj. }
  exists (dot k (col z (m - 1)%nat) tau). split.
  { apply (denom_pos k c p _ tau Hsym Hpd Hrows).
    - apply Hunit. lia.
    - exact Htau. }
  intros L q. destruct (Hrun L q) as [pdfs [Hok _]].
  eexists. eexists. split; [exact Hok|].
  set (r := sqrt (-2 * ln q / dot k (col z (m - 1)%nat) tau)).
  split.
  - intros j Hj. rewrite (scenarios_dist2 (S k) c w L p r z 0%nat (S j) Hrows).
    rewrite transformed_dist2_centre. rewrite (Hunit j Hj). lra.
  - intros j j' Hj Hj' Hne.
    rewrite (scenarios_dist2 (S k) c w L p r z (S j) (S j') Hrows).
    rewrite transformed_dist2_alternatives. f_equal.
    unfold z. rewrite directions_dist2_S by (try assumption; lia).
    apply (simplex_dist2 la M t j j' HM Hqr2 Ht Hj Hj' Hne).
Qed.

(** ** The likelihood of each scenario of a run *)

Lemma ln_nonpos q : 0 < q <= 1 -> ln q <= 0.
Proof.
  intros [H0 [H1| ->]]; [left; apply ln_neg; lra|rewrite ln_1; lra].
Qed.

Lemma run_log_densities la k c w M :
  symmetric (S k) c -> posdef (S k) c ->
  accepted (S k) w -> nonnegative (S k) w ->
  (2 <= M)%Z -> (Z.to_nat M <= S k)%nat ->
  library_contracts la (S k) c w M ->
  exists rho : vec,
    (forall j, (j < Z.to_nat M)%nat -> 0 < rho j) /\
    (forall j j', (j <= j')%nat -> (j' < Z.to_nat M)%nat -> rho j <= rho j') /\
    rho (Z.to_nat M - 2)%nat = rho (Z.to_nat M - 1)%nat /\
    forall L q, 0 < q <= 1 ->
      exists scen lik,
        comp_scenarios la (S k) c w L q M = Ok (scen, lik) /\
        lik 0%nat
        = fdiv (np_exp (log_density (S k) (det la (S k) c)
                          (L * L / dot (S k) w (mulmv (S k) c w))))
               (np_exp (log_density (S k) (det la (S k) c)
                          (L * L / dot (S k) w (mulmv (S k) c w)))) /\
        forall j, (j < Z.to_nat M)%nat ->
          lik (S j)
          = fdiv (np_exp (log_density (S k) (det la (S k) c)
                            (L * L / dot (S k) w (mulmv (S k) c w))
                          + ln q * (rho j / rho (Z.to_nat M - 1)%nat)))
                 (np_exp (log_density (S k) (det la (S k) c)
                            (L * L / dot (S k) w (mulmv (S k) c w)))).
Proof.
  intros Hsym Hpd Hacc Hnn HM Hmn Hlib.
  destruct (run_stages la k c w M Hsym Hpd Hacc HM Hmn Hlib)
    as [p [vals [vect [t [tau [[Hp [Hrows [Hcols Hrow0]]]
                               [[Heig [HV Heq]] [Ht [Htau Hrun]]]]]]]]].
  destruct Hlib as [_ [Hqr2 [_ [_ Hdet]]]].
  assert (forall j, (j < S k)%nat -> p 0%nat j = normalized (S k) w j) as H0.
  { intros j Hj. rewrite (Hrow0 j Hj).
    apply abs_normalized_of_nonnegative; assumption. }
  set (m := Z.to_nat M) in *.
  assert (2 <= m)%nat as Hm2 by (unfold m; lia).
  set (z := directions (S k) m vals vect t) in *.
  pose proof (cond_cov_posdef k c p Hsym Hpd Hrows) as Hpdh.
  set (lam := sorted_values k vals).
  assert (forall l, (l < k)%nat -> 0 < lam l) as Hlam.
  { apply (sorted_values_pos k (cond_cov (S k) c p) vals vect Hpdh HV Heq). }
  set (rho := fun j => sumR (m - 1) (fun l => t l j * t l j / lam l)).
  destruct (simplex_structure la M t HM Hqr2 Ht) as [Hlow Htail].
  fold m in Hlow, Htail.
  assert (forall j, (j <= m - 1)%nat ->
            dot (m - 1) (col t j) (col t j) = 1) as Hunit.
  { intros j Hj. apply (simplex_unit la M t j HM Hqr2 Ht). fold m. lia. }
  assert (forall j j', (j < j')%nat -> (j' <= m - 1)%nat ->
            rho j <= rho j' /\
            (S j = (m - 1)%nat -> rho j = rho j')) as Hord.
  { intros j j' Hjj Hj'.
    apply (simplex_form_order (m - 1) t lam); try assumption.
    - intros i j0 Hij Hj0. apply Htail; lia.
    - intros l Hl. apply Hlam. lia.
    - intros l l' Hll Hl'.
      apply (sorted_index_descending k vals l l'); lia. }
  assert (forall j, (j < m)%nat -> 0 < rho j) as Hrho.
  { intros j Hj. apply simplex_form_pos; [apply Hunit; lia|].
    intros l Hl. apply Hlam. lia. }
  assert (forall j j', (j <= j')%nat -> (j' < m)%nat -> rho j <= rho j')
    as Hmono.
  { intros j j' Hjj Hj'.
    destruct (Nat.eq_dec j j') as [->|Hne]; [lra|].
    apply Hord; lia. }
  exists rho. split; [exact Hrho|]. split; [exact Hmono|]. split.
  - apply Hord; lia.
  - intros L q Hq. destruct (Hrun L q) as [pdfs [Hok Hval]].
    pose proof (accepted_nonzero_vec _ _ Hacc) as Hw.
    pose proof (posdef_weights _ _ _ Hpd Hacc) as Hwcw.
    set (m0 := L * L / dot (S k) w (mulmv (S k) c w)) in *.
    set (lp0 := log_density (S k) (det la (S k) c) m0) in *.
    set (denom := dot k (col z (m - 1)%nat) tau) in *.
    assert (denom = rho (m - 1)%nat) as Hden.
    { pose proof (directions_form_S k m (cond_cov (S k) c p) vals vect t
                    (m - 1) 1 tau Hpdh HV Heq ltac:(lia)) as E.
      fold z in E. unfold denom, rho.
      rewrite (dot_ext k (col z (m - 1)%nat) (fun i => 1 * z i (m - 1)%nat)
                 tau tau) by (intros; unfold col; lra).
      rewrite E; [fold lam; lra|].
      intros i Hi. rewrite (Htau i Hi). fold z. lra. }
    assert (0 < rho (m - 1)%nat) as Hrpos.
    { apply simplex_form_pos; [apply Hunit; lia|].
      intros l Hl. apply Hlam. lia. }
    set (r := sqrt (-2 * ln q / denom)) in *.
    assert (r * r = -2 * ln q / rho (m - 1)%nat) as Hrr.
    { unfold r. rewrite Hden. apply sqrt_sqrt. pose proof (ln_nonpos q Hq).
      apply Rmult_le_pos; [lra|]. left. apply Rinv_0_lt_compat. exact Hrpos. }
    set (scen := scenarios_of (S k) c w L p r z) in *.
    eexists. eexists. split; [exact Hok|].
    destruct (Hval 0%nat) as [s0 [Hs0 Hv0]]; [lia|].
    destruct (scenario_maha k c w L p r z 0%nat s0
                Hsym Hpd Hrows Hcols Hacc H0 Hs0) as [Hm0 _].
    cbv zeta in Hm0.
    rewrite (dot_ext k _ (fun _ => 0) _ (tail (mulmv (S k) p s0))) in Hm0
      by (intros; try reflexivity; unfold transformed_scenarios; lra).
    assert (dot k (fun _ => 0) (tail (mulmv (S k) p s0)) = 0) as Ez.
    { unfold dot. apply sumR_zero. intros; lra. }
    rewrite Ez in Hm0. clear Ez.
    rewrite (first_coordinate_form (S k) c w L p Hw Hwcw H0) in Hm0.
    fold m0 in Hm0. rewrite Rplus_0_r in Hm0.
    fold scen in Hm0. rewrite Hm0 in Hv0. fold lp0 in Hv0.
    split.
    { cbv beta. rewrite Hv0. reflexivity. }
    intros j Hj.
    destruct (Hval (S j)) as [sj [Hsj Hvj]]; [lia|].
    destruct (scenario_maha k c w L p r z (S j) sj
                Hsym Hpd Hrows Hcols Hacc H0 Hsj) as [Hmj Hsolj].
    cbv zeta in Hmj, Hsolj.
    set (sI := tail (mulmv (S k) p sj)) in *.
    assert (forall i, transformed_scenarios
                        (mulmv (S k) p (central (S k) c w L) 0%nat)
                        (cond_mean (S k) c p w L)
                        (fun i j => r * z i j + cond_mean (S k) c p w L i)
                        (S i) (S j) - cond_mean (S k) c p w L i
                      = r * z i j) as Hd.
    { intros i. unfold transformed_scenarios. lra. }
    rewrite (dot_ext k _ (fun i => r * z i j) sI sI) in Hmj
      by (intros; try reflexivity; apply Hd).
    pose proof (directions_form_S k m (cond_cov (S k) c p) vals vect t
                  j r sI Hpdh HV Heq ltac:(lia)) as E.
    fold z in E. rewrite E in Hmj.
    2:{ intros i Hi. rewrite (Hsolj i Hi). apply Hd. }
    fold lam in Hmj. fold (rho j) in Hmj.
    rewrite (first_coordinate_form (S k) c w L p Hw Hwcw H0) in Hmj.
    fold m0 in Hmj. fold scen in Hmj.
    cbv beta. rewrite Hvj, Hv0, Hmj. rewrite log_density_shift. fold lp0.
    rewrite Hrr.
    replace (lp0 - -2 * ln q / rho (m - 1)%nat * rho j / 2)
      with (lp0 + ln q * (rho j / rho (m - 1)%nat)) by (field; lra).
    reflexivity.
Qed.

(** inside the range of [np.exp] the quotients are real numbers *)
Lemma run_likelihood la k c w M :
  symmetric (S k) c -> posdef (S k) c ->
  accepted (S k) w -> nonnegative (S k) w ->
  (2 <= M)%Z -> (Z.to_nat M <= S k)%nat ->
  library_contracts la (S k) c w M ->
  exists rho : vec,
    (forall j, (j < Z.to_nat M)%nat -> 0 < rho j) /\
    (forall j j', (j <= j')%nat -> (j' < Z.to_nat M)%nat -> rho j <= rho j') /\
    rho (Z.to_nat M - 2)%nat = rho (Z.to_nat M - 1)%nat /\
    forall L q, 0 < q <= 1 ->
      in_exp_range (log_density (S k) (det la (S k) c)
                      (L * L / dot (S k) w (mulmv (S k) c w))) ->
      in_exp_range (log_density (S k) (det la (S k) c)
                      (L * L / dot (S k) w (mulmv (S k) c w)) + ln q) ->
      exists scen lik,
        comp_scenarios la (S k) c w L q M = Ok (scen, lik) /\
        lik 0%nat = Fin 1 /\
        forall j, (j < Z.to_nat M)%nat ->
          lik (S j) = Fin (exp (ln q * (rho j / rho (Z.to_nat M - 1)%nat))).
Proof.
  intros Hsym Hpd Hacc Hnn HM Hmn Hlib.
  destruct (run_log_densities la k c w M Hsym Hpd Hacc Hnn HM Hmn Hlib)
    as [rho [Hrho [Hmono [Heq Hrun]]]].
  exists rho. split; [exact Hrho|]. split; [exact Hmono|].
  split; [exact Heq|].
  intros L q Hq Hr0 Hrq.
  destruct (Hrun L q Hq) as [scen [lik [Hok [H0 Hlik]]]].
  exists scen, lik. split; [exact Hok|].
  set (lp0 := log_density (S k) (det la (S k) c)
                (L * L / dot (S k) w (mulmv (S k) c w))) in *.
  split.
  - rewrite H0, (fdiv_exp lp0 lp0 Hr0 Hr0 (Rle_refl _)).
    replace (lp0 - lp0) with 0 by lra. rewrite exp_0. reflexivity.
  - intros j Hj. rewrite (Hlik j Hj).
    pose proof (Hrho j Hj) as Hpj.
    pose proof (Hrho (Z.to_nat M - 1)%nat ltac:(lia)) as Hrpos.
    pose proof (Hmono j (Z.to_nat M - 1)%nat ltac:(lia) ltac:(lia)) as Hle.
    pose proof (ln_nonpos q Hq) as Hln.
    assert (0 <= rho j / rho (Z.to_nat M - 1)%nat <= 1) as [Hr0' Hr1'].
    { split.
      - apply Rmult_le_pos; [lra|]. left. apply Rinv_0_lt_compat. exact Hrpos.
      - apply (Rmult_le_reg_r (rho (Z.to_nat M - 1)%nat)); [exact Hrpos|].
        unfold Rdiv. rewrite Rmult_assoc, Rinv_l by lra. lra. }
    rewrite fdiv_exp.
    + f_equal. f_equal. lra.
    + apply (in_exp_range_between (lp0 + ln q) lp0); try assumption.
      split; nra.
    + exact Hr0.
    + nra.
Qed.

(** below the range of [np.exp] every density is 0.0, above it the first
    density is inf: the quotients are nan *)
Lemma fdiv_underflow a b :
  a <= b -> b < exp_underflow -> fdiv (np_exp a) (np_exp b) = NaN.
Proof.
  intros Hab Hb. unfold np_exp.
  destruct (Rlt_dec a exp_underflow) as [_|H]; [|lra].
  destruct (Rlt_dec b exp_underflow) as [_|H]; [|lra].
  unfold fdiv. destruct (Req_EM_T 0 0) as [_|H]; [|lra].
  destruct (Rlt_dec 0 0) as [H|_]; [lra|]. reflexivity.
Qed.

Lemma fdiv_overflow b :
  exp_overflow <= b -> fdiv (np_exp b) (np_exp b) = NaN.
Proof.
  intros Hb. pose proof ln_2_gt_half as H2. unfold np_exp.
  destruct (Rlt_dec b exp_underflow) as [H|_];
    [unfold exp_underflow, exp_overflow in *; lra|].
  destruct (Rle_dec exp_overflow b) as [_|H]; [|lra]. reflexivity.
Qed.

(** ** The example routines keep their contracts *)

Lemma la_ex_contracts_2 :
  library_contracts la_ex 2 c_corr w_unit 2.
Proof.
  split; [apply la_ex_qr_at_2|]. split; [apply la_ex_qr_at_2|].
  split; [|split].
  - apply la_ex_serves_2.
    + exact symmetric_c_corr.
    + exact posdef_c_corr.
    + apply accepted_w_unit. lia.
  - apply la_ex_solves_2. rewrite det2_c_corr. lra.
  - simpl. rewrite det2_c_corr. lra.
Qed.

Lemma la_ex_contracts_3 :
  library_contracts la_ex 3 c_diag w_unit 3.
Proof.
  split; [exact la_ex_qr_at_seed_3|]. split; [exact la_ex_qr_at_simplex_3|].
  split; [|split].
  - exact la_ex_serves_three.
  - exact la_ex_solves_c_diag.
  - simpl. unfold c_diag. simpl. lra.
Qed.

Lemma contracts_returns la n c w M :
  library_contracts la n c w M -> library_returns la n c w.
Proof.
  intros [_ [_ [Hlib [Hsolve _]]]]. split.
  - intros p Hp. destruct (Hlib p Hp) as [[vals [vect [He _]]] Hs].
    split; [eexists; exact He|apply solves_returns; exact Hs].
  - apply solves_returns. exact Hsolve.
Qed.

(** * Further properties of the notebook *)

(** ** The loss of the scenarios *)

(** X2: for a valid input with no negative weight, every scenario has the
    target loss. *)
Theorem comp_scenarios_loss_nonnegative la n c w L q M :
  symmetric n c -> posdef n c -> accepted n w -> nonnegative n w ->
  0 < q <= 1 -> (2 <= M)%Z -> (Z.to_nat M <= n)%nat ->
  library_contracts la n c w M ->
  exists scen lik,
    comp_scenarios la n c w L q M = Ok (scen, lik) /\
    forall j, (j <= Z.to_nat M)%nat -> loss n w scen j = L.
Proof.
  intros Hsym Hpd Hacc Hnn Hq HM Hmn Hlib.
  destruct n as [|k]; [lia|].
  destruct (run_stages la k c w M Hsym Hpd Hacc HM Hmn Hlib)
    as [p [vals [vect [t [tau [[Hp [Hrows [_ Hrow0]]] [_ [_ [_ Hrun]]]]]]]]].
  destruct (Hrun L q) as [pdfs [Hok _]].
  eexists. eexists. split; [exact Hok|]. intros j _.
  pose proof (accepted_nonzero_vec _ _ Hacc) as Hw.
  assert (forall i, (i < S k)%nat -> p 0%nat i = normalized (S k) w i) as H0.
  { intros i Hi. rewrite (Hrow0 i Hi).
    apply abs_normalized_of_nonnegative; assumption. }
  unfold loss.
  rewrite (loss_first_coordinate (S k) w p _ Hw H0).
  rewrite (scenarios_first_coordinate (S k) c w L p _ _ j Hrows) by lia.
  rewrite <- (loss_first_coordinate (S k) w p _ Hw H0).
  apply central_loss. apply Rgt_not_eq. apply posdef_weights; assumption.
Qed.

Lemma comp_scenarios_loss_nonnegative_witness :
  exists scen lik,
    comp_scenarios la_ex 2 c_corr w_unit 1 (1 / 2) 2 = Ok (scen, lik) /\
    forall j, (j <= Z.to_nat 2)%nat -> loss 2 w_unit scen j = 1.
Proof.
  apply (comp_scenarios_loss_nonnegative la_ex 2 c_corr w_unit 1 (1 / 2) 2).
  - exact symmetric_c_corr.
  - exact posdef_c_corr.
  - apply accepted_w_unit. lia.
  - apply nonnegative_w_unit.
  - lra.
  - lia.
  - simpl. lia.
  - exact la_ex_contracts_2.
Defined.

(** ** The likelihood vector *)

(** In what follows the density of the central scenario, and q times it,
    are taken to be in the range of [np.exp]: the log-density of the central
    scenario is that of x' C^(-1) x = L^2 / (w' C w), and no scenario has a
    density below q times that of the central one. *)

(** X5: for a valid input without negative weight whose densities are in
    the range of [np.exp], the relative likelihood of every scenario is a
    number between q and 1, as the notebook says of it ("varies from q to
    1"). *)
Theorem comp_scenarios_likelihood_range la n c w L q M :
  symmetric n c -> posdef n c ->
  accepted n w -> nonnegative n w ->
  0 < q <= 1 -> (2 <= M)%Z -> (Z.to_nat M <= n)%nat ->
  library_contracts la n c w M ->
  in_exp_range (log_density n (det la n c)
                  (L * L / dot n w (mulmv n c w))) ->
  in_exp_range (log_density n (det la n c)
                  (L * L / dot n w (mulmv n c w)) + ln q) ->
  exists scen lik,
    comp_scenarios la n c w L q M = Ok (scen, lik) /\
    forall j, (j <= Z.to_nat M)%nat ->
      exists x, lik j = Fin x /\ q <= x <= 1.
Proof.
  intros Hsym Hpd Hacc Hnn Hq HM Hmn Hlib Hr0 Hrq.
  destruct n as [|k]; [lia|].
  destruct (run_likelihood la k c w M Hsym Hpd Hacc Hnn HM Hmn Hlib)
    as [rho [Hrho [Hmono [_ Hrun]]]].
  destruct (Hrun L q Hq Hr0 Hrq) as [scen [lik [Hok [H0 Hlik]]]].
  exists scen, lik. split; [exact Hok|].
  intros [|j] Hj; [exists 1; split; [exact H0|lra]|].
  eexists. split; [apply Hlik; lia|].
  pose proof (Hrho j ltac:(lia)) as Hpos.
  pose proof (Hmono j (Z.to_nat M - 1)%nat ltac:(lia) ltac:(lia)) as Hle.
  assert (0 < rho (Z.to_nat M - 1)%nat) as Hlast by lra.
  pose proof (ln_nonpos q Hq) as Hln.
  assert (0 <= rho j / rho (Z.to_nat M - 1)%nat <= 1) as [Hr0' Hr1'].
  { split.
    - apply Rmult_le_pos; [lra|]. left. apply Rinv_0_lt_compat. exact Hlast.
    - apply (Rmult_le_reg_r (rho (Z.to_nat M - 1)%nat)); [exact Hlast|].
      unfold Rdiv. rewrite Rmult_assoc, Rinv_l by lra. lra. }
  split.
  - rewrite <- (exp_ln q) at 1 by lra.
    destruct (Req_dec (ln q) (ln q * (rho j / rho (Z.to_nat M - 1)%nat)))
      as [E|Hne]; [rewrite <- E; lra|].
    left. apply exp_increasing. nra.
  - rewrite <- exp_0.
    destruct (Req_dec (ln q * (rho j / rho (Z.to_nat M - 1)%nat)) 0)
      as [E|Hne]; [rewrite E; lra|].
    left. apply exp_increasing. nra.
Qed.

Lemma comp_scenarios_likelihood_range_witness :
  exists scen lik,
    comp_scenarios la_ex 3 c_diag w_unit 1 (1 / 2) 3 = Ok (scen, lik) /\
    forall j, (j <= Z.to_nat 3)%nat ->
      exists x, lik j = Fin x /\ 1 / 2 <= x <= 1.
Proof.
  apply (comp_scenarios_likelihood_range la_ex 3 c_diag w_unit 1 (1 / 2) 3).
  - apply symmetric_c_diag.
  - exact posdef_c_diag.
  - apply accepted_w_unit. lia.
  - apply nonnegative_w_unit.
  - lra.
  - lia.
  - simpl. lia.
  - exact la_ex_contracts_3.
  - apply in_exp_range_plain. apply la_ex_range_diag; lra.
  - apply la_ex_range_diag; [lra|exact ln_half].
Defined.

(** X6: for a valid input without negative weight whose densities are in
    the range of [np.exp], the last two alternative scenarios both have
    relative likelihood q; with M = 2 these are all the alternatives. *)
Theorem comp_scenarios_likelihood_last_two la n c w L q M :
  symmetric n c -> posdef n c ->
  accepted n w -> nonnegative n w ->
  0 < q <= 1 -> (2 <= M)%Z -> (Z.to_nat M <= n)%nat ->
  library_contracts la n c w M ->
  in_exp_range (log_density n (det la n c)
                  (L * L / dot n w (mulmv n c w))) ->
  in_exp_range (log_density n (det la n c)
                  (L * L / dot n w (mulmv n c w)) + ln q) ->
  exists scen lik,
    comp_scenarios la n c w L q M = Ok (scen, lik) /\
    lik (Z.to_nat M - 1)%nat = Fin q /\ lik (Z.to_nat M) = Fin q.
Proof.
  intros Hsym Hpd Hacc Hnn Hq HM Hmn Hlib Hr0 Hrq.
  destruct n as [|k]; [lia|].
  destruct (run_likelihood la k c w M Hsym Hpd Hacc Hnn HM Hmn Hlib)
    as [rho [Hrho [_ [Heq Hrun]]]].
  destruct (Hrun L q Hq Hr0 Hrq) as [scen [lik [Hok [_ Hlik]]]].
  exists scen, lik. split; [exact Hok|].
  pose proof (Hrho (Z.to_nat M - 1)%nat ltac:(lia)) as Hpos.
  assert (forall j, (j < Z.to_nat M)%nat ->
            rho j = rho (Z.to_nat M - 1)%nat -> lik (S j) = Fin q) as Hq'.
  { intros j Hj E. rewrite (Hlik j Hj), E.
    replace (rho (Z.to_nat M - 1)%nat / rho (Z.to_nat M - 1)%nat) with 1
      by (field; lra).
    rewrite Rmult_1_r. f_equal. apply exp_ln. lra. }
  split.
  - replace (Z.to_nat M - 1)%nat with (S (Z.to_nat M - 2)) at 1 by lia.
    apply Hq'; [lia|exact Heq].
  - replace (Z.to_nat M) with (S (Z.to_nat M - 1)) at 1 by lia.
    apply Hq'; [lia|reflexivity].
Qed.

Lemma comp_scenarios_likelihood_last_two_witness :
  exists scen lik,
    comp_scenarios la_ex 3 c_diag w_unit 1 (1 / 2) 3 = Ok (scen, lik) /\
    lik (Z.to_nat 3 - 1)%nat = Fin (1 / 2) /\ lik (Z.to_nat 3) = Fin (1 / 2).
Proof.
  apply (comp_scenarios_likelihood_last_two la_ex 3 c_diag w_unit 1 (1 / 2) 3).
  - apply symmetric_c_diag.
  - exact posdef_c_diag.
  - apply accepted_w_unit. lia.
  - apply nonnegative_w_unit.
  - lra.
  - lia.
  - simpl. lia.
  - exact la_ex_contracts_3.
  - apply in_exp_range_plain. apply la_ex_range_diag; lra.
  - apply la_ex_range_diag; [lra|exact ln_half].
Defined.

(** X7: for a valid input without negative weight whose densities are in
    the range of [np.exp], the alternatives are listed by likelihood: the
    relative likelihood is a number that does not grow from one scenario to
    the next. *)
Theorem comp_scenarios_likelihood_decreasing la n c w L q M :
  symmetric n c -> posdef n c ->
  accepted n w -> nonnegative n w ->
  0 < q <= 1 -> (2 <= M)%Z -> (Z.to_nat M <= n)%nat ->
  library_contracts la n c w M ->
  in_exp_range (log_density n (det la n c)
                  (L * L / dot n w (mulmv n c w))) ->
  in_exp_range (log_density n (det la n c)
                  (L * L / dot n w (mulmv n c w)) + ln q) ->
  exists scen lik,
    comp_scenarios la n c w L q M = Ok (scen, lik) /\
    forall j j', (j <= j')%nat -> (j' <= Z.to_nat M)%nat ->
      exists x x', lik j = Fin x /\ lik j' = Fin x' /\ x' <= x.
Proof.
  intros Hsym Hpd Hacc Hnn Hq HM Hmn Hlib Hr0 Hrq.
  destruct n as [|k]; [lia|].
  destruct (run_likelihood la k c w M Hsym Hpd Hacc Hnn HM Hmn Hlib)
    as [rho [Hrho [Hmono [_ Hrun]]]].
  destruct (Hrun L q Hq Hr0 Hrq) as [scen [lik [Hok [H0 Hlik]]]].
  exists scen, lik. split; [exact Hok|].
  pose proof (ln_nonpos q Hq) as Hln.
  pose proof (Hrho (Z.to_nat M - 1)%nat ltac:(lia)) as Hlast.
  pose proof (Rinv_0_lt_compat _ Hlast) as Hinv.
  assert (forall a b, a <= b -> exp a <= exp b) as Hexp.
  { intros a b [Hlt| ->]; [left; apply exp_increasing; exact Hlt|lra]. }
  intros j j' Hjj Hj'. destruct j' as [|j'].
  - replace j with 0%nat by lia. exists 1, 1. repeat split; try exact H0. lra.
  - destruct j as [|j].
    + eexists. eexists. split; [exact H0|]. split; [apply Hlik; lia|].
      rewrite <- exp_0. apply Hexp.
      pose proof (Hrho j' ltac:(lia)). unfold Rdiv.
      assert (0 <= rho j' * / rho (Z.to_nat M - 1)%nat) by nra. nra.
    + eexists. eexists. split; [apply Hlik; lia|]. split; [apply Hlik; lia|].
      apply Hexp.
      pose proof (Hmono j j' ltac:(lia) ltac:(lia)) as Hle. unfold Rdiv.
      assert (rho j * / rho (Z.to_nat M - 1)%nat
              <= rho j' * / rho (Z.to_nat M - 1)%nat) by nra.
      nra.
Qed.

Lemma comp_scenarios_likelihood_decreasing_witness :
  exists scen lik,
    comp_scenarios la_ex 3 c_diag w_unit 1 (1 / 2) 3 = Ok (scen, lik) /\
    forall j j', (j <= j')%nat -> (j' <= Z.to_nat 3)%nat ->
      exists x x', lik j = Fin x /\ lik j' = Fin x' /\ x' <= x.
Proof.
  apply (comp_scenarios_likelihood_decreasing
           la_ex 3 c_diag w_unit 1 (1 / 2) 3).
  - apply symmetric_c_diag.
  - exact posdef_c_diag.
  - apply accepted_w_unit. lia.
  - apply nonnegative_w_unit.
  - lra.
  - lia.
  - simpl. lia.
  - exact la_ex_contracts_3.
  - apply in_exp_range_plain. apply la_ex_range_diag; lra.
  - apply la_ex_range_diag; [lra|exact ln_half].
Defined.

(** X8: for a valid input without negative weight, the likelihood vector
    is the same for any two losses L and L' whose densities are in the range
    of [np.exp]. *)
Theorem comp_scenarios_likelihood_loss_free la n c w L L' q M :
  symmetric n c -> posdef n c ->
  accepted n w -> nonnegative n w ->
  0 < q <= 1 -> (2 <= M)%Z -> (Z.to_nat M <= n)%nat ->
  library_contracts la n c w M ->
  in_exp_range (log_density n (det la n c)
                  (L * L / dot n w (mulmv n c w))) ->
  in_exp_range (log_density n (det la n c)
                  (L * L / dot n w (mulmv n c w)) + ln q) ->
  in_exp_range (log_density n (det la n c)
                  (L' * L' / dot n w (mulmv n c w))) ->
  in_exp_range (log_density n (det la n c)
                  (L' * L' / dot n w (mulmv n c w)) + ln q) ->
  exists scen lik scen' lik',
    comp_scenarios la n c w L q M = Ok (scen, lik) /\
    comp_scenarios la n c w L' q M = Ok (scen', lik') /\
    forall j, (j <= Z.to_nat M)%nat -> lik j = lik' j.
Proof.
  intros Hsym Hpd Hacc Hnn Hq HM Hmn Hlib Hr0 Hrq Hr0' Hrq'.
  destruct n as [|k]; [lia|].
  destruct (run_likelihood la k c w M Hsym Hpd Hacc Hnn HM Hmn Hlib)
    as [rho [_ [_ [_ Hrun]]]].
  destruct (Hrun L q Hq Hr0 Hrq) as [scen [lik [Hok [H0 Hlik]]]].
  destruct (Hrun L' q Hq Hr0' Hrq') as [scen' [lik' [Hok' [H0' Hlik']]]].
  exists scen, lik, scen', lik'. split; [exact Hok|]. split; [exact Hok'|].
  intros [|j] Hj; [rewrite H0, H0'; reflexivity|].
  rewrite (Hlik j), (Hlik' j) by lia. reflexivity.
Qed.

Lemma comp_scenarios_likelihood_loss_free_witness :
  exists scen lik scen' lik',
    comp_scenarios la_ex 3 c_diag w_unit 1 (1 / 2) 3 = Ok (scen, lik) /\
    comp_scenarios la_ex 3 c_diag w_unit 13 (1 / 2) 3 = Ok (scen', lik') /\
    forall j, (j <= Z.to_nat 3)%nat -> lik j = lik' j.
Proof.
  apply (comp_scenarios_likelihood_loss_free
           la_ex 3 c_diag w_unit 1 13 (1 / 2) 3).
  - apply symmetric_c_diag.
  - exact posdef_c_diag.
  - apply accepted_w_unit. lia.
  - apply nonnegative_w_unit.
  - lra.
  - lia.
  - simpl. lia.
  - exact la_ex_contracts_3.
  - apply in_exp_range_plain. apply la_ex_range_diag; lra.
  - apply la_ex_range_diag; [lra|exact ln_half].
  - apply in_exp_range_plain. apply la_ex_range_diag; lra.
  - apply la_ex_range_diag; [lra|exact ln_half].
Defined.

(** the density of the central scenario for c = [[2, 1], [1, 2]],
    w = [1, 0] and L = 100 is below the range of [np.exp] *)
Lemma la_ex_underflow_corr :
  log_density 2 (det la_ex 2 c_corr)
    (100 * 100 / dot 2 w_unit (mulmv 2 c_corr w_unit)) < exp_underflow.
Proof.
  assert (dot 2 w_unit (mulmv 2 c_corr w_unit) = 2) as ->.
  { unfold dot, mulmv, dot, c_corr, w_unit, mat2, vec2. simpl. lra. }
  change (det la_ex 2 c_corr) with (det2 c_corr). rewrite det2_c_corr.
  pose proof ln_2pi_bounds as [Hp _].
  pose proof (ln_nonneg 3 ltac:(lra)) as H3.
  pose proof (ln_le_pred 2 ltac:(lra)) as H2.
  unfold log_density, exp_underflow. simpl INR. lra.
Qed.

(** X28: for a valid input without negative weight whose central scenario
    has a density below the range of [np.exp], every density of the run is
    0.0 and every entry of the likelihood vector is nan. *)
Theorem comp_scenarios_likelihood_underflow la n c w L q M :
  symmetric n c -> posdef n c ->
  accepted n w -> nonnegative n w ->
  0 < q <= 1 -> (2 <= M)%Z -> (Z.to_nat M <= n)%nat ->
  library_contracts la n c w M ->
  log_density n (det la n c) (L * L / dot n w (mulmv n c w)) < exp_underflow ->
  exists scen lik,
    comp_scenarios la n c w L q M = Ok (scen, lik) /\
    forall j, (j <= Z.to_nat M)%nat -> lik j = NaN.
Proof.
  intros Hsym Hpd Hacc Hnn Hq HM Hmn Hlib Hlow.
  destruct n as [|k]; [lia|].
  destruct (run_log_densities la k c w M Hsym Hpd Hacc Hnn HM Hmn Hlib)
    as [rho [Hrho [_ [_ Hrun]]]].
  destruct (Hrun L q Hq) as [scen [lik [Hok [H0 Hlik]]]].
  exists scen, lik. split; [exact Hok|].
  intros [|j] Hj.
  - rewrite H0. apply fdiv_underflow; [lra|exact Hlow].
  - rewrite (Hlik j) by lia. apply fdiv_underflow; [|exact Hlow].
    pose proof (Hrho j ltac:(lia)) as Hpj.
    pose proof (Hrho (Z.to_nat M - 1)%nat ltac:(lia)) as Hlast.
    pose proof (ln_nonpos q Hq) as Hln.
    pose proof (Rinv_0_lt_compat _ Hlast) as Hinv.
    assert (0 <= rho j / rho (Z.to_nat M - 1)%nat) as Hr
      by (unfold Rdiv; nra).
    nra.
Qed.

Lemma comp_scenarios_likelihood_underflow_witness :
  exists scen lik,
    comp_scenarios la_ex 2 c_corr w_unit 100 (1 / 10) 2 = Ok (scen, lik) /\
    forall j, (j <= Z.to_nat 2)%nat -> lik j = NaN.
Proof.
  apply (comp_scenarios_likelihood_underflow
           la_ex 2 c_corr w_unit 100 (1 / 10) 2).
  - exact symmetric_c_corr.
  - exact posdef_c_corr.
  - apply accepted_w_unit. lia.
  - apply nonnegative_w_unit.
  - lra.
  - lia.
  - simpl. lia.
  - exact la_ex_contracts_2.
  - exact la_ex_underflow_corr.
Defined.

(** ** The distances between the scenarios *)

Lemma flat_map_repeat {A : Type} (b : A) (g : nat -> nat) (l : list nat) :
  flat_map (fun i => repeat b (g i)) l = repeat b (list_sum (map g l)).
Proof.
  induction l as [|i l IH]; simpl; [reflexivity|].
  rewrite IH, repeat_app. reflexivity.
Qed.

Lemma flat_map_ext_seq {A : Type} (f g : nat -> list A) s len :
  (forall i, (s <= i < s + len)%nat -> f i = g i) ->
  flat_map f (seq s len) = flat_map g (seq s len).
Proof.
  revert s. induction len as [|len IH]; intros s H; simpl; [reflexivity|].
  rewrite (H s) by lia. rewrite (IH (S s)); [reflexivity|].
  intros i Hi. apply H. lia.
Qed.

Lemma map_const_seq {A : Type} (f : nat -> A) (b : A) s len :
  (forall j, (s <= j < s + len)%nat -> f j = b) ->
  map f (seq s len) = repeat b len.
Proof.
  revert s. induction len as [|len IH]; intros s H; simpl; [reflexivity|].
  rewrite (H s) by lia. rewrite (IH (S s)); [reflexivity|].
  intros j Hj. apply H. lia.
Qed.

Lemma triangle_sum m c s :
  (s + c = m)%nat ->
  (2 * list_sum (map (fun i => m + 1 - (i + 1)) (seq s c)) = c * (c + 1))%nat.
Proof.
  revert s. induction c as [|c IH]; intros s H; simpl seq; simpl map;
    simpl list_sum; [lia|].
  specialize (IH (S s) ltac:(lia)). nia.
Qed.

Lemma triangle_count m :
  (1 <= m)%nat ->
  list_sum (map (fun i => m + 1 - (i + 1))%nat (seq 1 (m - 1)))
  = (m * (m - 1) / 2)%nat.
Proof.
  intros Hm. pose proof (triangle_sum m (m - 1) 1 ltac:(lia)) as H.
  replace (m - 1 + 1)%nat with m in H by lia.
  apply Nat.div_unique_exact; lia.
Qed.

(** X9: the cell "Check distances" on the scenarios of a run with valid
    input: the M distances from the central scenario are one number r, and
    the M (M - 1) / 2 distances between alternative scenarios are
    r sqrt(2 M / (M - 1)). *)
Theorem check_distances_regular la n c w L q M :
  symmetric n c -> posdef n c -> accepted n w ->
  0 < q <= 1 -> (2 <= M)%Z -> (Z.to_nat M <= n)%nat ->
  library_contracts la n c w M ->
  exists scen lik r,
    comp_scenarios la n c w L q M = Ok (scen, lik) /\
    0 <= r /\ (q < 1 -> 0 < r) /\
    check_distances n M scen
    = map (np_round 3)
          (repeat r (Z.to_nat M)
           ++ repeat (r * sqrt (2 * IZR M / (IZR M - 1)))
                     (Z.to_nat M * (Z.to_nat M - 1) / 2)).
Proof.
  intros Hsym Hpd Hacc Hq HM Hmn Hlib.
  destruct n as [|k]; [lia|].
  destruct (run_geometry la k c w M Hsym Hpd Hacc HM Hmn Hlib)
    as [denom [Hden Hrun]].
  destruct (Hrun L q) as [scen [lik [Hok [Hc Ha]]]].
  set (r := sqrt (-2 * ln q / denom)) in *.
  exists scen, lik, r. split; [exact Hok|].
  assert (0 <= r) as Hr by apply sqrt_pos.
  split; [exact Hr|]. split.
  { intros Hq1. apply sqrt_lt_R0.
    pose proof (ln_neg q ltac:(lra)).
    apply Rmult_lt_0_compat; [lra|]. apply Rinv_0_lt_compat. exact Hden. }
  assert (2 <= IZR M) as HMr by (apply IZR_le in HM; exact HM).
  set (m := Z.to_nat M) in *.
  assert (forall i j, norm (S k) (fun l => scen l i - scen l j)
                      = sqrt (dist2 (S k) (col scen i) (col scen j))) as Hnorm
    by reflexivity.
  unfold check_distances. fold m. apply f_equal.
  replace (Z.to_nat (M + 1)) with (m + 1)%nat by (unfold m; lia).
  replace (seq 0 m) with (0%nat :: seq 1 (m - 1))
    by (replace m with (S (m - 1)) at 2 by (unfold m; lia); reflexivity).
  simpl flat_map. f_equal.
  - replace (m + 1 - 1)%nat with m by lia.
    apply map_const_seq. intros j Hj. rewrite Hnorm.
    replace j with (S (j - 1)) by lia. rewrite Hc by lia.
    apply sqrt_square. exact Hr.
  - rewrite <- (triangle_count m) by (unfold m; lia).
    rewrite <- flat_map_repeat. apply flat_map_ext_seq.
    intros i Hi. apply map_const_seq. intros j Hj. rewrite Hnorm.
    replace i with (S (i - 1)) by lia. replace j with (S (j - 1)) by lia.
    rewrite Ha by lia.
    rewrite sqrt_mult; [rewrite sqrt_square by exact Hr; reflexivity|nra|].
    apply Rmult_le_pos; [lra|]. left. apply Rinv_0_lt_compat. lra.
Qed.

Lemma check_distances_regular_witness :
  exists scen lik r,
    comp_scenarios la_ex 3 c_diag w_unit 1 (1 / 2) 3 = Ok (scen, lik) /\
    0 <= r /\ (1 / 2 < 1 -> 0 < r) /\
    check_distances 3 3 scen
    = map (np_round 3)
          (repeat r (Z.to_nat 3)
           ++ repeat (r * sqrt (2 * IZR 3 / (IZR 3 - 1)))
                     (Z.to_nat 3 * (Z.to_nat 3 - 1) / 2)).
Proof.
  apply (check_distances_regular la_ex 3 c_diag w_unit 1 (1 / 2) 3).
  - apply symmetric_c_diag.
  - exact posdef_c_diag.
  - apply accepted_w_unit. lia.
  - lra.
  - lia.
  - simpl. lia.
  - exact la_ex_contracts_3.
Defined.

(** X10: a smaller threshold q moves every alternative scenario farther from
    the central one. *)
Theorem comp_scenarios_radius_decreasing la n c w L q q' M :
  symmetric n c -> posdef n c -> accepted n w ->
  0 < q -> q <= q' -> q' <= 1 -> (2 <= M)%Z -> (Z.to_nat M <= n)%nat ->
  library_contracts la n c w M ->
  exists scen lik scen' lik',
    comp_scenarios la n c w L q M = Ok (scen, lik) /\
    comp_scenarios la n c w L q' M = Ok (scen', lik') /\
    forall j, (1 <= j <= Z.to_nat M)%nat ->
      dist n (col scen' 0%nat) (col scen' j)
      <= dist n (col scen 0%nat) (col scen j).
Proof.
  intros Hsym Hpd Hacc Hq Hqq Hq' HM Hmn Hlib.
  destruct n as [|k]; [lia|].
  destruct (run_geometry la k c w M Hsym Hpd Hacc HM Hmn Hlib)
    as [denom [Hden Hrun]].
  destruct (Hrun L q) as [scen [lik [Hok [Hc _]]]].
  destruct (Hrun L q') as [scen' [lik' [Hok' [Hc' _]]]].
  exists scen, lik, scen', lik'. split; [exact Hok|]. split; [exact Hok'|].
  intros j Hj. unfold dist.
  replace j with (S (j - 1)) by lia.
  rewrite Hc, Hc' by lia. rewrite !sqrt_square by apply sqrt_pos.
  apply sqrt_le_1_alt.
  assert (ln q <= ln q') as Hln.
  { destruct Hqq as [Hlt| ->]; [left; apply ln_increasing; lra|lra]. }
  pose proof (Rinv_0_lt_compat _ Hden) as Hinv.
  unfold Rdiv. apply Rmult_le_compat_r; lra.
Qed.

Lemma comp_scenarios_radius_decreasing_witness :
  exists scen lik scen' lik',
    comp_scenarios la_ex 2 c_corr w_unit 13 (1 / 10) 2 = Ok (scen, lik) /\
    comp_scenarios la_ex 2 c_corr w_unit 13 (1 / 2) 2 = Ok (scen', lik') /\
    forall j, (1 <= j <= Z.to_nat 2)%nat ->
      dist 2 (col scen' 0%nat) (col scen' j)
      <= dist 2 (col scen 0%nat) (col scen j).
Proof.
  apply (comp_scenarios_radius_decreasing
           la_ex 2 c_corr w_unit 13 (1 / 10) (1 / 2) 2).
  - exact symmetric_c_corr.
  - exact posdef_c_corr.
  - apply accepted_w_unit. lia.
  - lra.
  - lra.
  - lra.
  - lia.
  - simpl. lia.
  - exact la_ex_contracts_2.
Defined.

(** X11: with q = 1 every alternative scenario is the central scenario;
    and where no weight is negative and the density of the central scenario
    is in the range of [np.exp], every relative likelihood is 1. *)
Theorem comp_scenarios_threshold_one la n c w L M :
  symmetric n c -> posdef n c -> accepted n w ->
  (2 <= M)%Z -> (Z.to_nat M <= n)%nat ->
  library_contracts la n c w M ->
  exists scen lik,
    comp_scenarios la n c w L 1 M = Ok (scen, lik) /\
    forall j, (j <= Z.to_nat M)%nat ->
      (forall i, (i < n)%nat -> scen i j = scen i 0%nat) /\
      (nonnegative n w ->
       in_exp_range (log_density n (det la n c)
                       (L * L / dot n w (mulmv n c w))) ->
       lik j = Fin 1).
Proof.
  intros Hsym Hpd Hacc HM Hmn Hlib.
  destruct n as [|k]; [lia|].
  destruct (run_geometry la k c w M Hsym Hpd Hacc HM Hmn Hlib)
    as [denom [Hden Hrun]].
  destruct (Hrun L 1) as [scen [lik [Hok [Hc _]]]].
  exists scen, lik. split; [exact Hok|].
  intros j Hj. split.
  - intros i Hi. destruct j as [|j]; [reflexivity|].
    specialize (Hc j ltac:(lia)).
    rewrite ln_1 in Hc.
    replace (-2 * 0 / denom) with 0 in Hc by (unfold Rdiv; lra).
    rewrite sqrt_0 in Hc. rewrite Rmult_0_l in Hc.
    pose proof (dot_self_zero (S k) _ Hc i Hi) as E. unfold col in E. lra.
  - intros Hnn Hr0.
    destruct (run_likelihood la k c w M Hsym Hpd Hacc Hnn HM Hmn Hlib)
      as [rho [_ [_ [_ Hlik]]]].
    destruct (Hlik L 1 ltac:(lra) Hr0) as [scen' [lik' [Hok' [H0 Hj']]]].
    { rewrite ln_1, Rplus_0_r. exact Hr0. }
    rewrite Hok in Hok'. injection Hok' as _ <-.
    destruct j as [|j]; [exact H0|].
    rewrite (Hj' j) by lia. rewrite ln_1, Rmult_0_l, exp_0. reflexivity.
Qed.

Lemma comp_scenarios_threshold_one_witness :
  exists scen lik,
    comp_scenarios la_ex 2 c_corr w_unit 13 1 2 = Ok (scen, lik) /\
    forall j, (j <= Z.to_nat 2)%nat ->
      (forall i, (i < 2)%nat -> scen i j = scen i 0%nat) /\ lik j = Fin 1.
Proof.
  destruct (comp_scenarios_threshold_one la_ex 2 c_corr w_unit 13 2)
    as [scen [lik [Hok H]]].
  - exact symmetric_c_corr.
  - exact posdef_c_corr.
  - apply accepted_w_unit. lia.
  - lia.
  - simpl. lia.
  - exact la_ex_contracts_2.
  - exists scen, lik. split; [exact Hok|].
    intros j Hj. destruct (H j Hj) as [Hs Hl]. split; [exact Hs|].
    apply Hl.
    + apply nonnegative_w_unit.
    + apply in_exp_range_plain. apply la_ex_range_corr; lra.
Defined.

(** ** The offsets of the alternative scenarios *)

(** an alternative scenario is the central one plus r times its direction,
    rotated back *)
Lemma scenarios_offset k c w L p r z i j :
  scenarios_of (S k) c w L p r z i (S j)
  - scenarios_of (S k) c w L p r z i 0%nat
  = r * sumR k (fun l => p (S l) i * z l j).
Proof.
  unfold scenarios_of, mulm, transpose. rewrite !sumR_first.
  unfold transformed_scenarios at 1 3.
  rewrite <- sumR_scal_l.
  match goal with
  | |- ?a + ?s1 - (?a + ?s2) = _ =>
      transitivity (s1 - s2); [lra|]
  end.
  rewrite <- sumR_minus. apply sumR_ext. intros l _.
  unfold transformed_scenarios. lra.
Qed.

(** the central column is proportional to the loss *)
Lemma scenarios_central_linear n c w L L' p r r' z z' i :
  L' * scenarios_of n c w L p r z i 0%nat
  = L * scenarios_of n c w L' p r' z' i 0%nat.
Proof.
  unfold scenarios_of, mulm, transpose. rewrite <- !sumR_scal_l.
  apply sumR_ext. intros [|k] _; unfold transformed_scenarios.
  - unfold mulmv, dot.
    transitivity (p 0%nat i * (L' * sumR n (fun j => p 0%nat j * central n c w L j)));
      [lra|].
    transitivity (p 0%nat i * (L * sumR n (fun j => p 0%nat j * central n c w L' j)));
      [|lra].
    f_equal. rewrite <- !sumR_scal_l. apply sumR_ext. intros j _.
    unfold central, Rdiv. ring.
  - unfold cond_mean, Rdiv. ring.
Qed.

(** X12: the loss L moves the central scenario only: the central scenario
    is proportional to L, and the offsets of the alternative scenarios from
    it do not depend on L. *)
Theorem comp_scenarios_loss_scaling la n c w L L' q M :
  symmetric n c -> posdef n c -> accepted n w ->
  0 < q <= 1 -> (2 <= M)%Z -> (Z.to_nat M <= n)%nat ->
  library_contracts la n c w M ->
  exists scen lik scen' lik',
    comp_scenarios la n c w L q M = Ok (scen, lik) /\
    comp_scenarios la n c w L' q M = Ok (scen', lik') /\
    (forall i, L' * scen i 0%nat = L * scen' i 0%nat) /\
    (forall i j, scen i j - scen i 0%nat = scen' i j - scen' i 0%nat).
Proof.
  intros _ _ Hacc _ HM Hmn Hcon.
  pose proof (contracts_returns la n c w M Hcon) as Hlib.
  destruct (comp_scenarios_returns la n c w L q M Hacc HM Hmn Hlib)
    as [scen [lik Hrun]].
  destruct (comp_scenarios_returns la n c w L' q M Hacc HM Hmn Hlib)
    as [scen' [lik' Hrun']].
  exists scen, lik, scen', lik'. split; [exact Hrun|]. split; [exact Hrun'|].
  destruct (comp_scenarios_inv _ _ _ _ _ _ _ _ _ Hrun)
    as [p [vals [vect [t [denom [pdfs [Hp [He [Ht [_ [Hd [Hscen _]]]]]]]]]]]].
  destruct (comp_scenarios_inv _ _ _ _ _ _ _ _ _ Hrun')
    as [p' [vals' [vect' [t' [denom' [pdfs'
        [Hp' [He' [Ht' [_ [Hd' [Hscen' _]]]]]]]]]]]].
  rewrite Hp in Hp'. injection Hp' as <-.
  rewrite He in He'. injection He' as <- <-.
  rewrite Ht in Ht'. injection Ht' as <-.
  rewrite Hd in Hd'. injection Hd' as <-.
  rewrite Hscen, Hscen'. split.
  - intros i. apply scenarios_central_linear.
  - destruct n as [|k]; [lia|].
    intros i [|j]; [lra|]. rewrite !scenarios_offset. reflexivity.
Qed.

Lemma comp_scenarios_loss_scaling_witness :
  exists scen lik scen' lik',
    comp_scenarios la_ex 2 c_corr w_unit 1 (1 / 2) 2 = Ok (scen, lik) /\
    comp_scenarios la_ex 2 c_corr w_unit 13 (1 / 2) 2 = Ok (scen', lik') /\
    (forall i, 13 * scen i 0%nat = 1 * scen' i 0%nat) /\
    (forall i j, scen i j - scen i 0%nat = scen' i j - scen' i 0%nat).
Proof.
  apply (comp_scenarios_loss_scaling la_ex 2 c_corr w_unit 1 13 (1 / 2) 2).
  - exact symmetric_c_corr.
  - exact posdef_c_corr.
  - apply accepted_w_unit. lia.
  - lra.
  - lia.
  - simpl. lia.
  - exact la_ex_contracts_2.
Defined.

(** the first column of [V] belongs to the largest eigenvalue *)
Lemma sorted_index_max k vals l :
  (l < k)%nat -> vals l <= vals (nth 0 (rev (argsort k vals)) 0%nat).
Proof.
  intros Hl.
  assert (In l (rev (argsort k vals))) as Hin.
  { apply (Permutation_in _ (Permutation_sym (sorted_index_perm k vals))).
    apply in_seq. lia. }
  destruct (In_nth _ _ 0%nat Hin) as [a [Ha <-]].
  rewrite length_rev, argsort_length in Ha.
  apply sorted_index_descending; lia.
Qed.

(** X13: the first alternative scenario leaves the central one along the
    eigenvector of the largest eigenvalue of the conditional covariance
    [dyh], rotated back by [p.T]. *)
Theorem comp_scenarios_first_alternative la n c w L q M :
  symmetric n c -> posdef n c -> accepted n w ->
  0 < q <= 1 -> (2 <= M)%Z -> (Z.to_nat M <= n)%nat ->
  library_contracts la n c w M ->
  exists scen lik p vals vect l0 r,
    comp_scenarios la n c w L q M = Ok (scen, lik) /\
    p_from_w la n w = Ok p /\
    eig la (n - 1) (cond_cov n c p) = Ok (vals, vect) /\
    (l0 < n - 1)%nat /\
    (forall l, (l < n - 1)%nat -> vals l <= vals l0) /\
    0 <= r /\
    forall i, scen i 1%nat - scen i 0%nat
              = r * sumR (n - 1) (fun k => p (S k) i * vect k l0).
Proof.
  intros Hsym Hpd Hacc Hq HM Hmn Hlib.
  destruct n as [|k]; [lia|].
  destruct (run_stages la k c w M Hsym Hpd Hacc HM Hmn Hlib)
    as [p [vals [vect [t [tau [[Hp _] [[Heig _] [Ht [_ Hrun]]]]]]]]].
  destruct (Hrun L q) as [pdfs [Hok _]].
  destruct Hlib as [_ [Hqr2 _]].
  replace (S k - 1)%nat with k by lia.
  eexists. eexists. exists p, vals, vect, (nth 0 (rev (argsort k vals)) 0%nat).
  eexists. split; [exact Hok|]. split; [exact Hp|]. split; [exact Heig|].
  split; [apply sorted_index_lt; lia|].
  split; [intros l Hl; apply sorted_index_max; exact Hl|].
  split; [apply sqrt_pos|].
  intros i. rewrite scenarios_offset. f_equal. apply sumR_ext. intros l Hl.
  f_equal. unfold directions, mulm.
  rewrite (sumR_ext (Z.to_nat M - 1) _
             (fun a => sorted_vectors (S k - 1) vals vect l a * eye a 0%nat)).
  - rewrite (sumR_eye_r (Z.to_nat M - 1) 0
               (sorted_vectors (S k - 1) vals vect l)) by lia.
    unfold sorted_vectors. replace (S k - 1)%nat with k by lia. reflexivity.
  - intros a Ha. f_equal.
    apply (simplex_first_vertex la M t HM Hqr2 Ht a Ha).
Qed.

Lemma comp_scenarios_first_alternative_witness :
  exists scen lik p vals vect l0 r,
    comp_scenarios la_ex 3 c_diag w_unit 1 (1 / 2) 3 = Ok (scen, lik) /\
    p_from_w la_ex 3 w_unit = Ok p /\
    eig la_ex (3 - 1) (cond_cov 3 c_diag p) = Ok (vals, vect) /\
    (l0 < 3 - 1)%nat /\
    (forall l, (l < 3 - 1)%nat -> vals l <= vals l0) /\
    0 <= r /\
    forall i, scen i 1%nat - scen i 0%nat
              = r * sumR (3 - 1) (fun k => p (S k) i * vect k l0).
Proof.
  apply (comp_scenarios_first_alternative la_ex 3 c_diag w_unit 1 (1 / 2) 3).
  - apply symmetric_c_diag.
  - exact posdef_c_diag.
  - apply accepted_w_unit. lia.
  - lra.
  - lia.
  - simpl. lia.
  - exact la_ex_contracts_3.
Defined.

(** ** Runs that raise *)

(** X14: asking for more alternative scenarios than there are factors
    fails: with M > n the product [V[:, :(M - 1)].dot(t)] has mismatched
    shapes and raises ValueError. *)
Theorem comp_scenarios_too_many_scenarios la n c w L q M :
  accepted n w -> (n < Z.to_nat M)%nat ->
  (forall p, p_from_w la n w = Ok p ->
             exists ev, eig la (n - 1) (cond_cov n c p) = Ok ev) ->
  comp_scenarios la n c w L q M = Raise ValueError.
Proof.
  intros Hacc Hn Heig.
  destruct (accepted_nonzero_indices n w Hacc) as [_ [_ [_ Hpos]]].
  assert (2 <= M)%Z as HM by lia.
  unfold comp_scenarios.
  destruct (p_from_w la n w) as [p|e] eqn:Hp.
  2:{ rewrite (p_from_w_accepted la n w Hacc) in Hp. discriminate. }
  simpl bind. destruct (Heig p eq_refl) as [ev ->]. simpl bind.
  destruct (standard_simplex_vertices_ok la M HM) as [s [t [_ [-> _]]]].
  simpl bind.
  replace (Nat.min (Z.to_nat M - 1) (n - 1) =? Z.to_nat M - 1)%nat with false;
    [reflexivity|].
  symmetry. apply Nat.eqb_neq. lia.
Qed.

Lemma comp_scenarios_too_many_scenarios_witness :
  comp_scenarios la_ex 2 c_corr w_unit 13 (1 / 10) 3 = Raise ValueError.
Proof.
  apply (comp_scenarios_too_many_scenarios la_ex 2 c_corr w_unit 13 (1 / 10) 3).
  - apply accepted_w_unit. lia.
  - simpl. lia.
  - intros p _. eexists. reflexivity.
Defined.

(** X15: weights that [p_from_w] rejects make [comp_scenarios] raise the
    IndexError of [p_from_w], whatever the other arguments are. *)
Theorem comp_scenarios_degenerate_weights la n c w L q M :
  (forall j, (j < n)%nat -> Rabs (w j) <= 1 / 100000) ->
  comp_scenarios la n c w L q M = Raise IndexError.
Proof.
  intros Hsmall. unfold comp_scenarios.
  rewrite (p_from_w_rejected la n w); [reflexivity|].
  intros [j [Hj Habs]]. specialize (Hsmall j Hj). lra.
Qed.

Lemma comp_scenarios_degenerate_weights_witness :
  comp_scenarios la_ex 2 c_corr (vec2 0 0) 13 (1 / 10) 2 = Raise IndexError.
Proof.
  apply (comp_scenarios_degenerate_weights la_ex 2 c_corr (vec2 0 0)).
  intros j Hj. unfold vec2. destruct j as [|[|j]]; rewrite Rabs_R0; lra.
Defined.

(** ** The conditional covariance and the quadratic form *)

(** X16: for a symmetric positive definite covariance the entry [d11] that
    [comp_scenarios] divides by is positive, and the conditional covariance
    [dyh] that it hands to [np.linalg.eig] and [np.linalg.solve] is again
    symmetric and positive definite. *)
Theorem cond_cov_symmetric_posdef la n c w :
  symmetric n c -> posdef n c -> accepted n w ->
  qr_at la n (p_seed n w) ->
  exists p, p_from_w la n w = Ok p /\
    0 < transformed_cov n c p 0%nat 0%nat /\
    symmetric (n - 1) (cond_cov n c p) /\
    posdef (n - 1) (cond_cov n c p).
Proof.
  intros Hsym Hpd Hacc Hqr.
  destruct (p_from_w_spec la n w Hacc Hqr) as [p [Hp [Hrows _]]].
  destruct (accepted_nonzero_indices n w Hacc) as [_ [_ [_ Hn]]].
  exists p. split; [exact Hp|].
  destruct n as [|k]; [lia|]. replace (S k - 1)%nat with k by lia.
  split; [apply transformed_cov_d11_pos; assumption|].
  split; [apply cond_cov_symmetric; exact Hsym|].
  apply cond_cov_posdef; assumption.
Qed.

Lemma cond_cov_symmetric_posdef_witness :
  exists p, p_from_w la_ex 2 w_mixed = Ok p /\
    0 < transformed_cov 2 c_corr p 0%nat 0%nat /\
    symmetric (2 - 1) (cond_cov 2 c_corr p) /\
    posdef (2 - 1) (cond_cov 2 c_corr p).
Proof.
  apply (cond_cov_symmetric_posdef la_ex 2 c_corr w_mixed).
  - exact symmetric_c_corr.
  - exact posdef_c_corr.
  - exact accepted_w_mixed.
  - apply la_ex_qr_at_2.
Defined.

(** X17: [quadratic_form_inv(a, x)] for a positive definite [a]: the value
    is x' y for the one y with a y = x, it is never negative, and it is
    positive unless x is the zero vector. *)
Theorem quadratic_form_inv_posdef la n a x :
  posdef n a -> solves la n a ->
  exists v, quadratic_form_inv la n a x = Ok v /\
    (forall y, (forall i, (i < n)%nat -> mulmv n a y i = x i) ->
               v = dot n x y) /\
    0 <= v /\
    (nonzero_vec n x -> 0 < v).
Proof.
  intros Hpd Hsolve. destruct (Hsolve x) as [s [Hs Hsol]].
  unfold quadratic_form_inv. rewrite Hs. simpl bind.
  eexists. split; [reflexivity|].
  assert (dot n x s = dot n s (mulmv n a s)) as E.
  { rewrite dot_comm. apply dot_ext; intros i Hi;
      [reflexivity|symmetry; apply Hsol; exact Hi]. }
  split; [|split].
  - intros y Hy. apply dot_ext; [reflexivity|].
    apply (posdef_injective n a s y Hpd). intros i Hi.
    rewrite (Hsol i Hi), (Hy i Hi). reflexivity.
  - rewrite E. apply posdef_nonneg. exact Hpd.
  - intros [i [Hi Hne]]. rewrite E. apply Hpd.
    destruct (zero_or_nonzero n s) as [H0|Hnz]; [|exact Hnz].
    exfalso. apply Hne. rewrite <- (Hsol i Hi).
    unfold mulmv, dot. apply sumR_zero. intros j Hj. rewrite (H0 j Hj). lra.
Qed.

Lemma quadratic_form_inv_posdef_witness :
  exists v, quadratic_form_inv la_ex 2 c_corr (vec2 1 0) = Ok v /\
    (forall y, (forall i, (i < 2)%nat -> mulmv 2 c_corr y i = vec2 1 0 i) ->
               v = dot 2 (vec2 1 0) y) /\
    0 <= v /\
    (nonzero_vec 2 (vec2 1 0) -> 0 < v).
Proof.
  apply (quadratic_form_inv_posdef la_ex 2 c_corr (vec2 1 0)).
  - exact posdef_c_corr.
  - apply la_ex_solves_2. rewrite det2_c_corr. lra.
Defined.

(** ** The order of the eigenvectors *)

(** X18: [ind = vals.argsort()[::-1]; V = vect[:, ind]] takes every column
    of [vect] once, in the order of descending eigenvalue. *)
Theorem sorted_vectors_descending k vals vect :
  exists ind : list nat,
    Permutation ind (seq 0 k) /\
    (forall i j, sorted_vectors k vals vect i j = vect i (nth j ind 0%nat)) /\
    forall j j', (j <= j')%nat -> (j' < k)%nat ->
      vals (nth j' ind 0%nat) <= vals (nth j ind 0%nat).
Proof.
  exists (rev (argsort k vals)). split; [apply sorted_index_perm|].
  split; [reflexivity|].
  intros j j' Hjj Hj'. apply sorted_index_descending; assumption.
Qed.

(** ** The simplex *)

Lemma simplex_row_gram la M t i i' :
  (2 <= M)%Z -> qr_at la (Z.to_nat M) (transpose simplex_seed) ->
  standard_simplex_vertices la M = Ok t ->
  (i < Z.to_nat M - 1)%nat -> (i' < Z.to_nat M - 1)%nat ->
  sumR (Z.to_nat M) (fun j => t i j * t i' j)
  = IZR M / (IZR M - 1) * eye i i'.
Proof.
  intros HM Hqr Ht Hi Hi'.
  destruct (simplex_entries la M HM Hqr) as [s [t' [Hs [Ht' He]]]].
  rewrite Ht in Ht'. injection Ht' as <-.
  set (m := Z.to_nat M) in *.
  assert (0 < m)%nat as Hm by (unfold m; lia).
  assert (2 <= IZR M) as HMr by (apply IZR_le in HM; exact HM).
  cbv zeta in He.
  set (sc := sqrt (IZR M / IZR (M - 1))) in *.
  assert (sc * sc = IZR M / (IZR M - 1)) as Hsc.
  { unfold sc. rewrite sqrt_sqrt; [rewrite minus_IZR; reflexivity|].
    rewrite minus_IZR. apply Rmult_le_pos; [lra|].
    left. apply Rinv_0_lt_compat. lra. }
  set (p := gram_schmidt_rows la m simplex_seed) in *.
  rewrite (sumR_ext m _
    (fun j => (s * s * (sc * sc)) * (p (S i) (cls m j) * p (S i') (cls m j)))).
  2:{ intros j Hj. rewrite !He by assumption. lra. }
  rewrite sumR_scal_l.
  rewrite (sumR_cls m (fun j => p (S i) j * p (S i') j) Hm).
  destruct (simplex_rows la m Hm Hqr) as [Hrows _]. fold p in Hrows.
  pose proof (Hrows (S i) (S i') ltac:(lia) ltac:(lia)) as E.
  unfold dot in E. rewrite E. rewrite Hsc.
  assert (s * s = 1) as -> by (destruct Hs as [-> | ->]; lra).
  change (eye (S i) (S i')) with (eye i i'). lra.
Qed.

(** X19: the M vertices that [standard_simplex_vertices] returns have
    length 1, any two of them have scalar product -1 / (M - 1) and distance
    sqrt(2 M / (M - 1)), and the rows of the matrix are orthogonal to each
    other with squared length M / (M - 1). *)
Theorem standard_simplex_vertices_metric la M :
  (2 <= M)%Z -> qr_at la (Z.to_nat M) (transpose simplex_seed) ->
  exists t, standard_simplex_vertices la M = Ok t /\
    (forall j, (j < Z.to_nat M)%nat -> norm (Z.to_nat M - 1) (col t j) = 1) /\
    (forall j k, (j < Z.to_nat M)%nat -> (k < Z.to_nat M)%nat -> j <> k ->
       dot (Z.to_nat M - 1) (col t j) (col t k) = - 1 / (IZR M - 1) /\
       dist (Z.to_nat M - 1) (col t j) (col t k)
       = sqrt (2 * IZR M / (IZR M - 1))) /\
    (forall i i', (i < Z.to_nat M - 1)%nat -> (i' < Z.to_nat M - 1)%nat ->
       sumR (Z.to_nat M) (fun j => t i j * t i' j)
       = IZR M / (IZR M - 1) * eye i i').
Proof.
  intros HM Hqr.
  destruct (standard_simplex_vertices_ok la M HM) as [s [t [_ [Ht _]]]].
  assert (2 <= IZR M) as HMr by (apply IZR_le in HM; exact HM).
  exists t. split; [exact Ht|]. split; [|split].
  - intros j Hj. unfold norm.
    rewrite (simplex_unit la M t j HM Hqr Ht Hj). apply sqrt_1.
  - intros j k Hj Hk Hne. split.
    + rewrite (simplex_dot la M t j k HM Hqr Ht Hj Hk).
      unfold eye. destruct (Nat.eqb_spec j k) as [E|_]; [contradiction|].
      field. lra.
    + unfold dist. rewrite (simplex_dist2 la M t j k HM Hqr Ht Hj Hk Hne).
      reflexivity.
  - intros i i' Hi Hi'. apply (simplex_row_gram la M t i i' HM Hqr Ht Hi Hi').
Qed.

Lemma standard_simplex_vertices_metric_witness :
  exists t, standard_simplex_vertices la_ex 3 = Ok t /\
    (forall j, (j < Z.to_nat 3)%nat -> norm (Z.to_nat 3 - 1) (col t j) = 1) /\
    (forall j k, (j < Z.to_nat 3)%nat -> (k < Z.to_nat 3)%nat -> j <> k ->
       dot (Z.to_nat 3 - 1) (col t j) (col t k) = - 1 / (IZR 3 - 1) /\
       dist (Z.to_nat 3 - 1) (col t j) (col t k)
       = sqrt (2 * IZR 3 / (IZR 3 - 1))) /\
    (forall i i', (i < Z.to_nat 3 - 1)%nat -> (i' < Z.to_nat 3 - 1)%nat ->
       sumR (Z.to_nat 3) (fun j => t i j * t i' j)
       = IZR 3 / (IZR 3 - 1) * eye i i').
Proof.
  apply (standard_simplex_vertices_metric la_ex 3).
  - lia.
  - exact la_ex_qr_at_simplex_3.
Defined.

(** X20: the matrix of the vertices is triangular: vertex j has no
    coordinate after the j-th, its coordinates before the j-th are those of
    the last vertex, and the first vertex is the first unit vector. *)
Theorem standard_simplex_vertices_triangular la M :
  (2 <= M)%Z -> qr_at la (Z.to_nat M) (transpose simplex_seed) ->
  exists t, standard_simplex_vertices la M = Ok t /\
    (forall i j, (j < i)%nat -> (i < Z.to_nat M - 1)%nat -> t i j = 0) /\
    (forall i j, (i < j)%nat -> (j < Z.to_nat M)%nat ->
                 t i j = t i (Z.to_nat M - 1)%nat) /\
    (forall i, (i < Z.to_nat M - 1)%nat -> t i 0%nat = eye i 0%nat).
Proof.
  intros HM Hqr.
  destruct (standard_simplex_vertices_ok la M HM) as [s [t [_ [Ht _]]]].
  destruct (simplex_structure la M t HM Hqr Ht) as [Hlow Htail].
  exists t. split; [exact Ht|]. split; [exact Hlow|]. split; [exact Htail|].
  apply (simplex_first_vertex la M t HM Hqr Ht).
Qed.

Lemma standard_simplex_vertices_triangular_witness :
  exists t, standard_simplex_vertices la_ex 3 = Ok t /\
    (forall i j, (j < i)%nat -> (i < Z.to_nat 3 - 1)%nat -> t i j = 0) /\
    (forall i j, (i < j)%nat -> (j < Z.to_nat 3)%nat ->
                 t i j = t i (Z.to_nat 3 - 1)%nat) /\
    (forall i, (i < Z.to_nat 3 - 1)%nat -> t i 0%nat = eye i 0%nat).
Proof.
  apply (standard_simplex_vertices_triangular la_ex 3).
  - lia.
  - exact la_ex_qr_at_simplex_3.
Defined.

(** ** Gram-Schmidt by rows *)

Lemma sumR_truncate n a f :
  (a <= n)%nat -> (forall i, (a <= i < n)%nat -> f i = 0) ->
  sumR n f = sumR a f.
Proof.
  intros Ha H. induction n as [|n IH].
  - replace a with 0%nat by lia. reflexivity.
  - destruct (Nat.eq_dec a (S n)) as [->|Hne]; [reflexivity|].
    simpl. rewrite IH by (try lia; intros; apply H; lia).
    rewrite (H n) by lia. lra.
Qed.

(** X21: what [gram_schmidt_rows] returns when [np.linalg.qr] keeps its
    contract: orthonormal rows, row i orthogonal to the rows of the input
    above row i, and row j of the input a combination of rows 0..j of the
    output.  It is the transpose of [gram_schmidt_columns] on the transposed
    input. *)
Theorem gram_schmidt_rows_triangular la n x :
  qr_at la n (transpose x) ->
  let gs := gram_schmidt_rows la n x in
  orthonormal_rows n gs /\
  (forall i j, (j < i)%nat -> (i < n)%nat -> dot n (gs i) (x j) = 0) /\
  (forall j k, (j < n)%nat -> (k < n)%nat ->
     x j k = sumR (S j) (fun i => dot n (gs i) (x j) * gs i k)) /\
  (forall i j, gs i j = gram_schmidt_columns la n (transpose x) j i).
Proof.
  intros Hqr gs.
  destruct (gram_schmidt_rows_expand la n x Hqr) as [Hz Hx].
  fold gs in Hz, Hx.
  split; [|split; [exact Hz|split]].
  - unfold gs, gram_schmidt_rows. unfold qr_at in Hqr.
    destruct (qr la n (transpose x)) as [q r]. destruct Hqr as [Hc _].
    exact Hc.
  - intros j k Hj Hk. rewrite (Hx j k Hj Hk).
    apply sumR_truncate; [lia|]. intros i Hi. rewrite (Hz i j) by lia. lra.
  - intros i j. unfold gs, gram_schmidt_rows, gram_schmidt_columns.
    destruct (qr la n (transpose x)) as [q r]. reflexivity.
Qed.

Lemma gram_schmidt_rows_triangular_witness :
  let gs := gram_schmidt_rows la_ex 2 c_corr in
  orthonormal_rows 2 gs /\
  (forall i j, (j < i)%nat -> (i < 2)%nat -> dot 2 (gs i) (c_corr j) = 0) /\
  (forall j k, (j < 2)%nat -> (k < 2)%nat ->
     c_corr j k = sumR (S j) (fun i => dot 2 (gs i) (c_corr j) * gs i k)) /\
  (forall i j, gs i j = gram_schmidt_columns la_ex 2 (transpose c_corr) j i).
Proof.
  apply (gram_schmidt_rows_triangular la_ex 2 c_corr). apply la_ex_qr_at_2.
Defined.

(** ** The seed matrix of [p_from_w] *)

Lemma fold_set_entry_below (p : mat) s len i j :
  fold_left (fun p a => set_entry p (a + 1) a 1) (seq s len) p i j
  = if ((s + 1 <=? i) && (i <=? s + len) && (j =? i - 1))%nat%bool
    then 1 else p i j.
Proof.
  revert s p. induction len as [|len IH]; intros s p; simpl.
  - destruct (s + 1 <=? i)%nat eqn:E1; destruct (i <=? s + 0)%nat eqn:E2;
      simpl; try reflexivity.
    apply Nat.leb_le in E1, E2. lia.
  - rewrite IH. unfold set_entry.
    destruct (Nat.leb_spec (S s + 1) i); destruct (Nat.leb_spec i (S s + len));
      destruct (Nat.leb_spec (s + 1) i); destruct (Nat.leb_spec i (s + S len));
      destruct (Nat.eqb_spec j (i - 1)); destruct (Nat.eqb_spec i (s + 1));
      destruct (Nat.eqb_spec j s); simpl; try reflexivity; lia.
Qed.

Lemma fold_set_entry_diag (p : mat) s len i j :
  fold_left (fun p a => set_entry p a a 1) (seq s len) p i j
  = if ((s <=? i) && (i <? s + len) && (j =? i))%nat%bool
    then 1 else p i j.
Proof.
  revert s p. induction len as [|len IH]; intros s p; simpl.
  - destruct (s <=? i)%nat eqn:E1; destruct (i <? s + 0)%nat eqn:E2;
      simpl; try reflexivity.
    apply Nat.leb_le in E1. apply Nat.ltb_lt in E2. lia.
  - rewrite IH. unfold set_entry.
    destruct (Nat.leb_spec (S s) i); destruct (Nat.ltb_spec i (S s + len));
      destruct (Nat.leb_spec s i); destruct (Nat.ltb_spec i (s + S len));
      destruct (Nat.eqb_spec j i); destruct (Nat.eqb_spec i s);
      destruct (Nat.eqb_spec j s); simpl; try reflexivity; lia.
Qed.

Lemma p_init_entries n w j0 :
  (forall j, p_init n w j0 0%nat j = w j / norm n w) /\
  (forall i j, (1 <= i <= j0)%nat -> p_init n w j0 i j = eye (i - 1)%nat j) /\
  (forall i j, (j0 < i < n)%nat -> p_init n w j0 i j = eye i j).
Proof.
  split; [intros j; apply p_init_row0|].
  split.
  - intros i j Hi. unfold p_init.
    rewrite fold_set_entry_diag, fold_set_entry_below.
    unfold set_row, zeros, eye.
    destruct (Nat.leb_spec (j0 + 1) i); destruct (Nat.leb_spec (0 + 1) i);
      destruct (Nat.leb_spec i (0 + j0)); destruct (Nat.eqb_spec i 0);
      destruct (Nat.eqb_spec j (i - 1)); destruct (Nat.eqb_spec (i - 1) j);
      destruct (Nat.ltb_spec i (j0 + 1 + (n - (j0 + 1))));
      destruct (Nat.eqb_spec j i); cbn [andb]; try reflexivity; lia.
  - intros i j Hi. unfold p_init.
    rewrite fold_set_entry_diag, fold_set_entry_below.
    unfold set_row, zeros, eye.
    destruct (Nat.leb_spec (j0 + 1) i); try lia.
    destruct (Nat.ltb_spec i (j0 + 1 + (n - (j0 + 1)))); try lia.
    destruct (Nat.leb_spec (0 + 1) i); destruct (Nat.leb_spec i (0 + j0));
      destruct (Nat.eqb_spec j (i - 1)); destruct (Nat.eqb_spec i 0);
      destruct (Nat.eqb_spec j i); destruct (Nat.eqb_spec i j);
      cbn [andb]; try reflexivity; lia.
Qed.

Lemma filter_seq_first (f : nat -> bool) s len j0 l :
  filter f (seq s len) = j0 :: l ->
  (s <= j0 < s + len)%nat /\ f j0 = true /\
  forall j, (s <= j < j0)%nat -> f j = false.
Proof.
  revert s. induction len as [|len IH]; intros s H; simpl in H;
    [discriminate|].
  destruct (f s) eqn:E.
  - injection H as <- _. repeat split; try lia. exact E.
  - destruct (IH (S s) H) as [Hr [Hf Hb]]. repeat split; try lia; try exact Hf.
    intros j Hj. destruct (Nat.eq_dec j s) as [->|Hne]; [exact E|].
    apply Hb. lia.
Qed.

(** X22: the matrix that [p_from_w] orthonormalises.  The index j0 is the
    first one whose weight exceeds 1e-5 in absolute value; row 0 of the
    matrix is w / norm(w), and rows 1 .. n-1 are the unit vectors e_j with
    j <> j0, in ascending order of j. *)
Theorem p_from_w_seed la n w :
  accepted n w ->
  exists j0,
    ((j0 < n)%nat /\ Rabs (w j0) > 1 / 100000 /\
     forall j, (j < j0)%nat -> ~ Rabs (w j) > 1 / 100000) /\
    p_from_w la n w
    = Ok (canonicalize n (gram_schmidt_rows la n (p_init n w j0))) /\
    (forall j, p_init n w j0 0%nat j = w j / norm n w) /\
    (forall i j, (1 <= i <= j0)%nat ->
                 p_init n w j0 i j = eye (i - 1)%nat j) /\
    (forall i j, (j0 < i < n)%nat -> p_init n w j0 i j = eye i j).
Proof.
  intros Hacc. exists (first_index n w).
  split; [|split; [apply p_from_w_accepted; exact Hacc|apply p_init_entries]].
  destruct (accepted_nonzero_indices n w Hacc) as [j0 [l [E _]]].
  unfold first_index. rewrite E. simpl hd.
  destruct (filter_seq_first _ _ _ _ _ E) as [Hr [Hf Hb]].
  split; [lia|]. split; [apply above_eps_true; exact Hf|].
  intros j Hj Habs. apply above_eps_true in Habs.
  rewrite (Hb j) in Habs by lia. discriminate.
Qed.

Lemma p_from_w_seed_witness :
  exists j0,
    ((j0 < 2)%nat /\ Rabs (w_mixed j0) > 1 / 100000 /\
     forall j, (j < j0)%nat -> ~ Rabs (w_mixed j) > 1 / 100000) /\
    p_from_w la_ex 2 w_mixed
    = Ok (canonicalize 2 (gram_schmidt_rows la_ex 2 (p_init 2 w_mixed j0))) /\
    (forall j, p_init 2 w_mixed j0 0%nat j = w_mixed j / norm 2 w_mixed) /\
    (forall i j, (1 <= i <= j0)%nat ->
                 p_init 2 w_mixed j0 i j = eye (i - 1)%nat j) /\
    (forall i j, (j0 < i < 2)%nat -> p_init 2 w_mixed j0 i j = eye i j).
Proof.
  apply (p_from_w_seed la_ex 2 w_mixed). exact accepted_w_mixed.
Defined.

(** ** The hyperplane of the scenarios *)

Lemma abs_first_coordinate n w p x :
  nonzero_vec n w ->
  (forall j, (j < n)%nat -> p 0%nat j = abs_normalized n w j) ->
  dot n (fun i => Rabs (w i)) x = norm n w * dot n (p 0%nat) x.
Proof.
  intros Hw H0. pose proof (norm_pos n w Hw) as Hpos.
  unfold dot. rewrite <- sumR_scal_l. apply sumR_ext. intros i Hi.
  rewrite (H0 i Hi). unfold abs_normalized. field. lra.
Qed.

(** X23: for every accepted weight vector, with negative components or
    without, all scenarios of a run give one value to the sum of
    |w_i| x_i: the value that L (C w) / (w' C w) gives it. *)
Theorem comp_scenarios_common_hyperplane la n c w L q M :
  symmetric n c -> posdef n c -> accepted n w ->
  0 < q <= 1 -> (2 <= M)%Z -> (Z.to_nat M <= n)%nat ->
  library_contracts la n c w M ->
  exists scen lik,
    comp_scenarios la n c w L q M = Ok (scen, lik) /\
    forall j, (j <= Z.to_nat M)%nat ->
      dot n (fun i => Rabs (w i)) (col scen j)
      = dot n (fun i => Rabs (w i)) (central n c w L).
Proof.
  intros Hsym Hpd Hacc Hq HM Hmn Hlib.
  destruct n as [|k]; [lia|].
  destruct (run_stages la k c w M Hsym Hpd Hacc HM Hmn Hlib)
    as [p [vals [vect [t [tau [[Hp [Hrows [_ Hrow0]]] [_ [_ [_ Hrun]]]]]]]]].
  destruct (Hrun L q) as [pdfs [Hok _]].
  eexists. eexists. split; [exact Hok|]. intros j _.
  pose proof (accepted_nonzero_vec _ _ Hacc) as Hw.
  rewrite !(abs_first_coordinate (S k) w p _ Hw Hrow0). f_equal.
  apply scenarios_first_coordinate; [exact Hrows|lia].
Qed.

Lemma la_ex_contracts_mixed :
  library_contracts la_ex 2 eye w_mixed 2.
Proof.
  split; [apply la_ex_qr_at_2|]. split; [apply la_ex_qr_at_2|].
  split; [|split].
  - apply la_ex_serves_2.
    + apply symmetric_eye.
    + exact posdef_eye_2.
    + exact accepted_w_mixed.
  - apply la_ex_solves_2. rewrite det2_eye. lra.
  - simpl. rewrite det2_eye. lra.
Qed.

Lemma comp_scenarios_common_hyperplane_witness :
  exists scen lik,
    comp_scenarios la_ex 2 eye w_mixed 1 (1 / 2) 2 = Ok (scen, lik) /\
    forall j, (j <= Z.to_nat 2)%nat ->
      dot 2 (fun i => Rabs (w_mixed i)) (col scen j)
      = dot 2 (fun i => Rabs (w_mixed i)) (central 2 eye w_mixed 1).
Proof.
  apply (comp_scenarios_common_hyperplane la_ex 2 eye w_mixed 1 (1 / 2) 2).
  - apply symmetric_eye.
  - exact posdef_eye_2.
  - exact accepted_w_mixed.
  - lra.
  - lia.
  - simpl. lia.
  - exact la_ex_contracts_mixed.
Defined.

(** X24: the central scenario is the centroid of the alternative
    scenarios. *)
Theorem comp_scenarios_centroid la n c w L q M :
  symmetric n c -> posdef n c -> accepted n w ->
  0 < q <= 1 -> (2 <= M)%Z -> (Z.to_nat M <= n)%nat ->
  library_contracts la n c w M ->
  exists scen lik,
    comp_scenarios la n c w L q M = Ok (scen, lik) /\
    forall i, sumR (Z.to_nat M) (fun j => scen i (S j)) / IZR M
              = scen i 0%nat.
Proof.
  intros Hsym Hpd Hacc Hq HM Hmn Hlib.
  destruct n as [|k]; [lia|].
  destruct (run_stages la k c w M Hsym Hpd Hacc HM Hmn Hlib)
    as [p [vals [vect [t [tau [_ [_ [Ht [_ Hrun]]]]]]]]].
  destruct (Hrun L q) as [pdfs [Hok _]].
  destruct Hlib as [_ [Hqr2 _]].
  eexists. eexists. split; [exact Hok|]. intros i.
  set (m := Z.to_nat M) in *.
  set (z := directions (S k) m vals vect t) in *.
  set (r := sqrt (-2 * ln q / dot k (col z (m - 1)%nat) tau)).
  set (scen := scenarios_of (S k) c w L p r z).
  assert (2 <= IZR M) as HMr by (apply IZR_le in HM; exact HM).
  assert (INR m = IZR M) as Hm by (unfold m; apply IZR_to_nat; lia).
  assert (forall l, sumR m (fun j => z l j) = 0) as Hz.
  { intros l. unfold z, directions, mulm. rewrite sumR_swap.
    apply sumR_zero. intros a Ha. rewrite sumR_scal_l.
    pose proof (simplex_row_sum la M t a HM Hqr2 Ht Ha) as E. fold m in E.
    apply Rmult_eq_0_compat_l. exact E. }
  assert (sumR m (fun j => scen i (S j) - scen i 0%nat) = 0) as E.
  { rewrite (sumR_ext m _
               (fun j => r * sumR k (fun l => p (S l) i * z l j)))
      by (intros j _; apply scenarios_offset).
    rewrite sumR_scal_l, sumR_swap.
    rewrite (sumR_zero k); [lra|]. intros l Hl.
    rewrite sumR_scal_l, Hz. lra. }
  rewrite sumR_minus, sumR_const, Hm in E.
  apply (Rmult_eq_reg_r (IZR M)); [|lra].
  unfold Rdiv. rewrite Rmult_assoc, Rinv_l by lra. lra.
Qed.

Lemma comp_scenarios_centroid_witness :
  exists scen lik,
    comp_scenarios la_ex 3 c_diag w_unit 1 (1 / 2) 3 = Ok (scen, lik) /\
    forall i, sumR (Z.to_nat 3) (fun j => scen i (S j)) / IZR 3
              = scen i 0%nat.
Proof.
  apply (comp_scenarios_centroid la_ex 3 c_diag w_unit 1 (1 / 2) 3).
  - apply symmetric_c_diag.
  - exact posdef_c_diag.
  - apply accepted_w_unit. lia.
  - lra.
  - lia.
  - simpl. lia.
  - exact la_ex_contracts_3.
Defined.

(** ** The closing loop of [p_from_w] *)

(** X25: the closing loop of [p_from_w] decides each column by the sign of
    its entry in row 0 before the loop: the column is negated when that
    entry is negative and kept otherwise; running the loop a second time
    changes nothing. *)
Theorem canonicalize_columns n gs j :
  (j < n)%nat ->
  (gs 0%nat j < 0 -> forall i, canonicalize n gs i j = - gs i j) /\
  (0 <= gs 0%nat j -> forall i, canonicalize n gs i j = gs i j) /\
  (forall i, canonicalize n (canonicalize n gs) i j = canonicalize n gs i j).
Proof.
  intros Hj. split; [|split].
  - intros Hneg i. rewrite canonicalize_entry by exact Hj.
    destruct (Rlt_dec (gs 0%nat j) 0); [reflexivity|contradiction].
  - intros Hpos i. rewrite canonicalize_entry by exact Hj.
    destruct (Rlt_dec (gs 0%nat j) 0); [lra|reflexivity].
  - intros i. rewrite (canonicalize_entry n (canonicalize n gs)) by exact Hj.
    rewrite canonicalize_row0 by exact Hj.
    destruct (Rlt_dec (Rabs (gs 0%nat j)) 0) as [Hlt|_]; [|reflexivity].
    pose proof (Rabs_pos (gs 0%nat j)). lra.
Qed.

Lemma canonicalize_columns_witness :
  (mat2 1 (-1) 0 2 0%nat 1%nat < 0 ->
   forall i, canonicalize 2 (mat2 1 (-1) 0 2) i 1%nat
             = - mat2 1 (-1) 0 2 i 1%nat) /\
  (0 <= mat2 1 (-1) 0 2 0%nat 1%nat ->
   forall i, canonicalize 2 (mat2 1 (-1) 0 2) i 1%nat
             = mat2 1 (-1) 0 2 i 1%nat) /\
  (forall i, canonicalize 2 (canonicalize 2 (mat2 1 (-1) 0 2)) i 1%nat
             = canonicalize 2 (mat2 1 (-1) 0 2) i 1%nat).
Proof.
  apply (canonicalize_columns 2 (mat2 1 (-1) 0 2) 1). lia.
Defined.

(** ** The inputs on which [comp_scenarios] can return *)

(** X26: [comp_scenarios] returns only for 2 <= M <= n and weights that
    [p_from_w] accepts: outside of these it raises, whatever the library
    routines do. *)
Theorem comp_scenarios_domain la n c w L q M :
  (M < 2)%Z \/ (n < Z.to_nat M)%nat \/ ~ accepted n w ->
  raises (comp_scenarios la n c w L q M).
Proof.
  intros H. unfold comp_scenarios.
  destruct (p_from_w la n w) as [p|e] eqn:Hp; simpl bind;
    [|apply raises_Raise].
  destruct (eig la (n - 1) (cond_cov n c p)) as [ev|e]; simpl bind;
    [|apply raises_Raise].
  destruct (Z.lt_ge_cases M 2) as [Hlt|Hge].
  - destruct (standard_simplex_vertices_raises la M Hlt) as [e ->].
    apply raises_Raise.
  - destruct (standard_simplex_vertices_ok la M Hge) as [s [t [_ [-> _]]]].
    simpl bind. destruct H as [H|[H|H]]; [lia| |].
    + replace (Nat.min (Z.to_nat M - 1) (n - 1) =? Z.to_nat M - 1)%nat
        with false; [apply raises_Raise|].
      symmetry. apply Nat.eqb_neq. lia.
    + rewrite (p_from_w_rejected la n w H) in Hp. discriminate.
Qed.

Lemma comp_scenarios_domain_witness :
  raises (comp_scenarios la_ex 2 c_corr w_unit 13 (1 / 10) 3).
Proof.
  apply (comp_scenarios_domain la_ex 2 c_corr w_unit 13 (1 / 10) 3).
  right. left. simpl. lia.
Defined.

(** ** The central scenario as a function of its arguments *)

(** X27: the vector [ah] = L (C w) / (w' C w) does not change when the
    covariance is multiplied by a factor, nor when the weights and the loss
    are multiplied by one and the same factor. *)
Theorem central_scale_invariant n c w L k i :
  k <> 0 -> dot n w (mulmv n c w) <> 0 ->
  central n (fun a b => k * c a b) w L i = central n c w L i /\
  central n c (fun j => k * w j) (k * L) i = central n c w L i.
Proof.
  intros Hk Hd.
  assert (forall a, mulmv n (fun a b => k * c a b) w a = k * mulmv n c w a)
    as Hc.
  { intros a. unfold mulmv, dot. rewrite <- sumR_scal_l.
    apply sumR_ext. intros; lra. }
  split; unfold central.
  - rewrite Hc.
    rewrite (dot_ext n w w (mulmv n (fun a b => k * c a b) w)
               (fun a => k * mulmv n c w a))
      by (intros; try reflexivity; apply Hc).
    rewrite dot_scal_r. field. split; assumption.
  - rewrite mulmv_scal.
    rewrite (dot_ext n (fun j => k * w j) (fun j => k * w j)
               (mulmv n c (fun j => k * w j)) (fun a => k * mulmv n c w a))
      by (intros; try reflexivity; apply mulmv_scal).
    rewrite dot_scal_l, dot_scal_r. field. split; assumption.
Qed.

Lemma central_scale_invariant_witness :
  central 2 (fun a b => 3 * c_corr a b) w_unit 13 0%nat
  = central 2 c_corr w_unit 13 0%nat /\
  central 2 c_corr (fun j => 3 * w_unit j) (3 * 13) 0%nat
  = central 2 c_corr w_unit 13 0%nat.
Proof.
  apply (central_scale_invariant 2 c_corr w_unit 13 3 0).
  - lra.
  - unfold dot, mulmv, dot, c_corr, w_unit, mat2, vec2. simpl. lra.
Defined.
